(** * Gemini-Transcriber: audio acquisition and encoding pipeline

    A shallow embedding of [src/components/AudioInput.tsx] (file upload,
    microphone recording, remote retrieval through proxy endpoints) and of
    the transcription trigger of the application shell, with the
    properties that the specification states about them, followed by
    further properties of the same code: the elapsed-time display, whole
    sessions of the component, the links it accepts, the search over the
    endpoints, and what the shell renders.

    The component is a set of handlers over React state, refs and browser
    objects. Here its state and the part of the platform it touches form
    one record, each handler is a function on that record, and a session
    is a list of events: the user's actions and what the platform
    delivers (recorder data, the end of a read, a timer tick). What the
    outside world can see of a run (alerts, fetches, reads, stopped
    tracks, payloads handed to [onAudioReady]) is appended to a trace. An
    [async] handler runs to its end within one event: the network answers
    are supplied by an oracle. *)

From Stdlib Require Import String Ascii.
From Stdlib Require Import List NArith Bool Arith Lia.
From Stdlib Require Decimal DecimalNat.
Import ListNotations.

(* ================================================================== *)
(** * JavaScript strings and the builtins the component relies on *)
(* ================================================================== *)

Module JS.

(** A JavaScript string is a sequence of UTF-16 code units; [length]
    counts code units, as [String.prototype.length] does. *)
Definition code_unit := N.
Definition jsstring := list code_unit.

(** ASCII literals of the source text. *)
Definition lit (s : string) : jsstring :=
  map N_of_ascii (list_ascii_of_string s).

Fixpoint eqb (s t : jsstring) : bool :=
  match s, t with
  | [], [] => true
  | x :: s', y :: t' => N.eqb x y && eqb s' t'
  | _, _ => false
  end.

(** [s.startsWith(p)] *)
Fixpoint startsWith (s p : jsstring) {struct p} : bool :=
  match p, s with
  | [], _ => true
  | y :: p', x :: s' => N.eqb x y && startsWith s' p'
  | _ :: _, [] => false
  end.

(** [s.split(sep)] for a one-code-unit separator: always at least one
    segment. *)
Fixpoint split (sep : code_unit) (s : jsstring) : list jsstring :=
  match s with
  | [] => [[]]
  | x :: s' =>
      if N.eqb x sep then [] :: split sep s'
      else match split sep s' with
           | seg :: segs => (x :: seg) :: segs
           | [] => [[x]]
           end
  end.

(** Truthiness of a string value: the empty string is falsy. *)
Definition truthy (s : jsstring) : bool :=
  match s with [] => false | _ :: _ => true end.

(** ** Regular expressions

    The fragment of the pattern language that the source uses: literal
    characters, [.], [\w], a negated class, sequence, alternation, greedy
    [*] over a one-character matcher, capturing groups and [^]. Matching
    is by backtracking with a continuation, in the order the ECMAScript
    semantics prescribes (left alternative first, longest repetition
    first). *)

Inductive cclass :=
| CChar (c : code_unit)          (* a literal character *)
| CAny                           (* .  : anything but a line terminator *)
| CWord                          (* \w : [A-Za-z0-9_] *)
| CNoneOf (cs : list code_unit). (* [^...] *)

Inductive regex :=
| REmpty
| RBol                           (* ^ (no multiline flag) *)
| RSet (k : cclass)
| RSeq (r1 r2 : regex)
| RAlt (r1 r2 : regex)
| RStar (k : cclass)
| RGroup (n : nat) (r : regex).

Definition is_line_terminator (c : code_unit) : bool :=
  N.eqb c 10 || N.eqb c 13 || N.eqb c 8232 || N.eqb c 8233.

Definition is_word (c : code_unit) : bool :=
  (N.leb 97 c && N.leb c 122) || (N.leb 65 c && N.leb c 90)
  || (N.leb 48 c && N.leb c 57) || N.eqb c 95.

Definition cmatch (k : cclass) (c : code_unit) : bool :=
  match k with
  | CChar d => N.eqb c d
  | CAny => negb (is_line_terminator c)
  | CWord => is_word c
  | CNoneOf cs => negb (existsb (N.eqb c) cs)
  end.

(** Captures: the most recent binding of a group number wins. *)
Definition captures := list (nat * jsstring).

Fixpoint capture (n : nat) (caps : captures) : option jsstring :=
  match caps with
  | [] => None
  | (i, s) :: rest => if Nat.eqb i n then Some s else capture n rest
  end.

Definition cont := nat -> jsstring -> captures -> option captures.

(** Greedy repetition of a one-character matcher: consume while the class
    matches, and give characters back one at a time when the rest of the
    pattern fails. *)
Fixpoint star (k : cclass) (pos : nat) (s : jsstring) (caps : captures)
         (kont : cont) : option captures :=
  match s with
  | x :: s' =>
      if cmatch k x then
        match star k (S pos) s' caps kont with
        | Some r => Some r
        | None => kont pos s caps
        end
      else kont pos s caps
  | [] => kont pos s caps
  end.

(** [rmatch r pos s caps kont]: match [r] at absolute position [pos], where
    [s] is the input from [pos] on. *)
Fixpoint rmatch (r : regex) (pos : nat) (s : jsstring) (caps : captures)
         (kont : cont) : option captures :=
  match r with
  | REmpty => kont pos s caps
  | RBol => if Nat.eqb pos 0 then kont pos s caps else None
  | RSet k =>
      match s with
      | x :: s' => if cmatch k x then kont (S pos) s' caps else None
      | [] => None
      end
  | RSeq r1 r2 =>
      rmatch r1 pos s caps (fun p' s' c' => rmatch r2 p' s' c' kont)
  | RAlt r1 r2 =>
      match rmatch r1 pos s caps kont with
      | Some res => Some res
      | None => rmatch r2 pos s caps kont
      end
  | RStar k => star k pos s caps kont
  | RGroup n r1 =>
      rmatch r1 pos s caps
        (fun p' s' c' => kont p' s' ((n, firstn (p' - pos) s) :: c'))
  end.

Definition accept : cont := fun _ _ caps => Some caps.

(** [RegExp.prototype.exec] without the global or sticky flag: try every
    start index from 0 up to the length of the input, first success wins. *)
Fixpoint exec_from (r : regex) (pos : nat) (s : jsstring)
  : option captures :=
  match rmatch r pos s [] accept with
  | Some caps => Some caps
  | None =>
      match s with
      | [] => None
      | _ :: s' => exec_from r (S pos) s'
      end
  end.

(** [str.match(re)] for a pattern without the global flag. *)
Definition string_match (s : jsstring) (r : regex) : option captures :=
  exec_from r 0 s.

(** The regex of a literal string. *)
Fixpoint rlit (l : jsstring) : regex :=
  match l with
  | [] => REmpty
  | c :: l' => RSeq (RSet (CChar c)) (rlit l')
  end.

Definition rstr (s : string) : regex := rlit (lit s).

End JS.

Import JS.

(* ================================================================== *)
(** * Identifier extraction *)
(* ================================================================== *)

Module YoutubeId.

(** The alternatives of group 1:
    [youtu.be\/|v\/|u\/\w\/|embed\/|watch\?v=|&v=]. The dot of [youtu.be]
    is not escaped in the source and matches any character. *)
Definition markers : regex :=
  RAlt (RSeq (rstr "youtu") (RSeq (RSet CAny) (rstr "be/")))
 (RAlt (rstr "v/")
 (RAlt (RSeq (rstr "u/") (RSeq (RSet CWord) (rstr "/")))
 (RAlt (rstr "embed/")
 (RAlt (rstr "watch?v=")
       (rstr "&v="))))).

(** [[^#&?]] *)
Definition token_class : cclass := CNoneOf (lit "#&?").

(** The pattern of the source: start of input, any run of characters,
    group 1 (the alternatives above), group 2 (a greedy run of the token
    class), any run of characters; no end anchor. *)
Definition regExp : regex :=
  RSeq RBol
 (RSeq (RStar CAny)
 (RSeq (RGroup 1 markers)
 (RSeq (RGroup 2 (RStar token_class))
       (RStar CAny)))).

(** [getYoutubeVideoId]: [null] is [None]. When the pattern matches,
    group 2 always takes part in the match (lemma [match_binds_group2]),
    so the read of [match[2].length] never meets [undefined]. *)
Definition getYoutubeVideoId (url : jsstring) : option jsstring :=
  match string_match url regExp with
  | Some m =>
      match capture 2 m with
      | Some tok => if Nat.eqb (length tok) 11 then Some tok else None
      | None => None
      end
  | None => None
  end.

End YoutubeId.

Import YoutubeId.

(* ================================================================== *)
(** * Blobs, files and the platform encoders *)
(* ================================================================== *)

Module Platform.

(** A blob is its bytes (each below 256) and its content type; [size] is
    the number of bytes. A [File] is a blob with a name. *)
Record Blob := { blob_bytes : list N; blob_type : jsstring }.

Record File := { file_name : jsstring; file_type : jsstring;
                 file_bytes : list N }.

Definition blob_size (b : Blob) : N := N.of_nat (length (blob_bytes b)).

Definition blob_of_file (f : File) : Blob :=
  {| blob_bytes := file_bytes f; blob_type := file_type f |}.

(** [new Blob(parts, { type })]: the parts' bytes, in order. *)
Definition new_Blob (parts : list Blob) (type : jsstring) : Blob :=
  {| blob_bytes := concat (map blob_bytes parts); blob_type := type |}.

(** Base64 with padding, as [FileReader.readAsDataURL] writes it. *)
Definition b64_alphabet : jsstring :=
  lit "ABCDEFGHIJKLMNOPQRSTUVWXYZabcdefghijklmnopqrstuvwxyz0123456789+/".

Definition b64_digit (i : N) : code_unit :=
  nth (N.to_nat (N.land i 63)) b64_alphabet 61%N.

Definition b64_pad : code_unit := 61%N.

Fixpoint base64_encode (bs : list N) : jsstring :=
  match bs with
  | [] => []
  | [a] =>
      [b64_digit (N.shiftr a 2); b64_digit (N.shiftl (N.land a 3) 4);
       b64_pad; b64_pad]
  | [a; b] =>
      [b64_digit (N.shiftr a 2);
       b64_digit (N.lor (N.shiftl (N.land a 3) 4) (N.shiftr b 4));
       b64_digit (N.shiftl (N.land b 15) 2); b64_pad]
  | a :: b :: c :: rest =>
      b64_digit (N.shiftr a 2)
      :: b64_digit (N.lor (N.shiftl (N.land a 3) 4) (N.shiftr b 4))
      :: b64_digit (N.lor (N.shiftl (N.land b 15) 2) (N.shiftr c 6))
      :: b64_digit c
      :: base64_encode rest
  end.

(** The result of a completed [readAsDataURL]. *)
Definition dataURL (b : Blob) : jsstring :=
  lit "data:" ++ blob_type b ++ lit ";base64," ++ base64_encode (blob_bytes b).

(** [reader.result] at [loadend]: the data URL, or [null] when the read
    failed. *)
Definition reader_result (ok : bool) (b : Blob) : option jsstring :=
  if ok then Some (dataURL b) else None.

(** ** [encodeURIComponent] *)

Definition uri_unreserved (c : code_unit) : bool :=
  is_word c || existsb (N.eqb c) (lit "-.!~*'()").

Definition hex_digit (i : N) : code_unit :=
  nth (N.to_nat (N.land i 15)) (lit "0123456789ABCDEF") 48%N.

Definition pct (byte : N) : jsstring :=
  [37%N; hex_digit (N.shiftr byte 4); hex_digit byte].

Definition utf8 (cp : N) : list N :=
  if N.ltb cp 128 then [cp]
  else if N.ltb cp 2048 then
    [N.lor 192 (N.shiftr cp 6); N.lor 128 (N.land cp 63)]
  else if N.ltb cp 65536 then
    [N.lor 224 (N.shiftr cp 12); N.lor 128 (N.land (N.shiftr cp 6) 63);
     N.lor 128 (N.land cp 63)]
  else
    [N.lor 240 (N.shiftr cp 18); N.lor 128 (N.land (N.shiftr cp 12) 63);
     N.lor 128 (N.land (N.shiftr cp 6) 63); N.lor 128 (N.land cp 63)].

Definition is_high_surrogate (c : code_unit) : bool :=
  N.leb 55296 c && N.leb c 56319.
Definition is_low_surrogate (c : code_unit) : bool :=
  N.leb 56320 c && N.leb c 57343.

Definition pct_utf8 (cp : N) : jsstring := concat (map pct (utf8 cp)).

(** [None] is the [URIError] that a lone surrogate raises. *)
Fixpoint encodeURIComponent (s : jsstring) : option jsstring :=
  match s with
  | [] => Some []
  | c :: s' =>
      if uri_unreserved c then option_map (cons c) (encodeURIComponent s')
      else if is_low_surrogate c then None
      else if is_high_surrogate c then
        match s' with
        | d :: s'' =>
            if is_low_surrogate d then
              option_map
                (app (pct_utf8 ((c - 55296) * 1024 + (d - 56320) + 65536)))
                (encodeURIComponent s'')
            else None
        | [] => None
        end
      else option_map (app (pct_utf8 c)) (encodeURIComponent s')
  end.

End Platform.

Import Platform.

(* ================================================================== *)
(** * The [AudioInput] component *)
(* ================================================================== *)

Module AudioInput.

(** [AudioState] of [types.ts]; an absent optional field and [null] are
    both [None]. *)
Record AudioState := {
  file : option File;
  base64 : option jsstring;
  mimeType : jsstring;
  duration : option N;
  name : option jsstring }.

(** ** Observable effects

    A fetch is logged with the index of the loop iteration that issues it
    and with its call site: the direct request or the one routed through
    the CORS relay. Console output is not modelled. *)
Inductive route := Direct | Relayed.

Inductive event :=
| Alert (msg : jsstring)
| Fetch (iter : nat) (via : route) (url : jsstring)
| ReadAsDataURL (b : Blob)
| TrackStop (stream track : nat)
| OnAudioReady (audio : AudioState).

(** ** The network

    The outcome of the [calls]-th [fetch] of the run, for the URL it is
    given: the promise rejects, or a response arrives with its [ok] flag
    and what [response.blob()] yields ([None] when reading the body
    rejects). *)
Inductive fetch_result :=
| Rejects
| Responds (ok : bool) (body : option Blob).

Definition network := nat -> jsstring -> fetch_result.

Inductive js_error := NetworkError | BodyError | URIError.

Definition instances : list jsstring :=
  [ lit "https://inv.nadeko.net";
    lit "https://invidious.jing.rocks";
    lit "https://vid.uff.oulu.fi";
    lit "https://invidious.nerdvpn.de" ].

Definition targetUrl (instance videoId : jsstring) : jsstring :=
  instance ++ lit "/latest_version?id=" ++ videoId
           ++ lit "&itag=140&local=true".

Definition proxyUrl (encoded : jsstring) : jsstring :=
  lit "https://corsproxy.io/?" ++ encoded.

(** The state of the [for (const instance of instances)] loop when it is
    left: the local variables [blob] and [error], and the fetches issued. *)
Record search := {
  found : option Blob;
  error : option js_error;
  issued : list event }.

Definition after (evs : list event) (s : search) : search :=
  {| found := found s; error := error s; issued := evs ++ issued s |}.

(** The loop, one iteration per list element. [iter] is the index of the
    iteration, [calls] the number of fetches issued so far, [err] the
    variable [error]. An exception of the inner [try] (the fetch rejects,
    or reading the body of an [ok] response rejects) enters
    [catch (directError)]; an exception raised there reaches the outer
    [catch], which records it and lets the loop go on. *)
Fixpoint tryInstances (net : network) (videoId : jsstring)
         (insts : list jsstring) (iter calls : nat)
         (err : option js_error) : search :=
  match insts with
  | [] => {| found := None; error := err; issued := [] |}
  | instance :: rest =>
      let target := targetUrl instance videoId in
      let direct := Fetch iter Direct target in
      let viaRelay :=
        match encodeURIComponent target with
        | None =>
            after [direct]
              (tryInstances net videoId rest (S iter) (S calls)
                            (Some URIError))
        | Some encoded =>
            let relayed := Fetch iter Relayed (proxyUrl encoded) in
            match net (S calls) (proxyUrl encoded) with
            | Responds true (Some b) =>
                {| found := Some b; error := err;
                   issued := [direct; relayed] |}
            | Responds true None =>
                after [direct; relayed]
                  (tryInstances net videoId rest (S iter) (S (S calls))
                                (Some BodyError))
            | Responds false _ =>
                after [direct; relayed]
                  (tryInstances net videoId rest (S iter) (S (S calls)) err)
            | Rejects =>
                after [direct; relayed]
                  (tryInstances net videoId rest (S iter) (S (S calls))
                                (Some NetworkError))
            end
        end in
      match net calls target with
      | Responds true (Some b) =>
          {| found := Some b; error := err; issued := [direct] |}
      | Responds false _ =>
          after [direct]
            (tryInstances net videoId rest (S iter) (S calls) err)
      | Responds true None => viaRelay
      | Rejects => viaRelay
      end
  end.

(** ** Component and platform state *)

(** A [MediaRecorder]: [RStopping] is a recorder on which [stop()] was
    called and whose final [dataavailable] and [stop] events are still to
    be delivered; its [state] attribute already reads ['inactive']. The
    recorder's stream has [rec_tracks] tracks. *)
Inductive rstate := RInactive | RRecording | RStopping.

Record recorder := { rec_state : rstate; rec_tracks : nat }.

(** What the [onloadend] handler of a [FileReader] closes over. *)
Inductive read_kont :=
| KUpload (f : File)
| KRecording
| KYoutube (videoId : jsstring).

Record reader := { rd_blob : Blob; rd_kont : read_kont; rd_done : bool }.

Record world := {
  (* React state *)
  isRecording : bool;
  recordingTime : nat;
  youtubeUrl : jsstring;
  isFetchingYT : bool;
  (* refs *)
  mediaRecorderRef : option nat;
  timerRef : option nat;
  chunksRef : list Blob;
  (* platform *)
  recorders : list recorder;
  intervals : list nat;
  timersCreated : nat;
  readers : list reader;
  trace : list event }.

Definition initial : world :=
  {| isRecording := false; recordingTime := 0; youtubeUrl := [];
     isFetchingYT := false; mediaRecorderRef := None; timerRef := None;
     chunksRef := []; recorders := []; intervals := []; timersCreated := 0;
     readers := []; trace := [] |}.

Definition set_isRecording (v : bool) (w : world) : world :=
  {| isRecording := v; recordingTime := recordingTime w;
     youtubeUrl := youtubeUrl w; isFetchingYT := isFetchingYT w;
     mediaRecorderRef := mediaRecorderRef w; timerRef := timerRef w;
     chunksRef := chunksRef w; recorders := recorders w;
     intervals := intervals w; timersCreated := timersCreated w;
     readers := readers w; trace := trace w |}.

Definition set_recordingTime (v : nat) (w : world) : world :=
  {| isRecording := isRecording w; recordingTime := v;
     youtubeUrl := youtubeUrl w; isFetchingYT := isFetchingYT w;
     mediaRecorderRef := mediaRecorderRef w; timerRef := timerRef w;
     chunksRef := chunksRef w; recorders := recorders w;
     intervals := intervals w; timersCreated := timersCreated w;
     readers := readers w; trace := trace w |}.

Definition set_youtubeUrl (v : jsstring) (w : world) : world :=
  {| isRecording := isRecording w; recordingTime := recordingTime w;
     youtubeUrl := v; isFetchingYT := isFetchingYT w;
     mediaRecorderRef := mediaRecorderRef w; timerRef := timerRef w;
     chunksRef := chunksRef w; recorders := recorders w;
     intervals := intervals w; timersCreated := timersCreated w;
     readers := readers w; trace := trace w |}.

Definition set_isFetchingYT (v : bool) (w : world) : world :=
  {| isRecording := isRecording w; recordingTime := recordingTime w;
     youtubeUrl := youtubeUrl w; isFetchingYT := v;
     mediaRecorderRef := mediaRecorderRef w; timerRef := timerRef w;
     chunksRef := chunksRef w; recorders := recorders w;
     intervals := intervals w; timersCreated := timersCreated w;
     readers := readers w; trace := trace w |}.

Definition set_mediaRecorderRef (v : option nat) (w : world) : world :=
  {| isRecording := isRecording w; recordingTime := recordingTime w;
     youtubeUrl := youtubeUrl w; isFetchingYT := isFetchingYT w;
     mediaRecorderRef := v; timerRef := timerRef w;
     chunksRef := chunksRef w; recorders := recorders w;
     intervals := intervals w; timersCreated := timersCreated w;
     readers := readers w; trace := trace w |}.

Definition set_timerRef (v : option nat) (w : world) : world :=
  {| isRecording := isRecording w; recordingTime := recordingTime w;
     youtubeUrl := youtubeUrl w; isFetchingYT := isFetchingYT w;
     mediaRecorderRef := mediaRecorderRef w; timerRef := v;
     chunksRef := chunksRef w; recorders := recorders w;
     intervals := intervals w; timersCreated := timersCreated w;
     readers := readers w; trace := trace w |}.

Definition set_chunksRef (v : list Blob) (w : world) : world :=
  {| isRecording := isRecording w; recordingTime := recordingTime w;
     youtubeUrl := youtubeUrl w; isFetchingYT := isFetchingYT w;
     mediaRecorderRef := mediaRecorderRef w; timerRef := timerRef w;
     chunksRef := v; recorders := recorders w; intervals := intervals w;
     timersCreated := timersCreated w; readers := readers w;
     trace := trace w |}.

Definition set_recorders (v : list recorder) (w : world) : world :=
  {| isRecording := isRecording w; recordingTime := recordingTime w;
     youtubeUrl := youtubeUrl w; isFetchingYT := isFetchingYT w;
     mediaRecorderRef := mediaRecorderRef w; timerRef := timerRef w;
     chunksRef := chunksRef w; recorders := v; intervals := intervals w;
     timersCreated := timersCreated w; readers := readers w;
     trace := trace w |}.

Definition set_intervals (v : list nat) (w : world) : world :=
  {| isRecording := isRecording w; recordingTime := recordingTime w;
     youtubeUrl := youtubeUrl w; isFetchingYT := isFetchingYT w;
     mediaRecorderRef := mediaRecorderRef w; timerRef := timerRef w;
     chunksRef := chunksRef w; recorders := recorders w; intervals := v;
     timersCreated := timersCreated w; readers := readers w;
     trace := trace w |}.

Definition set_timersCreated (v : nat) (w : world) : world :=
  {| isRecording := isRecording w; recordingTime := recordingTime w;
     youtubeUrl := youtubeUrl w; isFetchingYT := isFetchingYT w;
     mediaRecorderRef := mediaRecorderRef w; timerRef := timerRef w;
     chunksRef := chunksRef w; recorders := recorders w;
     intervals := intervals w; timersCreated := v; readers := readers w;
     trace := trace w |}.

Definition set_readers (v : list reader) (w : world) : world :=
  {| isRecording := isRecording w; recordingTime := recordingTime w;
     youtubeUrl := youtubeUrl w; isFetchingYT := isFetchingYT w;
     mediaRecorderRef := mediaRecorderRef w; timerRef := timerRef w;
     chunksRef := chunksRef w; recorders := recorders w;
     intervals := intervals w; timersCreated := timersCreated w;
     readers := v; trace := trace w |}.

Definition set_trace (v : list event) (w : world) : world :=
  {| isRecording := isRecording w; recordingTime := recordingTime w;
     youtubeUrl := youtubeUrl w; isFetchingYT := isFetchingYT w;
     mediaRecorderRef := mediaRecorderRef w; timerRef := timerRef w;
     chunksRef := chunksRef w; recorders := recorders w;
     intervals := intervals w; timersCreated := timersCreated w;
     readers := readers w; trace := v |}.

Definition emit (e : event) (w : world) : world :=
  set_trace (trace w ++ [e]) w.

(** ** Platform operations *)

Definition readAsDataURL (b : Blob) (k : read_kont) (w : world) : world :=
  set_readers
    (readers w ++ [{| rd_blob := b; rd_kont := k; rd_done := false |}])
    (emit (ReadAsDataURL b) w).

Definition recorder_state (rid : nat) (w : world) : rstate :=
  match nth_error (recorders w) rid with
  | Some r => rec_state r
  | None => RInactive
  end.

Definition recorder_tracks (rid : nat) (w : world) : nat :=
  match nth_error (recorders w) rid with
  | Some r => rec_tracks r
  | None => 0
  end.

Fixpoint update_nth {A} (n : nat) (f : A -> A) (l : list A) : list A :=
  match l, n with
  | [], _ => []
  | x :: l', 0 => f x :: l'
  | x :: l', S n' => x :: update_nth n' f l'
  end.

Definition set_recorder_state (rid : nat) (st : rstate) (w : world) : world :=
  set_recorders
    (update_nth rid
       (fun r => {| rec_state := st; rec_tracks := rec_tracks r |})
       (recorders w)) w.

(** [new MediaRecorder(stream)] on a stream of [ntracks] tracks. *)
Definition new_MediaRecorder (ntracks : nat) (w : world) : world :=
  set_recorders
    (recorders w ++ [{| rec_state := RInactive; rec_tracks := ntracks |}]) w.

Definition recorder_start (rid : nat) (w : world) : world :=
  match recorder_state rid w with
  | RInactive => set_recorder_state rid RRecording w
  | _ => w
  end.

(** [MediaRecorder.stop()]: on a recording recorder, inactivate it and
    queue the final events; otherwise nothing. *)
Definition recorder_stop (rid : nat) (w : world) : world :=
  match recorder_state rid w with
  | RRecording => set_recorder_state rid RStopping w
  | _ => w
  end.

(** [window.setInterval]: identifiers are positive. *)
Definition setInterval (w : world) : nat * world :=
  let id := S (timersCreated w) in
  (id, set_timersCreated id (set_intervals (intervals w ++ [id]) w)).

Definition clearInterval (id : nat) (w : world) : world :=
  set_intervals (filter (fun j => negb (Nat.eqb j id)) (intervals w)) w.

(** [stream.getTracks().forEach(track => track.stop())] *)
Fixpoint stop_tracks (stream : nat) (from n : nat) (w : world) : world :=
  match n with
  | 0 => w
  | S n' => stop_tracks stream (S from) n' (emit (TrackStop stream from) w)
  end.

(** ** Handlers *)

Definition base64String (result : jsstring) : option jsstring :=
  nth_error (split 44%N result) 1.

(** [reader.onloadend]. When the read failed [reader.result] is [null],
    the call of [split] throws and the handler does nothing more. [now] is
    [new Date().toLocaleTimeString()]. *)
Definition onloadend (k : read_kont) (result : option jsstring)
           (now : jsstring) (w : world) : world :=
  match result with
  | None => w
  | Some r =>
      match k with
      | KUpload f =>
          emit (OnAudioReady
                  {| file := Some f; base64 := base64String r;
                     mimeType := file_type f; duration := None;
                     name := Some (file_name f) |}) w
      | KRecording =>
          emit (OnAudioReady
                  {| file := None; base64 := base64String r;
                     mimeType := lit "audio/webm"; duration := None;
                     name := Some (lit "Recording_" ++ now ++ lit ".webm") |})
               w
      | KYoutube videoId =>
          set_isFetchingYT false
            (emit (OnAudioReady
                     {| file := None; base64 := base64String r;
                        mimeType := lit "audio/mp4"; duration := None;
                        name := Some (lit "YouTube_" ++ videoId
                                          ++ lit ".m4a") |}) w)
      end
  end.

Definition handleFileUpload (sel : option File) (w : world) : world :=
  match sel with
  | None => w
  | Some f =>
      if negb (startsWith (file_type f) (lit "audio/")) then
        emit (Alert (lit "Please upload a valid audio file.")) w
      else readAsDataURL (blob_of_file f) (KUpload f) w
  end.

(** [mediaRecorder.ondataavailable] *)
Definition ondataavailable (data : Blob) (w : world) : world :=
  if N.ltb 0 (blob_size data) then set_chunksRef (chunksRef w ++ [data]) w
  else w.

(** [mediaRecorder.onstop] of recorder [rid], whose closure holds the
    recorder's stream. *)
Definition onstop (rid : nat) (w : world) : world :=
  let blob := new_Blob (chunksRef w) (lit "audio/webm") in
  stop_tracks rid 0 (recorder_tracks rid w) (readAsDataURL blob KRecording w).

(** [startRecording] once [getUserMedia] has settled: [gum] is [None] when
    it rejected, and the number of tracks of the stream otherwise. The
    construction and the start of the recorder are taken to succeed. *)
Definition startRecording (gum : option nat) (w : world) : world :=
  match gum with
  | None =>
      emit (Alert (lit
        "Could not access microphone. Please ensure permissions are granted."))
        w
  | Some ntracks =>
      let rid := length (recorders w) in
      let w := new_MediaRecorder ntracks w in
      let w := set_mediaRecorderRef (Some rid) w in
      let w := set_chunksRef [] w in
      let w := recorder_start rid w in
      let w := set_isRecording true w in
      let w := set_recordingTime 0 w in
      let (id, w) := setInterval w in
      set_timerRef (Some id) w
  end.

(** [if (timerRef.current) clearInterval(timerRef.current)] *)
Definition clear_timer (w : world) : world :=
  match timerRef w with
  | Some (S _ as id) => clearInterval id w
  | _ => w
  end.

Definition stopRecording (w : world) : world :=
  match mediaRecorderRef w with
  | Some rid =>
      if isRecording w then
        clear_timer (set_isRecording false (recorder_stop rid w))
      else w
  | None => w
  end.

(** The cleanup function of the mount effect. *)
Definition cleanup (w : world) : world :=
  let w := clear_timer w in
  match mediaRecorderRef w with
  | Some rid =>
      match recorder_state rid w with
      | RRecording => recorder_stop rid w
      | _ => w
      end
  | None => w
  end.

Definition size_limit : N := 20 * 1024 * 1024.

Definition handleYoutubeFetchWith (insts : list jsstring) (net : network)
           (w : world) : world :=
  match getYoutubeVideoId (youtubeUrl w) with
  | None | Some [] => emit (Alert (lit "Invalid YouTube URL")) w
  | Some videoId =>
      let w := set_isFetchingYT true w in
      let s := tryInstances net videoId insts 0 0 None in
      let w := set_trace (trace w ++ issued s) w in
      let failed :=
        emit (Alert (lit
          "Could not fetch audio. Please try another video or download it manually."))
          (set_isFetchingYT false w) in
      match found s with
      | Some blob =>
          if N.ltb 0 (blob_size blob) then
            if N.ltb size_limit (blob_size blob) then
              emit (Alert (lit
                "Video audio is too large (>20MB). Please use a shorter video."))
                (set_isFetchingYT false w)
            else readAsDataURL blob (KYoutube videoId) w
          else failed
      | None => failed
      end
  end.

Definition handleYoutubeFetch : network -> world -> world :=
  handleYoutubeFetchWith instances.

(** ** Events of a session

    The user's actions and the platform's deliveries. An event that the
    platform cannot deliver in the current state (data from a recorder
    that is not recording, the end of a read that is not pending) leaves
    the state as it is.

    A recorder delivers its final [dataavailable] and [stop] events in
    two ways: [RecorderStopped], after [stop()] was called on it, and
    [StreamEnded], when it stops by itself while recording because the
    captured stream has ended (or the recorder has failed); in both cases
    its [state] is ['inactive'] when the handlers run.

    After [Unmount] React has discarded the component's state: the
    fields [isRecording], [recordingTime], [youtubeUrl] and
    [isFetchingYT] of a later world say what the setters were called
    with, not what is on screen, and an update of them is dropped by
    React. The refs, the recorders, the intervals, the readers and the
    trace outlive the component. *)
Inductive action :=
| FileSelected (sel : option File)
| StartRecording (gum : option nat)
| DataAvailable (rid : nat) (data : Blob)
| StopRecording
| Unmount
| RecorderStopped (rid : nat) (data : Blob)
| Tick (id : nat)
| LoadEnd (k : nat) (ok : bool) (now : jsstring)
| SetYoutubeUrl (s : jsstring)
| YoutubeFetch (net : network)
| StreamEnded (rid : nat) (data : Blob).

Definition loadend (k : nat) (ok : bool) (now : jsstring) (w : world)
  : world :=
  match nth_error (readers w) k with
  | Some r =>
      if rd_done r then w
      else
        onloadend (rd_kont r) (reader_result ok (rd_blob r)) now
          (set_readers
             (update_nth k
                (fun r => {| rd_blob := rd_blob r; rd_kont := rd_kont r;
                             rd_done := true |})
                (readers w)) w)
  | None => w
  end.

Definition step (w : world) (a : action) : world :=
  match a with
  | FileSelected sel => handleFileUpload sel w
  | StartRecording gum => startRecording gum w
  | DataAvailable rid data =>
      match recorder_state rid w with
      | RRecording => ondataavailable data w
      | _ => w
      end
  | StopRecording => stopRecording w
  | Unmount => cleanup w
  | RecorderStopped rid data =>
      match recorder_state rid w with
      | RStopping =>
          set_recorder_state rid RInactive (onstop rid (ondataavailable data w))
      | _ => w
      end
  | Tick id =>
      if existsb (Nat.eqb id) (intervals w) then
        set_recordingTime (S (recordingTime w)) w
      else w
  | LoadEnd k ok now => loadend k ok now w
  | SetYoutubeUrl s => set_youtubeUrl s w
  | YoutubeFetch net => handleYoutubeFetch net w
  | StreamEnded rid data =>
      match recorder_state rid w with
      | RRecording =>
          set_recorder_state rid RInactive (onstop rid (ondataavailable data w))
      | _ => w
      end
  end.

Definition run (w : world) (acts : list action) : world :=
  fold_left step acts w.

(** The payloads handed to [onAudioReady], in order. *)
Fixpoint payloads (t : list event) : list AudioState :=
  match t with
  | [] => []
  | OnAudioReady a :: t' => a :: payloads t'
  | _ :: t' => payloads t'
  end.

End AudioInput.

Import AudioInput.

(* ================================================================== *)
(** * The application shell and the transcription service *)
(* ================================================================== *)

Module App.

Inductive AppStatus := IDLE | PROCESSING | COMPLETED | ERROR.

Record state := {
  status : AppStatus;
  audioData : option AudioState;
  transcript : jsstring;
  errorMsg : option jsstring }.

(** The value that a rejected promise carries: [null] or [undefined], or
    any other value, given by its [message] property ([None] when the
    value has none; a message that is present is taken to be a string). *)
Inductive thrown :=
| Nullish
| Thrown (message : option jsstring).

(** What [ai.models.generateContent] does with a request: it rejects with
    some value, or answers with a response whose [text] may be missing. *)
Inductive gen_result :=
| GenThrows (error : thrown)
| GenResponds (text : option jsstring).

Definition service := jsstring -> jsstring -> gen_result.

(** A request as the service receives it: [inlineData.data] and
    [inlineData.mimeType]. *)
Record request := { req_data : jsstring; req_mimeType : jsstring }.

(** [transcribeAudio]: the text, or the value it rethrows; for a response
    without text that value is a new [Error] with its message. *)
Definition transcribeAudio (gen : service) (base64Audio mimeType : jsstring)
  : jsstring + thrown :=
  match gen base64Audio mimeType with
  | GenResponds (Some text) =>
      if truthy text then inl text
      else inr (Thrown (Some (lit "No text returned from model.")))
  | GenResponds None =>
      inr (Thrown (Some (lit "No text returned from model.")))
  | GenThrows error => inr error
  end.

Definition handleAudioReady (audio : AudioState) (st : state) : state :=
  {| status := IDLE; audioData := Some audio; transcript := [];
     errorMsg := None |}.

Definition handleReset (st : state) : state :=
  {| status := IDLE; audioData := None; transcript := []; errorMsg := None |}.

(** [!audioData?.base64 || !audioData?.mimeType] *)
Definition not_ready (audioData : option AudioState) : bool :=
  match audioData with
  | None => true
  | Some a =>
      negb (match base64 a with Some b => truthy b | None => false end)
      || negb (truthy (mimeType a))
  end.

(** [handleTranscribe], run until the service call has settled: the final
    state and the requests sent to the service. In the [catch] block
    [setStatus(ERROR)] comes first; when the value caught is [null] or
    [undefined], reading [error.message] then throws, [setErrorMsg] is not
    reached, and [errorMsg] keeps the [null] that the handler had set
    before the call. *)
Definition handleTranscribe (gen : service) (st : state)
  : state * list request :=
  if not_ready (audioData st) then (st, [])
  else
    match audioData st with
    | Some a =>
        match base64 a with
        | Some b =>
            let sent := [{| req_data := b; req_mimeType := mimeType a |}] in
            match transcribeAudio gen b (mimeType a) with
            | inl text =>
                ({| status := COMPLETED; audioData := audioData st;
                    transcript := text; errorMsg := None |}, sent)
            | inr Nullish =>
                ({| status := ERROR; audioData := audioData st;
                    transcript := transcript st; errorMsg := None |}, sent)
            | inr (Thrown message) =>
                ({| status := ERROR; audioData := audioData st;
                    transcript := transcript st;
                    errorMsg :=
                      Some (match message with
                            | Some m =>
                                if truthy m then m
                                else lit
                                  "Failed to transcribe audio. Please try again."
                            | None =>
                                lit
                                  "Failed to transcribe audio. Please try again."
                            end) |}, sent)
            end
        | None => (st, [])
        end
    | None => (st, [])
    end.

End App.

(* ================================================================== *)
(** * Vocabulary of the statements *)
(* ================================================================== *)

Module Terms.

(** The length of the longest prefix whose characters are all in the
    class. *)
Fixpoint span (k : cclass) (s : jsstring) : nat :=
  match s with
  | x :: s' => if cmatch k x then S (span k s') else 0
  | [] => 0
  end.

(** Which alternative of group 1, if any, matches at the head of [s], as
    the number of code units it takes. Their first characters differ, so
    at most one does. *)
Definition short_link_at (s : jsstring) : bool :=
  startsWith s (lit "youtu")
  && match skipn 5 s with
     | x :: r => cmatch CAny x && startsWith r (lit "be/")
     | [] => false
     end.

Definition user_path_at (s : jsstring) : bool :=
  startsWith s (lit "u/")
  && match skipn 2 s with
     | x :: r => cmatch CWord x && startsWith r (lit "/")
     | [] => false
     end.

Definition marker_len (s : jsstring) : option nat :=
  if short_link_at s then Some 9
  else if startsWith s (lit "v/") then Some 2
  else if user_path_at s then Some 4
  else if startsWith s (lit "embed/") then Some 6
  else if startsWith s (lit "watch?v=") then Some 8
  else if startsWith s (lit "&v=") then Some 3
  else None.

(** The token after a marker: the longest run of the token class. *)
Definition token (s : jsstring) : jsstring := firstn (span token_class s) s.

(** The length test of [getYoutubeVideoId]. *)
Definition pick (tok : jsstring) : option jsstring :=
  if Nat.eqb (length tok) 11 then Some tok else None.

(** The shapes of a URL, read off the pattern. *)
Local Open Scope N_scope.
Definition line_terminator (c : code_unit) : Prop :=
  c = 10 \/ c = 13 \/ c = 8232 \/ c = 8233.

Definition delimiter (c : code_unit) : Prop := c = 35 \/ c = 38 \/ c = 63.

Definition word_char (c : code_unit) : Prop :=
  97 <= c <= 122 \/ 65 <= c <= 90 \/ 48 <= c <= 57 \/ c = 95.
Local Close Scope N_scope.

(** What group 1 of the pattern accepts. The dot of [youtu.be] stands for
    any character that is not a line terminator. *)
Inductive alternative : jsstring -> Prop :=
| alt_short_link x :
    ~ line_terminator x -> alternative (lit "youtu" ++ x :: lit "be/")
| alt_v : alternative (lit "v/")
| alt_user x : word_char x -> alternative (lit "u/" ++ x :: lit "/")
| alt_embed : alternative (lit "embed/")
| alt_watch : alternative (lit "watch?v=")
| alt_param : alternative (lit "&v=").

(** The markers of the URL shapes: the alternatives, with the short-link
    host written out. *)
Inductive marker : jsstring -> Prop :=
| marker_short_link : marker (lit "youtu.be/")
| marker_v : marker (lit "v/")
| marker_user x : word_char x -> marker (lit "u/" ++ x :: lit "/")
| marker_embed : marker (lit "embed/")
| marker_watch : marker (lit "watch?v=")
| marker_param : marker (lit "&v=").

Definition one_line (s : jsstring) : Prop :=
  Forall (fun c => ~ line_terminator c) s.

(** Text that group 1 accepts occurs in the first line of [url], after
    [pre]. *)
Definition occurs_at (url pre mk rest : jsstring) : Prop :=
  url = pre ++ mk ++ rest /\ alternative mk /\ one_line pre.

(** It is the last such occurrence. *)
Definition last_occurrence (url pre mk rest : jsstring) : Prop :=
  occurs_at url pre mk rest
  /\ forall pre' mk' rest',
       occurs_at url pre' mk' rest' -> length pre' <= length pre.

(** [tok] is the token that [tok ++ rest] starts with. *)
Definition token_of (tok rest : jsstring) : Prop :=
  Forall (fun c => ~ delimiter c) tok
  /\ match rest with [] => True | d :: _ => delimiter d end.

(** The body that a fetch delivers: that of a response with a success
    status whose body can be read. *)
Definition delivers (r : fetch_result) : option Blob :=
  match r with
  | Responds true (Some b) => Some b
  | _ => None
  end.

Fixpoint relays_of (iter : nat) (evs : list event) : list jsstring :=
  match evs with
  | [] => []
  | Fetch i Relayed url :: evs' =>
      if Nat.eqb i iter then url :: relays_of iter evs'
      else relays_of iter evs'
  | _ :: evs' => relays_of iter evs'
  end.

Definition is_fetch (e : event) : bool :=
  match e with Fetch _ _ _ => true | _ => false end.

Definition youtube_payload (videoId : jsstring) (blob : Blob) : AudioState :=
  {| file := None; base64 := base64String (dataURL blob);
     mimeType := lit "audio/mp4"; duration := None;
     name := Some (lit "YouTube_" ++ videoId ++ lit ".m4a") |}.

Definition too_large : jsstring :=
  lit "Video audio is too large (>20MB). Please use a shorter video.".

Definition invalid_file : jsstring := lit "Please upload a valid audio file.".

Definition upload_payload (f : File) : AudioState :=
  {| file := Some f; base64 := base64String (dataURL (blob_of_file f));
     mimeType := file_type f; duration := None; name := Some (file_name f) |}.

(** Live capture. *)
Definition nonempty (b : Blob) : bool := N.ltb 0 (blob_size b).

Definition webm : jsstring := lit "audio/webm".

Definition recording_payload (data : list N) (now : jsstring) : AudioState :=
  {| file := None; base64 := Some (base64_encode data);
     mimeType := webm; duration := None;
     name := Some (lit "Recording_" ++ now ++ lit ".webm") |}.

(** The component is in its Recording state, on recorder [rid]. *)
Definition recording (w : world) (rid : nat) : Prop :=
  isRecording w = true /\ mediaRecorderRef w = Some rid
  /\ recorder_state rid w = RRecording.

(** How many times [stop()] was called on a track. *)
Fixpoint track_stops (stream track : nat) (t : list event) : nat :=
  match t with
  | [] => 0
  | TrackStop s k :: t' =>
      (if Nat.eqb s stream && Nat.eqb k track then 1 else 0)
      + track_stops stream track t'
  | _ :: t' => track_stops stream track t'
  end.

(** The blob that [onstop] builds when the recorder's last data is
    [final]. *)
Definition recorded (w : world) (final : Blob) : Blob :=
  new_Blob (chunksRef w ++ filter nonempty [final]) webm.

(** No alternative of group 1 matches at any offset from [from] on. *)
Definition no_marker_from (url : jsstring) (from : nat) : bool :=
  forallb (fun m => match marker_len (skipn m url) with
                    | Some _ => false
                    | None => true
                    end)
          (seq from (S (length url) - from)).



(** The URLs of the direct requests among the fetches, in order. *)
Fixpoint directs (evs : list event) : list jsstring :=
  match evs with
  | [] => []
  | Fetch _ Direct url :: evs' => url :: directs evs'
  | _ :: evs' => directs evs'
  end.

(** ** Three statements of the specification, as they are written

    The extraction returns the 11-character token of every URL that
    shows a marker followed by such a token. *)
Definition claimed_extraction (url : jsstring) : Prop :=
  forall pre mk tok rest,
    url = pre ++ mk ++ tok ++ rest -> marker mk -> token_of tok rest ->
    length tok = 11 -> getYoutubeVideoId url = Some tok.

(** A teardown while recording never reaches the payload callback,
    whatever the platform delivers afterwards. *)
Definition teardown_silent (w : world) (rid : nat) : Prop :=
  recording w rid ->
  forall final k ok now,
    payloads (trace (run w [Unmount; RecorderStopped rid final;
                            LoadEnd k ok now]))
    = payloads (trace w).

(** In the iteration for an endpoint the relay is attempted if and only
    if the direct fetch of the target URL throws. *)
Definition fetch_throws (r : fetch_result) : bool :=
  match r with Rejects => true | _ => false end.

Definition claimed_relay_rule (net : network) (videoId : jsstring) : Prop :=
  forall instance rest iter calls err,
    relays_of iter
      (issued (tryInstances net videoId (instance :: rest) iter calls err))
    <> []
    <-> fetch_throws (net calls (targetUrl instance videoId)) = true.

End Terms.

Import Terms.

(* ================================================================== *)
(** * Sample inputs *)
(* ================================================================== *)

Module Samples.

Import App.

Definition short_link : jsstring := lit "https://youtu.be/dQw4w9WgXcQ?t=42".
Definition short_token : jsstring :=
  lit "https://www.youtube.com/watch?v=short".
Definition no_video : jsstring := lit "https://example.com/clip".

(** A short link followed by a query that ends in [&v=2]. *)
Definition two_markers : jsstring :=
  lit "https://youtu.be/dQw4w9WgXcQ?t=1&v=2".

Definition spoken : Blob := {| blob_bytes := [72; 105]%N; blob_type := webm |}.
Definition silence : Blob := {| blob_bytes := []; blob_type := webm |}.
Definition clock : jsstring := lit "10:15:00".

(** A session in the middle of a recording, one chunk delivered. *)
Definition mid_recording : world :=
  run initial [StartRecording (Some 1); DataAvailable 0 spoken].

(** A session whose first cycle is over; its buffer still holds the chunk
    of that cycle. *)
Definition second_cycle : world :=
  run mid_recording [StopRecording; RecorderStopped 0 silence;
                     LoadEnd 0 true clock].

Definition chunk (n : nat) (b : N) : Blob :=
  {| blob_bytes := repeat b n; blob_type := webm |}.

(** Three chunks of 100, 200 and 50 bytes. *)
Definition three_chunks : list Blob := [chunk 100 1; chunk 200 2; chunk 50 3].

Definition video : jsstring := lit "dQw4w9WgXcQ".
Definition endpointA : jsstring := lit "https://inv.nadeko.net".
Definition endpointB : jsstring := lit "https://invidious.jing.rocks".
Definition endpointC : jsstring := lit "https://vid.uff.oulu.fi".

Definition encodedA : jsstring :=
  lit "https%3A%2F%2Finv.nadeko.net%2Flatest_version%3Fid%3DdQw4w9WgXcQ%26itag%3D140%26local%3Dtrue".

(** The first fetch is rejected, the second is answered with a non-success
    status, the third succeeds. *)
Definition flaky : network :=
  fun calls _ =>
    match calls with
    | 0 => Rejects
    | 1 => Responds false None
    | 2 => Responds true (Some spoken)
    | _ => Rejects
    end.

Definition always (b : Blob) : network := fun _ _ => Responds true (Some b).


(** A network on which every request is rejected. *)
Definition offline : network := fun _ _ => Rejects.

(** Eleven code units, the last one a high surrogate without its pair,
    and a short link that carries them. *)
Definition surrogate_id : jsstring := lit "dQw4w9WgXc" ++ [55357%N].
Definition surrogate_link : jsstring := lit "https://youtu.be/" ++ surrogate_id.

Definition exactly_20MiB : Blob :=
  {| blob_bytes := repeat 0%N (N.to_nat size_limit);
     blob_type := lit "audio/mp4" |}.

Definition over_20MiB : Blob :=
  {| blob_bytes := repeat 0%N (N.to_nat (size_limit + 1));
     blob_type := lit "audio/mp4" |}.

Definition watching : world :=
  set_youtubeUrl (lit "https://www.youtube.com/watch?v=dQw4w9WgXcQ") initial.

Definition song : File :=
  {| file_name := lit "song.mp3"; file_type := lit "audio/mpeg";
     file_bytes := [73; 68; 51]%N |}.

Definition notes : File :=
  {| file_name := lit "notes.txt"; file_type := lit "text/plain";
     file_bytes := [104; 105]%N |}.

Definition idle : state :=
  {| status := IDLE; audioData := None; transcript := []; errorMsg := None |}.

(** A payload whose read produced no base64 text. *)
Definition unread : state :=
  handleAudioReady
    {| file := None; base64 := None; mimeType := webm; duration := None;
       name := None |} idle.

Definition ready : state :=
  handleAudioReady (recording_payload (blob_bytes spoken) clock) idle.

Definition echo : service := fun data _ => GenResponds (Some data).

End Samples.

Import Samples.

(* ================================================================== *)
(** * The elapsed-time display *)
(* ================================================================== *)

Module Display.

(** The decimal digits of a number, most significant first. *)
Fixpoint uint_units (d : Decimal.uint) : jsstring :=
  match d with
  | Decimal.Nil => []
  | Decimal.D0 d' => 48%N :: uint_units d'
  | Decimal.D1 d' => 49%N :: uint_units d'
  | Decimal.D2 d' => 50%N :: uint_units d'
  | Decimal.D3 d' => 51%N :: uint_units d'
  | Decimal.D4 d' => 52%N :: uint_units d'
  | Decimal.D5 d' => 53%N :: uint_units d'
  | Decimal.D6 d' => 54%N :: uint_units d'
  | Decimal.D7 d' => 55%N :: uint_units d'
  | Decimal.D8 d' => 56%N :: uint_units d'
  | Decimal.D9 d' => 57%N :: uint_units d'
  end.

(** [n.toString()] for a non-negative integer. *)
Definition toString (n : nat) : jsstring := uint_units (Nat.to_uint n).

(** [s.padStart(len, pad)] for a one-character pad. *)
Definition padStart (len : nat) (pad : code_unit) (s : jsstring) : jsstring :=
  repeat pad (len - length s) ++ s.

(** [formatTime]; [seconds] is the elapsed-time counter, a non-negative
    integer (far below 2^53, where the arithmetic of JavaScript numbers is
    exact). *)
Definition formatTime (seconds : nat) : jsstring :=
  let mins := seconds / 60 in
  let secs := seconds mod 60 in
  toString mins ++ [58%N] ++ padStart 2 48%N (toString secs).

End Display.

Import Display.

(* ================================================================== *)
(** * What the application shell renders *)
(* ================================================================== *)

Module Shell.

Import App.

(** [audioData.name || 'Recorded Audio'] *)
Definition shown_name (a : AudioState) : jsstring :=
  match name a with
  | Some n => if truthy n then n else lit "Recorded Audio"
  | None => lit "Recorded Audio"
  end.

(** [audioData.mimeType.split('/')[1]]; [undefined] is [None]. *)
Definition type_label (a : AudioState) : option jsstring :=
  nth_error (split 47%N (mimeType a)) 1.

(** [errorMsg &&] *)
Definition shows_error (st : state) : bool :=
  match errorMsg st with Some m => truthy m | None => false end.

(** [status === AppStatus.COMPLETED && transcript &&] *)
Definition shows_transcript (st : state) : bool :=
  match status st with COMPLETED => truthy (transcript st) | _ => false end.

(** ** Events of the shell

    A payload arrives from the input component, or the user presses a
    button that is rendered. The Transcribe button is rendered with a
    payload in status IDLE; a reset button (the bin icon in IDLE, Start
    Over in COMPLETED and ERROR) with a payload in every status but
    PROCESSING. A transcription settles before the next event. *)
Inductive shell_action :=
| AudioReady (audio : AudioState)
| PressTranscribe (gen : service)
| PressReset.

Definition offers_transcribe (st : state) : bool :=
  match audioData st, status st with
  | Some _, IDLE => true
  | _, _ => false
  end.

Definition offers_reset (st : state) : bool :=
  match audioData st, status st with
  | Some _, PROCESSING => false
  | Some _, _ => true
  | None, _ => false
  end.

Definition shell_step (st : state) (a : shell_action) : state :=
  match a with
  | AudioReady audio => handleAudioReady audio st
  | PressTranscribe gen =>
      if offers_transcribe st then fst (handleTranscribe gen st) else st
  | PressReset => if offers_reset st then handleReset st else st
  end.

Definition shell_run (st : state) (acts : list shell_action) : state :=
  fold_left shell_step acts st.

Definition initial_shell : state :=
  {| status := IDLE; audioData := None; transcript := []; errorMsg := None |}.

End Shell.

Import Shell.

(* ================================================================== *)
(** * Further vocabulary *)
(* ================================================================== *)

Module Notions.

(** ** The elapsed-time display *)

(** Reading a displayed time back: the number that a string of decimal
    digits denotes, and the seconds that [m:ss] stands for. *)
Definition is_digit (c : code_unit) : bool := N.leb 48 c && N.leb c 57.

Fixpoint number_acc (s : jsstring) (acc : nat) : nat :=
  match s with
  | [] => acc
  | c :: s' => number_acc s' (10 * acc + N.to_nat (c - 48))
  end.

Definition number (s : jsstring) : nat := number_acc s 0.

Definition readTime (s : jsstring) : option nat :=
  match split 58%N s with
  | [m; ss] =>
      if forallb is_digit m && forallb is_digit ss && Nat.eqb (length ss) 2
         && negb (Nat.eqb (length m) 0) && Nat.ltb (number ss) 60
      then Some (60 * number m + number ss)
      else None
  | _ => None
  end.

(** ** Sessions of the input component *)

(** What the [onloadend] handler of reader [r] hands over when the read
    succeeds. *)
Definition payload_of (r : reader) (now : jsstring) : AudioState :=
  let text := base64String (dataURL (rd_blob r)) in
  match rd_kont r with
  | KUpload f =>
      {| file := Some f; base64 := text; mimeType := file_type f;
         duration := None; name := Some (file_name f) |}
  | KRecording =>
      {| file := None; base64 := text; mimeType := lit "audio/webm";
         duration := None;
         name := Some (lit "Recording_" ++ now ++ lit ".webm") |}
  | KYoutube videoId =>
      {| file := None; base64 := text; mimeType := lit "audio/mp4";
         duration := None;
         name := Some (lit "YouTube_" ++ videoId ++ lit ".m4a") |}
  end.

(** The payloads that an event hands over in a given state: one, when the
    event is the successful end of a read that was still pending. *)
Definition delivered (w : world) (a : action) : list AudioState :=
  match a with
  | LoadEnd k true now =>
      match nth_error (readers w) k with
      | Some r => if rd_done r then [] else [payload_of r now]
      | None => []
      end
  | _ => []
  end.

(** Reads started, and reads that have ended. *)
Fixpoint reads (t : list event) : nat :=
  match t with
  | [] => 0
  | ReadAsDataURL _ :: t' => S (reads t')
  | _ :: t' => reads t'
  end.

Definition ended (rs : list reader) : nat := length (filter rd_done rs).

Definition is_unmount (a : action) : bool :=
  match a with Unmount => true | _ => false end.

(** A recorder stops by itself; the one of stream [rid] does. *)
Definition is_stream_end (a : action) : bool :=
  match a with StreamEnded _ _ => true | _ => false end.

Definition ends_stream (rid : nat) (a : action) : bool :=
  match a with StreamEnded r _ => Nat.eqb r rid | _ => false end.

(** The interval that [timerRef] names is running. *)
Definition timer_running (w : world) : Prop :=
  exists id, timerRef w = Some id /\ In id (intervals w).

Definition audio_type (s : jsstring) : bool := startsWith s (lit "audio/").

(** A payload as every path builds it: an audio type and a name. *)
Definition well_formed_payload (a : AudioState) : Prop :=
  audio_type (mimeType a) = true /\ name a <> None.

(** The reader of an upload holds a file of an audio type. *)
Definition audio_reader (r : reader) : Prop :=
  match rd_kont r with
  | KUpload f => audio_type (file_type f) = true
  | _ => True
  end.

Definition mark_done (r : reader) : reader :=
  {| rd_blob := rd_blob r; rd_kont := rd_kont r; rd_done := true |}.

(** What an event does to the readers, and what it hands over: nothing
    changes, or a new pending reader appears, or a pending reader ends,
    and only then may a payload be handed over, that reader's. *)
Inductive reader_change (w w' : world) (d : list AudioState) : Prop :=
| readers_kept :
    readers w' = readers w -> reads (trace w') = reads (trace w) ->
    d = [] -> reader_change w w' d
| reader_added b k :
    readers w' = readers w ++ [{| rd_blob := b; rd_kont := k;
                                  rd_done := false |}] ->
    reads (trace w') = S (reads (trace w)) ->
    audio_reader {| rd_blob := b; rd_kont := k; rd_done := false |} ->
    d = [] -> reader_change w w' d
| reader_ended i r :
    nth_error (readers w) i = Some r -> rd_done r = false ->
    readers w' = update_nth i mark_done (readers w) ->
    reads (trace w') = reads (trace w) ->
    (d = [] \/ exists now, d = [payload_of r now]) ->
    reader_change w w' d.

(** The payloads handed over along a run. *)
Fixpoint deliveries (w : world) (acts : list action) : list AudioState :=
  match acts with
  | [] => []
  | a :: acts' => delivered w a ++ deliveries (step w a) acts'
  end.

Definition is_successful_read (a : action) : bool :=
  match a with LoadEnd _ true _ => true | _ => false end.

(** The readers and the payloads of a session agree: every upload reader
    holds an audio file, every payload is well formed, each read started
    has its reader, and no more payloads were handed over than reads have
    ended. *)
Definition reads_accounted (w : world) : Prop :=
  Forall audio_reader (readers w)
  /\ Forall well_formed_payload (payloads (trace w))
  /\ length (readers w) = reads (trace w)
  /\ length (payloads (trace w)) <= ended (readers w).

(** The flag [isRecording] tells the truth about the recorder and the
    timer that the refs name. *)
Definition recorder_running (w : world) : Prop :=
  exists rid, mediaRecorderRef w = Some rid
              /\ recorder_state rid w = RRecording.

Definition flag_in_step (w : world) : Prop :=
  (isRecording w = true <-> recorder_running w)
  /\ (isRecording w = true <-> timer_running w).

(** A recorder, or an interval, that no ref names any more while it is
    still active. *)
Definition orphan_recorder (w : world) (rid : nat) : Prop :=
  recorder_state rid w = RRecording /\ mediaRecorderRef w <> Some rid.

Definition orphan_interval (w : world) (id : nat) : Prop :=
  In id (intervals w) /\ timerRef w <> Some id /\ id <= timersCreated w.

Fixpoint stream_stops (stream : nat) (t : list event) : nat :=
  match t with
  | [] => 0
  | TrackStop s _ :: t' =>
      (if Nat.eqb s stream then 1 else 0) + stream_stops stream t'
  | _ :: t' => stream_stops stream t'
  end.

(** The fields that the recording machinery consists of. *)
Definition same_control (w w' : world) : Prop :=
  isRecording w' = isRecording w
  /\ mediaRecorderRef w' = mediaRecorderRef w
  /\ timerRef w' = timerRef w
  /\ recorders w' = recorders w
  /\ intervals w' = intervals w
  /\ timersCreated w' = timersCreated w.

(** The events that touch it. *)
Definition controls (a : action) : bool :=
  match a with
  | StartRecording (Some _) | StopRecording | Unmount
  | RecorderStopped _ _ | StreamEnded _ _ => true
  | _ => false
  end.

(** A read of retrieved audio that has not ended, and the event that
    starts a retrieval. *)
Definition retrieval_pending (r : reader) : bool :=
  match rd_kont r with
  | KYoutube _ => negb (rd_done r)
  | _ => false
  end.

Definition starts_retrieval (a : action) : bool :=
  match a with YoutubeFetch _ => true | _ => false end.

(** ** Links *)

(** The alphabet of video identifiers: [A-Za-z0-9_-]. *)
Definition id_char (c : code_unit) : Prop := word_char c \/ c = 45%N.

(** Text without a slash and without [v=]: nothing in it can end an
    alternative of group 1. *)
Fixpoint quiet (s : jsstring) : bool :=
  match s with
  | [] => true
  | c :: s' =>
      negb (N.eqb c 47)
      && negb (N.eqb c 118
               && match s' with d :: _ => N.eqb d 61 | [] => false end)
      && quiet s'
  end.

Definition has_marker_at (url : jsstring) (m : nat) : bool :=
  match marker_len (skipn m url) with Some _ => true | None => false end.

(** ** The search over the endpoints *)

Definition could_not_fetch : jsstring :=
  lit "Could not fetch audio. Please try another video or download it manually.".

(** ** The shell *)

(** What the shell's state looks like between events. In ERROR the
    message is missing when the service rejected with [null] or
    [undefined]. *)
Definition settled (st : App.state) : Prop :=
  match App.status st with
  | App.IDLE => App.transcript st = [] /\ App.errorMsg st = None
  | App.PROCESSING => False
  | App.COMPLETED =>
      App.transcript st <> [] /\ App.errorMsg st = None
      /\ App.audioData st <> None
  | App.ERROR =>
      App.transcript st = [] /\ App.audioData st <> None
      /\ match App.errorMsg st with Some m => m <> [] | None => True end
  end.

(** A service that never rejects with [null] or [undefined], and a
    session in which only such services are called. *)
Definition rejects_with_values (gen : App.service) : Prop :=
  forall data type, gen data type <> App.GenThrows App.Nullish.

Definition polite (a : shell_action) : Prop :=
  match a with
  | PressTranscribe gen => rejects_with_values gen
  | _ => True
  end.

End Notions.

Import Notions.

(* ================================================================== *)
(** * Further sample inputs *)
(* ================================================================== *)

Module Cases.

(** A watch link with further parameters. *)
Definition playlist_link : jsstring :=
  lit "https://www.youtube.com/" ++ lit "watch?v=" ++ lit "dQw4w9WgXcQ"
      ++ lit "&list=PLx&index=2".

Definition silent_answer : Blob :=
  {| blob_bytes := []; blob_type := lit "audio/mp4" |}.

(** A file that claims an audio type and holds nothing. *)
Definition hollow : File :=
  {| file_name := lit "hollow.mp3"; file_type := lit "audio/mpeg";
     file_bytes := [] |}.

(** A service that rejects every request with [null]. *)
Definition mute : App.service := fun _ _ => App.GenThrows App.Nullish.

End Cases.

Import Cases.

(* ================================================================== *)
(** * Proof automation *)
(* ================================================================== *)

(** Projections of updated worlds, and nothing else. *)
Ltac wsimpl :=
  cbn [isRecording recordingTime youtubeUrl isFetchingYT mediaRecorderRef
       timerRef chunksRef recorders intervals timersCreated readers trace
       set_isRecording set_recordingTime set_youtubeUrl set_isFetchingYT
       set_mediaRecorderRef set_timerRef set_chunksRef set_recorders
       set_intervals set_timersCreated set_readers set_trace
       emit readAsDataURL rd_done rd_kont rd_blob reader_result onloadend
       run fold_left step rec_state rec_tracks] in *.

(** Case analysis on what the network and the encoder answer. *)
Ltac by_cases_on_network :=
  repeat match goal with
         | |- context [match ?net ?n ?u with Rejects => _ | Responds _ _ => _ end] =>
             destruct (net n u) as [|[|] [|]]
         | |- context [match encodeURIComponent ?u with Some _ => _ | None => _ end] =>
             destruct (encodeURIComponent u)
         end.

(** Case analysis on the leading characters of an input. *)
Ltac split_input :=
  repeat (cbn -[Nat.add is_word is_line_terminator] in *;
          match goal with
          | |- context [match ?s with [] => _ | _ :: _ => _ end] =>
              is_var s; destruct s
          | |- context [N.eqb ?x ?c] =>
              is_var x; destruct (N.eqb_spec x c); [subst x|]
          | |- context [is_line_terminator ?x] =>
              destruct (is_line_terminator x)
          | |- context [is_word ?x] => destruct (is_word x)
          end).

(* ================================================================== *)
(** * Properties *)
(* ================================================================== *)

Module ListFacts.

Lemma nth_error_snoc {A} (l : list A) x : nth_error (l ++ [x]) (length l) = Some x.
Proof. induction l; simpl; auto. Qed.

Lemma update_nth_snoc {A} (f : A -> A) (l : list A) x :
  update_nth (length l) f (l ++ [x]) = l ++ [f x].
Proof. induction l; simpl; congruence. Qed.

Lemma update_nth_nth {A} (f : A -> A) : forall l n x,
  nth_error l n = Some x -> nth_error (update_nth n f l) n = Some (f x).
Proof.
  induction l as [|y l IH]; intros [|n] x H; simpl in *; try discriminate.
  - now inversion H.
  - now apply IH.
Qed.

Lemma skipn_prefix {A} (p r : list A) : skipn (length p) (p ++ r) = r.
Proof. induction p; simpl; auto. Qed.

End ListFacts.

Import ListFacts.

(* ------------------------------------------------------------------ *)
(** ** Identifier extraction *)

Module IdentifierFacts.

Lemma rmatch_rlit (l : jsstring) : forall pos s caps kont,
  rmatch (rlit l) pos s caps kont =
  if startsWith s l then kont (pos + length l) (skipn (length l) s) caps
  else None.
Proof.
  induction l as [|c l IH]; intros pos s caps kont; simpl.
  - now rewrite Nat.add_0_r.
  - destruct s as [|x s]; [reflexivity|].
    destruct (N.eqb x c); simpl; [|reflexivity].
    rewrite IH. now rewrite Nat.add_succ_r.
Qed.

Lemma star_ext (k : cclass) (k1 k2 : cont) :
  (forall p s c, k1 p s c = k2 p s c) ->
  forall s pos caps, star k pos s caps k1 = star k pos s caps k2.
Proof.
  intros E. induction s as [|x s IH]; intros pos caps; simpl.
  - apply E.
  - rewrite IH, E. reflexivity.
Qed.

Lemma star_accept (k : cclass) : forall s pos caps,
  star k pos s caps accept = Some caps.
Proof.
  induction s as [|x s IH]; intros pos caps; simpl; [reflexivity|].
  destruct (cmatch k x); [now rewrite IH | reflexivity].
Qed.

(** A greedy repetition followed by something that cannot fail takes the
    whole span. *)
Lemma star_total (k : cclass) (kont : cont) :
  (forall p s c, kont p s c <> None) ->
  forall s pos caps,
    star k pos s caps kont = kont (pos + span k s) (skipn (span k s) s) caps.
Proof.
  intros T. induction s as [|x s IH]; intros pos caps; simpl.
  - now rewrite Nat.add_0_r.
  - destruct (cmatch k x); simpl.
    + rewrite IH, Nat.add_succ_r. cbn [Nat.add].
      destruct (kont (S (pos + span k s)) (skipn (span k s) s) caps) eqn:E;
        [reflexivity | now apply T in E].
    + now rewrite Nat.add_0_r.
Qed.

Lemma star_none (k : cclass) (kont : cont) : forall s pos caps,
  star k pos s caps kont = None <->
  forall n, n <= span k s -> kont (pos + n) (skipn n s) caps = None.
Proof.
  induction s as [|x s IH]; intros pos caps; simpl.
  - split.
    + intros H n Hn. assert (n = 0) by lia. subst.
      now rewrite Nat.add_0_r.
    + intros H. specialize (H 0 (le_n 0)). now rewrite Nat.add_0_r in H.
  - destruct (cmatch k x).
    + destruct (star k (S pos) s caps kont) eqn:E.
      * split; [discriminate|]. intros H.
        assert (E' : star k (S pos) s caps kont = None).
        { apply IH. intros n Hn. specialize (H (S n) ltac:(lia)).
          now rewrite Nat.add_succ_r in H. }
        congruence.
      * rewrite IH in E. split.
        -- intros H [|n] Hn.
           ++ now rewrite Nat.add_0_r.
           ++ rewrite Nat.add_succ_r. apply (E n). lia.
        -- intros H. specialize (H 0 ltac:(lia)).
           now rewrite Nat.add_0_r in H.
    + split.
      * intros H n Hn. assert (n = 0) by lia. subst.
        now rewrite Nat.add_0_r.
      * intros H. specialize (H 0 (le_n 0)). now rewrite Nat.add_0_r in H.
Qed.

(** A greedy repetition gives back as little as it can: the continuation
    is taken at the largest count, within the span, at which it succeeds. *)
Lemma star_some (k : cclass) (kont : cont) : forall s pos caps r,
  star k pos s caps kont = Some r <->
  exists n, n <= span k s
            /\ kont (pos + n) (skipn n s) caps = Some r
            /\ forall m, n < m -> m <= span k s ->
                         kont (pos + m) (skipn m s) caps = None.
Proof.
  induction s as [|x s IH]; intros pos caps r; simpl.
  - split.
    + intros H. exists 0. rewrite Nat.add_0_r. repeat split; auto. lia.
    + intros (n & Hn & H & _). assert (n = 0) by lia. subst.
      now rewrite Nat.add_0_r in H.
  - destruct (cmatch k x).
    + destruct (star k (S pos) s caps kont) eqn:E.
      * apply IH in E. destruct E as (n & Hn & H & Hmax).
        cbn [Nat.add] in H, Hmax. split.
        -- intros Hr. inversion Hr; subst. exists (S n).
           rewrite Nat.add_succ_r. simpl. repeat split; [lia | exact H |].
           intros [|m] Hm1 Hm2; [lia|]. rewrite Nat.add_succ_r. simpl.
           apply Hmax; lia.
        -- intros (n' & Hn' & H' & Hmax').
           destruct (Nat.lt_trichotomy n' (S n)) as [Hlt | [-> | Hgt]].
           ++ specialize (Hmax' (S n) Hlt ltac:(lia)).
              rewrite Nat.add_succ_r in Hmax'. simpl in Hmax'. congruence.
           ++ rewrite Nat.add_succ_r in H'. simpl in H'. congruence.
           ++ destruct n' as [|n']; [lia|].
              specialize (Hmax n' ltac:(lia) ltac:(lia)).
              rewrite Nat.add_succ_r in H'. simpl in H'. congruence.
      * rewrite star_none in E. split.
        -- intros H. exists 0. rewrite Nat.add_0_r. simpl.
           repeat split; [lia | exact H |].
           intros [|m] Hm1 Hm2; [lia|]. rewrite Nat.add_succ_r.
           apply (E m). lia.
        -- intros (n & Hn & H & _). destruct n as [|n].
           ++ now rewrite Nat.add_0_r in H.
           ++ rewrite Nat.add_succ_r in H. simpl in H.
              specialize (E n ltac:(lia)). cbn [Nat.add] in E.
              congruence.
    + split.
      * intros H. exists 0. rewrite Nat.add_0_r. simpl.
        repeat split; auto. intros; lia.
      * intros (n & Hn & H & _). assert (n = 0) by lia. subst.
        now rewrite Nat.add_0_r in H.
Qed.

Lemma markers_match pos s caps kont :
  rmatch markers pos s caps kont =
  match marker_len s with
  | Some n => kont (pos + n) (skipn n s) caps
  | None => None
  end.
Proof.
  unfold markers, rstr, marker_len, short_link_at, user_path_at.
  vm_compute lit.
  split_input; try reflexivity.
  all: cbn -[Nat.add]; rewrite ?Nat.add_succ_r, ?Nat.add_0_r; try reflexivity.
  all: match goal with
       | |- context [match ?e with Some _ => _ | None => _ end] => destruct e
       end; reflexivity.
Qed.

Lemma regExp_at_0 url :
  rmatch regExp 0 url [] accept =
  star CAny 0 url []
    (fun _ s c =>
       match marker_len s with
       | Some n => Some ((2, token (skipn n s)) :: (1, firstn n s) :: c)
       | None => None
       end).
Proof.
  unfold regExp. cbn [rmatch Nat.eqb]. apply star_ext. intros p s c.
  rewrite markers_match. destruct (marker_len s) as [n|]; [|reflexivity].
  rewrite star_total by (intros; rewrite star_accept; discriminate).
  rewrite star_accept. unfold token.
  replace (p + n - p) with n by lia.
  replace (p + n + span token_class (skipn n s) - (p + n))
    with (span token_class (skipn n s)) by lia.
  reflexivity.
Qed.

Lemma exec_bol : forall s pos, pos <> 0 -> exec_from regExp pos s = None.
Proof.
  induction s as [|x s IH]; intros pos Hpos; simpl;
    destruct pos; try congruence; simpl; auto.
Qed.

Lemma string_match_regExp url :
  string_match url regExp = rmatch regExp 0 url [] accept.
Proof.
  unfold string_match. destruct url as [|x s]; cbn [exec_from].
  - destruct (rmatch regExp 0 [] [] accept); reflexivity.
  - destruct (rmatch regExp 0 (x :: s) [] accept); [reflexivity|].
    now apply exec_bol.
Qed.

Lemma getYoutubeVideoId_match url n len :
  n <= span CAny url ->
  marker_len (skipn n url) = Some len ->
  (forall m, n < m -> m <= span CAny url -> marker_len (skipn m url) = None) ->
  getYoutubeVideoId url = pick (token (skipn len (skipn n url))).
Proof.
  intros Hn Hm Hlast. unfold getYoutubeVideoId.
  rewrite string_match_regExp, regExp_at_0.
  match goal with |- context [star CAny 0 url [] ?k] =>
    assert (E : star CAny 0 url [] k
                = Some [(2, token (skipn len (skipn n url)));
                        (1, firstn len (skipn n url))])
  end.
  { apply star_some. exists n. cbn [Nat.add]. rewrite Hm.
    repeat split; auto. intros m H1 H2. now rewrite (Hlast m H1 H2). }
  rewrite E. reflexivity.
Qed.

Lemma getYoutubeVideoId_nomatch url :
  (forall m, m <= span CAny url -> marker_len (skipn m url) = None) ->
  getYoutubeVideoId url = None.
Proof.
  intros Hnone. unfold getYoutubeVideoId.
  rewrite string_match_regExp, regExp_at_0.
  match goal with |- context [star CAny 0 url [] ?k] =>
    assert (E : star CAny 0 url [] k = None)
  end.
  { apply star_none. intros m Hm. now rewrite (Hnone m Hm). }
  rewrite E. reflexivity.
Qed.

Lemma is_line_terminator_spec c :
  is_line_terminator c = true <-> line_terminator c.
Proof.
  unfold is_line_terminator, line_terminator.
  rewrite !orb_true_iff, !N.eqb_eq. tauto.
Qed.

Lemma is_line_terminator_false c :
  is_line_terminator c = false <-> ~ line_terminator c.
Proof.
  rewrite <- is_line_terminator_spec. destruct (is_line_terminator c);
    intuition congruence.
Qed.

Lemma is_word_spec c : is_word c = true <-> word_char c.
Proof.
  unfold is_word, word_char.
  rewrite !orb_true_iff, !andb_true_iff, !N.leb_le, N.eqb_eq. tauto.
Qed.

Lemma startsWith_app : forall p s,
  startsWith s p = true -> s = p ++ skipn (length p) s.
Proof.
  induction p as [|y p IH]; intros s H; [reflexivity|].
  destruct s as [|x s]; [discriminate|]. simpl in H.
  apply andb_prop in H as [H1 H2]. apply N.eqb_eq in H1. subst.
  simpl. f_equal. now apply IH.
Qed.

Lemma startsWith_prefix : forall p r, startsWith (p ++ r) p = true.
Proof.
  induction p as [|y p IH]; intros r; [reflexivity|].
  simpl. now rewrite N.eqb_refl, IH.
Qed.

Lemma marker_len_alternative mk rest :
  alternative mk -> marker_len (mk ++ rest) = Some (length mk).
Proof.
  intros [x Hx| |x Hx| | |]; unfold marker_len, short_link_at, user_path_at;
    try reflexivity.
  - apply is_line_terminator_false in Hx. cbn. now rewrite Hx.
  - apply is_word_spec in Hx. cbn -[is_word].
    now rewrite Hx.
Qed.

Lemma marker_len_inv s n :
  marker_len s = Some n ->
  exists mk rest, s = mk ++ rest /\ alternative mk /\ length mk = n.
Proof.
  unfold marker_len.
  destruct (short_link_at s) eqn:E1.
  { intros [= <-]. unfold short_link_at in E1.
    apply andb_prop in E1 as [A B]. apply startsWith_app in A.
    change (length (lit "youtu")) with 5 in A.
    destruct (skipn 5 s) as [|x r] eqn:Es; [discriminate|].
    apply andb_prop in B as [B1 B2]. apply startsWith_app in B2.
    exists (lit "youtu" ++ x :: lit "be/"), (skipn 3 r). repeat split.
    - rewrite A, B2 at 1. now rewrite <- !app_assoc.
    - constructor. apply is_line_terminator_false.
      simpl in B1. now destruct (is_line_terminator x). }
  destruct (startsWith s (lit "v/")) eqn:E2.
  { intros [= <-]. apply startsWith_app in E2. eauto using alternative. }
  destruct (user_path_at s) eqn:E3.
  { intros [= <-]. unfold user_path_at in E3.
    apply andb_prop in E3 as [A B]. apply startsWith_app in A.
    change (length (lit "u/")) with 2 in A.
    destruct (skipn 2 s) as [|x r] eqn:Es; [discriminate|].
    apply andb_prop in B as [B1 B2]. apply startsWith_app in B2.
    exists (lit "u/" ++ x :: lit "/"), (skipn 1 r). repeat split.
    - rewrite A, B2 at 1. now rewrite <- !app_assoc.
    - constructor. now apply is_word_spec. }
  destruct (startsWith s (lit "embed/")) eqn:E4.
  { intros [= <-]. apply startsWith_app in E4. eauto using alternative. }
  destruct (startsWith s (lit "watch?v=")) eqn:E5.
  { intros [= <-]. apply startsWith_app in E5. eauto using alternative. }
  destruct (startsWith s (lit "&v=")) eqn:E6; [|discriminate].
  intros [= <-]. apply startsWith_app in E6. eauto using alternative.
Qed.

Lemma span_one_line : forall pre rest,
  one_line pre -> length pre <= span CAny (pre ++ rest).
Proof.
  induction pre as [|c pre IH]; intros rest H; [apply Nat.le_0_l|].
  inversion H as [|? ? Hc Hpre]; subst. simpl.
  apply is_line_terminator_false in Hc. rewrite Hc. simpl.
  apply le_n_S. now apply IH.
Qed.

Lemma firstn_span : forall s m,
  m <= span CAny s -> one_line (firstn m s) /\ length (firstn m s) = m.
Proof.
  induction s as [|c s IH]; intros m Hm; simpl in Hm.
  - assert (m = 0) by lia. subst. split; [constructor | reflexivity].
  - destruct m as [|m]; [split; [constructor | reflexivity]|].
    destruct (is_line_terminator c) eqn:Hc; simpl in Hm; [lia|].
    destruct (IH m ltac:(lia)) as [H1 H2]. simpl. split.
    + constructor; [now apply is_line_terminator_false | exact H1].
    + now rewrite H2.
Qed.

Lemma token_class_spec c : cmatch token_class c = false <-> delimiter c.
Proof.
  unfold delimiter. cbn. rewrite negb_false_iff, !orb_true_iff, !N.eqb_eq.
  intuition congruence.
Qed.

Lemma token_app : forall tok rest, token_of tok rest -> token (tok ++ rest) = tok.
Proof.
  unfold token.
  induction tok as [|c tok IH]; intros rest [Ht Hr].
  - destruct rest as [|d rest]; [reflexivity|]. cbn [app span].
    apply token_class_spec in Hr. now rewrite Hr.
  - inversion Ht as [|? ? Hc Htok]; subst. cbn [app span].
    destruct (cmatch token_class c) eqn:E.
    + cbn [firstn]. f_equal. apply IH. now split.
    + now apply token_class_spec in E.
Qed.

(** The same facts with the marker occurrence given as a split of the
    URL. *)
Lemma last_occurrence_index url pre mk rest :
  last_occurrence url pre mk rest ->
  length pre <= span CAny url
  /\ marker_len (skipn (length pre) url) = Some (length mk)
  /\ (forall m, length pre < m -> m <= span CAny url ->
                marker_len (skipn m url) = None).
Proof.
  intros [(Hurl & Hmk & Hpre) Hlast]. subst url. repeat split.
  - now apply span_one_line.
  - rewrite skipn_prefix. now apply marker_len_alternative.
  - intros m H1 H2.
    destruct (marker_len (skipn m (pre ++ mk ++ rest))) as [n|] eqn:E; auto.
    exfalso. apply marker_len_inv in E as (mk' & rest' & Hs & Hmk' & _).
    destruct (firstn_span _ _ H2) as [Hline Hlen].
    specialize (Hlast (firstn m (pre ++ mk ++ rest)) mk' rest').
    rewrite Hlen in Hlast. apply (Nat.lt_irrefl m).
    eapply Nat.le_lt_trans; [apply Hlast | exact H1].
    repeat split; auto. rewrite <- Hs. symmetry. apply firstn_skipn.
Qed.

Lemma no_occurrence_index url :
  (forall pre mk rest, ~ occurs_at url pre mk rest) ->
  forall m, m <= span CAny url -> marker_len (skipn m url) = None.
Proof.
  intros Hno m Hm.
  destruct (marker_len (skipn m url)) as [n|] eqn:E; auto.
  exfalso. apply marker_len_inv in E as (mk' & rest' & Hs & Hmk' & _).
  destruct (firstn_span _ _ Hm) as [Hline _].
  apply (Hno (firstn m url) mk' rest'). repeat split; auto.
  rewrite <- Hs. symmetry. apply firstn_skipn.
Qed.

(** A successful match binds group 2. *)
Lemma match_binds_group2 url m :
  string_match url regExp = Some m -> exists tok, capture 2 m = Some tok.
Proof.
  rewrite string_match_regExp, regExp_at_0. intros H.
  apply star_some in H as (n & _ & H & _).
  destruct (marker_len (skipn n url)); [|discriminate].
  inversion H. eexists. reflexivity.
Qed.

Lemma marker_alternative mk : marker mk -> alternative mk.
Proof.
  intros [ | |x Hx| | | ]; try (constructor; assumption).
  change (lit "youtu.be/") with (lit "youtu" ++ 46%N :: lit "be/").
  constructor. unfold line_terminator. intuition discriminate.
Qed.

Lemma getYoutubeVideoId_last url pre mk tok rest :
  last_occurrence url pre mk (tok ++ rest) -> token_of tok rest ->
  getYoutubeVideoId url = pick tok.
Proof.
  intros Hlast Htok.
  pose proof Hlast as [(Hurl & _ & _) _].
  destruct (last_occurrence_index _ _ _ _ Hlast) as (H1 & H2 & H3).
  rewrite (getYoutubeVideoId_match _ _ _ H1 H2 H3).
  rewrite Hurl at 1. rewrite skipn_prefix, skipn_prefix.
  now rewrite token_app.
Qed.

(** Occurrences checked by evaluation. *)
Lemma one_line_check pre :
  forallb (fun c => negb (is_line_terminator c)) pre = true -> one_line pre.
Proof.
  unfold one_line. rewrite forallb_forall, Forall_forall.
  intros H c Hc. apply is_line_terminator_false.
  specialize (H c Hc). now destruct (is_line_terminator c).
Qed.

Lemma occurrence_offset url pre mk rest :
  occurs_at url pre mk rest ->
  length pre <= length url
  /\ marker_len (skipn (length pre) url) = Some (length mk).
Proof.
  intros (-> & Hmk & _). split.
  - rewrite length_app. lia.
  - rewrite skipn_prefix. now apply marker_len_alternative.
Qed.

Lemma no_marker_from_spec url from m :
  no_marker_from url from = true -> from <= m -> m <= length url ->
  marker_len (skipn m url) = None.
Proof.
  unfold no_marker_from. rewrite forallb_forall. intros H H1 H2.
  specialize (H m). rewrite in_seq in H.
  destruct (marker_len (skipn m url)); [|reflexivity].
  assert (false = true) by (apply H; lia). discriminate.
Qed.

Lemma last_occurrence_check url pre mk rest :
  url = pre ++ mk ++ rest -> alternative mk ->
  forallb (fun c => negb (is_line_terminator c)) pre = true ->
  no_marker_from url (S (length pre)) = true ->
  last_occurrence url pre mk rest.
Proof.
  intros Hurl Hmk Hpre Hlast. split.
  - repeat split; auto. now apply one_line_check.
  - intros pre' mk' rest' Hocc.
    destruct (occurrence_offset _ _ _ _ Hocc) as [Hlen Hat].
    destruct (Nat.le_gt_cases (length pre') (length pre)) as [|Hgt]; auto.
    rewrite (no_marker_from_spec url _ _ Hlast Hgt Hlen) in Hat.
    discriminate.
Qed.

Lemma no_occurrence_check url :
  no_marker_from url 0 = true ->
  forall pre mk rest, ~ occurs_at url pre mk rest.
Proof.
  intros Hnone pre mk rest Hocc.
  destruct (occurrence_offset _ _ _ _ Hocc) as [Hlen Hat].
  rewrite (no_marker_from_spec url _ _ Hnone (Nat.le_0_l _) Hlen) in Hat.
  discriminate.
Qed.

Lemma token_of_check tok rest :
  forallb (cmatch token_class) tok = true ->
  match rest with [] => true | d :: _ => negb (cmatch token_class d) end = true ->
  token_of tok rest.
Proof.
  intros Ht Hr. split.
  - rewrite forallb_forall in Ht. apply Forall_forall. intros c Hc Hd.
    apply token_class_spec in Hd. rewrite (Ht c Hc) in Hd. discriminate.
  - destruct rest as [|d rest]; [exact I|].
    apply token_class_spec. now destruct (cmatch token_class d).
Qed.

(** Claim C2, as amended. [getYoutubeVideoId] goes by the last place, in
    the first line of the URL, where text accepted by group 1 of the
    pattern occurs. When that text is one of the markers and the run of
    characters other than [#], [&] and [?] that follows it is exactly 11
    code units long, that run is returned; when the run has another
    length the result is [null]. When no such text occurs the result is
    [null]. On [null] the handler only raises the alert
    "Invalid YouTube URL". *)
Theorem extraction_follows_the_last_marker (url : jsstring) :
  (forall pre mk tok rest,
      marker mk ->
      last_occurrence url pre mk (tok ++ rest) -> token_of tok rest ->
      (length tok = 11 -> getYoutubeVideoId url = Some tok)
      /\ (length tok <> 11 -> getYoutubeVideoId url = None))
  /\ ((forall pre mk rest, ~ occurs_at url pre mk rest) ->
      getYoutubeVideoId url = None)
  /\ (forall net w,
      youtubeUrl w = url -> getYoutubeVideoId url = None ->
      handleYoutubeFetch net w = emit (Alert (lit "Invalid YouTube URL")) w).
Proof.
  split; [|split].
  - intros pre mk tok rest _ Hlast Htok.
    rewrite (getYoutubeVideoId_last _ _ _ _ _ Hlast Htok). unfold pick.
    split; intros Hlen.
    + now rewrite Hlen.
    + now rewrite (proj2 (Nat.eqb_neq _ _) Hlen).
  - intros Hno. apply getYoutubeVideoId_nomatch.
    now apply no_occurrence_index.
  - intros net w Hw Hnone. unfold handleYoutubeFetch, handleYoutubeFetchWith.
    now rewrite Hw, Hnone.
Qed.

(** A short link with its identifier, a watch URL with a token of five
    characters, and a URL with no marker. *)
Lemma extraction_witness :
  (marker (lit "youtu.be/")
   /\ last_occurrence short_link (lit "https://") (lit "youtu.be/")
                      (lit "dQw4w9WgXcQ" ++ lit "?t=42")
   /\ token_of (lit "dQw4w9WgXcQ") (lit "?t=42")
   /\ length (lit "dQw4w9WgXcQ") = 11
   /\ getYoutubeVideoId short_link = Some (lit "dQw4w9WgXcQ"))
  /\ (marker (lit "watch?v=")
      /\ last_occurrence short_token (lit "https://www.youtube.com/")
                         (lit "watch?v=") (lit "short" ++ [])
      /\ token_of (lit "short") []
      /\ length (lit "short") <> 11
      /\ getYoutubeVideoId short_token = None)
  /\ ((forall pre mk rest, ~ occurs_at no_video pre mk rest)
      /\ getYoutubeVideoId no_video = None)
  /\ handleYoutubeFetch (fun _ _ => Rejects) (set_youtubeUrl no_video initial)
     = emit (Alert (lit "Invalid YouTube URL")) (set_youtubeUrl no_video initial).
Proof.
  assert (M1 : marker (lit "youtu.be/")) by constructor.
  assert (M2 : marker (lit "watch?v=")) by constructor.
  assert (H1 : last_occurrence short_link (lit "https://") (lit "youtu.be/")
                               (lit "dQw4w9WgXcQ" ++ lit "?t=42")).
  { apply last_occurrence_check;
      [reflexivity | exact (marker_alternative _ M1)
       | reflexivity | reflexivity]. }
  assert (T1 : token_of (lit "dQw4w9WgXcQ") (lit "?t=42")).
  { apply token_of_check; reflexivity. }
  assert (L1 : length (lit "dQw4w9WgXcQ") = 11) by reflexivity.
  assert (H2 : last_occurrence short_token (lit "https://www.youtube.com/")
                               (lit "watch?v=") (lit "short" ++ [])).
  { apply last_occurrence_check;
      [reflexivity | exact (marker_alternative _ M2)
       | reflexivity | reflexivity]. }
  assert (T2 : token_of (lit "short") []).
  { apply token_of_check; reflexivity. }
  assert (L2 : length (lit "short") <> 11) by discriminate.
  assert (H3 : forall pre mk rest, ~ occurs_at no_video pre mk rest).
  { apply no_occurrence_check. reflexivity. }
  pose proof (extraction_follows_the_last_marker short_link) as (R1 & _ & _).
  pose proof (extraction_follows_the_last_marker short_token) as (R2 & _ & _).
  pose proof (extraction_follows_the_last_marker no_video) as (_ & N3 & A3).
  refine (conj (conj M1 (conj H1 (conj T1 (conj L1 _))))
            (conj (conj M2 (conj H2 (conj T2 (conj L2 _))))
               (conj (conj H3 (N3 H3)) _))).
  - exact (proj1 (R1 _ _ _ _ M1 H1 T1) L1).
  - exact (proj2 (R2 _ _ _ _ M2 H2 T2) L2).
  - apply A3; [reflexivity | exact (N3 H3)].
Defined.

(** Claim C2 as stated promises the token of every URL that shows a
    marker followed by 11 characters. In [two_markers] the short-link
    marker is followed by the 11 characters [dQw4w9WgXcQ], but the pattern
    settles on the later [&v=], whose token is [2], and the result is
    [null]. *)
Lemma extraction_counterexample : ~ claimed_extraction two_markers.
Proof.
  intros H.
  assert (T : token_of (lit "dQw4w9WgXcQ") (lit "?t=1&v=2"))
    by (apply token_of_check; reflexivity).
  specialize (H (lit "https://") (lit "youtu.be/") (lit "dQw4w9WgXcQ")
                (lit "?t=1&v=2") eq_refl marker_short_link T eq_refl).
  vm_compute in H. discriminate.
Qed.

End IdentifierFacts.

Import IdentifierFacts.

(* ------------------------------------------------------------------ *)
(** ** Remote retrieval *)

Module RetrievalFacts.

Section Loop.

Variable net : network.
Variable videoId : jsstring.

Lemma issued_iter_ge : forall insts iter calls err i via url,
  In (Fetch i via url) (issued (tryInstances net videoId insts iter calls err)) ->
  iter <= i.
Proof.
  induction insts as [|inst rest IH]; intros iter calls err i via url; simpl.
  - tauto.
  - by_cases_on_network; simpl;
      repeat (intros [H|H]; [inversion H; subst; lia | revert H]);
      try tauto; intros H; apply IH in H; lia.
Qed.

Lemma issued_fetches : forall insts iter calls err,
  forallb is_fetch (issued (tryInstances net videoId insts iter calls err)) = true.
Proof.
  induction insts as [|inst rest IH]; intros iter calls err; simpl.
  - reflexivity.
  - by_cases_on_network; simpl; auto.
Qed.

Lemma relays_of_later iter evs :
  (forall i via url, In (Fetch i via url) evs -> iter < i) ->
  relays_of iter evs = [].
Proof.
  induction evs as [|e evs IH]; intros H; [reflexivity|].
  simpl. destruct e as [|i via url| | |]; try (apply IH; intros; eapply H; right; eauto).
  destruct via; [apply IH; intros; eapply H; right; eauto|].
  assert (iter < i) by (eapply H; left; reflexivity).
  rewrite (proj2 (Nat.eqb_neq i iter)) by lia.
  apply IH; intros; eapply H; right; eauto.
Qed.

Lemma relays_of_rest rest iter calls err :
  relays_of iter (issued (tryInstances net videoId rest (S iter) calls err)) = [].
Proof.
  apply relays_of_later. intros i via url H. apply issued_iter_ge in H. lia.
Qed.

End Loop.

Lemma payloads_app t1 t2 : payloads (t1 ++ t2) = payloads t1 ++ payloads t2.
Proof.
  induction t1 as [|e t1 IH]; [reflexivity|].
  destruct e; simpl; now rewrite ?IH.
Qed.

Lemma payloads_fetches evs : forallb is_fetch evs = true -> payloads evs = [].
Proof.
  induction evs as [|e evs IH]; [reflexivity|].
  destruct e; simpl; try discriminate. exact IH.
Qed.

Lemma getYoutubeVideoId_length url v :
  getYoutubeVideoId url = Some v -> length v = 11.
Proof.
  unfold getYoutubeVideoId.
  destruct (string_match url regExp) as [m|]; [|discriminate].
  destruct (capture 2 m) as [tok|]; [|discriminate].
  destruct (Nat.eqb (length tok) 11) eqn:E; [|discriminate].
  intros [= <-]. now apply Nat.eqb_eq.
Qed.

Lemma startsWith_iff s p : startsWith s p = true <-> exists r, s = p ++ r.
Proof.
  split.
  - intros H. exists (skipn (length p) s). now apply startsWith_app.
  - intros [r ->]. apply startsWith_prefix.
Qed.

Lemma size_of_repeat (n : N) (type : jsstring) :
  blob_size {| blob_bytes := repeat 0%N (N.to_nat n); blob_type := type |} = n.
Proof.
  unfold blob_size. cbn [blob_bytes]. now rewrite repeat_length, N2Nat.id.
Qed.

Lemma directs_after evs s :
  directs (issued (after evs s)) = directs evs ++ directs (issued s).
Proof.
  unfold after. cbn [issued].
  induction evs as [|e evs IH]; [reflexivity|].
  destruct e as [| i [|] u | | |]; cbn [List.app directs]; now rewrite ?IH.
Qed.

Lemma visited_prefix (net : network) (videoId : jsstring) :
  forall (insts : list jsstring) (iter calls : nat) (err : option js_error),
  let s := tryInstances net videoId insts iter calls err in
  exists k,
    k <= length insts
    /\ directs (issued s)
       = map (fun instance => targetUrl instance videoId) (firstn k insts)
    /\ k <= length (issued s) <= 2 * k
    /\ (found s = None -> k = length insts)
    /\ (found s <> None -> 1 <= k).
Proof.
  induction insts as [|instance rest IH]; intros iter calls err s.
  - exists 0. subst s. cbn. repeat split; auto; congruence.
  - subst s. cbn [tryInstances].
    destruct (net calls (targetUrl instance videoId)) as [|[|] [b|]];
      try destruct (encodeURIComponent (targetUrl instance videoId)) as [enc|];
      try destruct (net (S calls) (proxyUrl enc)) as [|[|] [b'|]];
      lazymatch goal with
      | |- context [after _ (tryInstances net videoId rest ?i ?c ?e)] =>
          destruct (IH i c e) as (k & H1 & H2 & H3 & H4 & H5);
          exists (S k); rewrite directs_after, H2;
          unfold after; cbn [issued found length firstn map List.app directs];
          rewrite ?length_app; cbn [length];
          repeat split; auto; try lia;
          intros Hf; specialize (H4 Hf); lia
      | |- _ =>
          exists 1; cbn [issued found length firstn map directs];
          repeat split; auto; try lia; try discriminate
      end.
Qed.




(** Claim C8, corrected. In the iteration for an endpoint a relayed fetch
    is issued if and only if the direct attempt throws (the fetch is
    rejected, or the body of its success response cannot be read) and the
    target URL can be percent-encoded. A response with a non-success
    status makes the loop advance with no relayed fetch. A direct attempt
    that throws is followed by exactly one relayed fetch, of
    [https://corsproxy.io/?] and the percent-encoded target URL, before
    the loop moves on or, when the relay delivers, ends; when encoding
    the target URL raises a [URIError] there is no relayed fetch and the
    loop moves on with that error. *)
Theorem relay_when_direct_throws_and_url_encodes
        (net : network) (videoId instance : jsstring) (rest : list jsstring)
        (iter calls : nat) (err : option js_error) :
  let target := instance ++ lit "/latest_version?id=" ++ videoId
                         ++ lit "&itag=140&local=true" in
  let relay := fun encoded => lit "https://corsproxy.io/?" ++ encoded in
  let s := tryInstances net videoId (instance :: rest) iter calls err in
  let next := tryInstances net videoId rest (S iter) in
  let direct_throws :=
    net calls target = Rejects \/ net calls target = Responds true None in
  (relays_of iter (issued s) <> []
   <-> direct_throws /\ encodeURIComponent target <> None)
  /\ (forall x,
        net calls target = Responds false x ->
        relays_of iter (issued s) = []
        /\ s = after [Fetch iter Direct target] (next (S calls) err))
  /\ (direct_throws ->
      match encodeURIComponent target with
      | Some enc =>
          relays_of iter (issued s) = [relay enc]
          /\ (delivers (net (S calls) (relay enc)) = None ->
              exists err',
                s = after [Fetch iter Direct target;
                           Fetch iter Relayed (relay enc)]
                      (next (S (S calls)) err'))
          /\ (forall body,
                net (S calls) (relay enc) = Responds true (Some body) ->
                s = {| found := Some body; error := err;
                       issued := [Fetch iter Direct target;
                                  Fetch iter Relayed (relay enc)] |})
      | None =>
          relays_of iter (issued s) = []
          /\ s = after [Fetch iter Direct target]
                   (next (S calls) (Some URIError))
      end).
Proof.
  intros target relay s next direct_throws.
  subst target relay s next direct_throws. cbv beta.
  cbn [tryInstances]. unfold targetUrl, proxyUrl.
  set (target := instance ++ lit "/latest_version?id=" ++ videoId
                          ++ lit "&itag=140&local=true").
  destruct (net calls target) as [|[|] [b|]];
    destruct (encodeURIComponent target) as [enc|];
    try destruct (net (S calls) (lit "https://corsproxy.io/?" ++ enc))
      as [|[|] [b'|]];
    cbn [issued after List.app relays_of delivers] in *;
    rewrite ?Nat.eqb_refl, ?relays_of_rest in *;
    repeat split; intros; repeat split; intros;
    repeat match goal with
           | H : _ /\ _ |- _ => destruct H
           | H : _ \/ _ |- _ => destruct H
           end;
    try discriminate; try congruence; try reflexivity;
    try (eexists; reflexivity);
    try (left; reflexivity); try (right; reflexivity).
Qed.

(** At [flaky] the first endpoint is relayed once and the second,
    answered with a non-success status, is not; on a network that
    rejects every request, no relay is built for an identifier that ends
    in an unpaired surrogate. *)
Lemma relay_witness :
  (flaky 0 (targetUrl endpointA video) = Rejects
   /\ encodeURIComponent (targetUrl endpointA video) = Some encodedA
   /\ relays_of 0 (issued (tryInstances flaky video
                             [endpointA; endpointB; endpointC] 0 0 None))
      = [lit "https://corsproxy.io/?" ++ encodedA])
  /\ (flaky 1 (targetUrl endpointB video) = Responds false None
      /\ relays_of 1 (issued (tryInstances flaky video
                                [endpointB; endpointC] 1 1 None)) = [])
  /\ (offline 0 (targetUrl endpointA surrogate_id) = Rejects
      /\ encodeURIComponent (targetUrl endpointA surrogate_id) = None
      /\ relays_of 0 (issued (tryInstances offline surrogate_id
                                [endpointA; endpointB] 0 0 None)) = []).
Proof.
  assert (H1 : flaky 0 (targetUrl endpointA video) = Rejects) by reflexivity.
  assert (H2 : encodeURIComponent (targetUrl endpointA video) = Some encodedA)
    by (vm_compute; reflexivity).
  assert (H4 : flaky 1 (targetUrl endpointB video) = Responds false None)
    by reflexivity.
  assert (H5 : offline 0 (targetUrl endpointA surrogate_id) = Rejects)
    by reflexivity.
  assert (H6 : encodeURIComponent (targetUrl endpointA surrogate_id) = None)
    by (vm_compute; reflexivity).
  pose proof (relay_when_direct_throws_and_url_encodes flaky video endpointA
                [endpointB; endpointC] 0 0 None) as (_ & _ & R).
  pose proof (relay_when_direct_throws_and_url_encodes flaky video endpointB
                [endpointC] 1 1 None) as (_ & S & _).
  pose proof (relay_when_direct_throws_and_url_encodes offline surrogate_id
                endpointA [endpointB] 0 0 None) as (_ & _ & T).
  specialize (R (or_introl H1)). specialize (T (or_introl H5)).
  unfold targetUrl in H2, H6. rewrite H2 in R. rewrite H6 in T.
  exact (conj (conj H1 (conj H2 (proj1 R)))
              (conj (conj H4 (proj1 (S None H4)))
                    (conj H5 (conj H6 (proj1 T))))).
Defined.

(** A link whose identifier ends in an unpaired surrogate is accepted by
    the extraction; on a network that rejects every request the direct
    fetch throws and no relayed fetch follows. *)
Lemma relay_counterexample :
  getYoutubeVideoId surrogate_link = Some surrogate_id
  /\ ~ claimed_relay_rule offline surrogate_id.
Proof.
  split; [vm_compute; reflexivity|].
  intros H. destruct (H endpointA [] 0 0 None) as [_ H'].
  apply H'; [reflexivity|]. vm_compute. reflexivity.
Qed.

(** Claim C3. A retrieved blob of exactly 20 MiB is read and, once the
    read completes, handed over as a payload; for a blob of 20 MiB + 1
    bytes or more the handler raises the too-large alert, reads nothing
    (no encoding is attempted), leaves no read pending and so produces no
    payload. *)
Theorem size_ceiling (net : network) (w : world) (videoId : jsstring)
        (blob : Blob) :
  getYoutubeVideoId (youtubeUrl w) = Some videoId ->
  found (tryInstances net videoId instances 0 0 None) = Some blob ->
  let fetches := issued (tryInstances net videoId instances 0 0 None) in
  (blob_size blob = size_limit ->
   forall now,
     trace (run w [YoutubeFetch net])
     = trace w ++ fetches ++ [ReadAsDataURL blob]
     /\ payloads (trace (run w [YoutubeFetch net;
                                LoadEnd (length (readers w)) true now]))
        = payloads (trace w) ++ [youtube_payload videoId blob])
  /\ ((size_limit + 1 <= blob_size blob)%N ->
      let w' := run w [YoutubeFetch net] in
      trace w' = trace w ++ fetches ++ [Alert too_large]
      /\ readers w' = readers w
      /\ isFetchingYT w' = false
      /\ payloads (trace w') = payloads (trace w)).
Proof.
  intros Hid Hfound fetches. subst fetches.
  pose proof (getYoutubeVideoId_length _ _ Hid) as Hlen.
  wsimpl.
  unfold handleYoutubeFetch, handleYoutubeFetchWith. rewrite Hid.
  destruct videoId as [|c videoId]; [discriminate|].
  rewrite Hfound. split.
  - intros Hsize now. rewrite Hsize.
    change (N.ltb 0 size_limit) with true.
    change (N.ltb size_limit size_limit) with false. cbn iota.
    split.
    + wsimpl. now rewrite <- app_assoc.
    + unfold loadend. wsimpl.
      rewrite nth_error_snoc. wsimpl.
      rewrite !payloads_app.
      rewrite (payloads_fetches _ (issued_fetches _ _ _ _ _ _)).
      cbn [payloads app]. now rewrite !app_nil_r.
  - intros Hsize.
    assert (E1 : N.ltb 0 (blob_size blob) = true).
    { apply N.ltb_lt. unfold size_limit in Hsize. lia. }
    assert (E2 : N.ltb size_limit (blob_size blob) = true).
    { apply N.ltb_lt. lia. }
    rewrite E1, E2. cbv zeta. wsimpl. rewrite <- app_assoc.
    repeat split; auto.
    rewrite !payloads_app.
    rewrite (payloads_fetches _ (issued_fetches _ _ _ _ _ _)).
    cbn [payloads app]. now rewrite app_nil_r.
Qed.

(** Blobs of 20 MiB and of 20 MiB + 1 byte. *)
Lemma size_ceiling_witness :
  (getYoutubeVideoId (youtubeUrl watching) = Some video
   /\ found (tryInstances (always exactly_20MiB) video instances 0 0 None)
      = Some exactly_20MiB
   /\ blob_size exactly_20MiB = size_limit
   /\ payloads (trace (run watching
                         [YoutubeFetch (always exactly_20MiB);
                          LoadEnd (length (readers watching)) true clock]))
      = payloads (trace watching) ++ [youtube_payload video exactly_20MiB])
  /\ (found (tryInstances (always over_20MiB) video instances 0 0 None)
      = Some over_20MiB
      /\ (size_limit + 1 <= blob_size over_20MiB)%N
      /\ trace (run watching [YoutubeFetch (always over_20MiB)])
         = trace watching
           ++ issued (tryInstances (always over_20MiB) video instances 0 0 None)
           ++ [Alert too_large]
      /\ readers (run watching [YoutubeFetch (always over_20MiB)])
         = readers watching).
Proof.
  assert (Hid : getYoutubeVideoId (youtubeUrl watching) = Some video)
    by (vm_compute; reflexivity).
  assert (F1 : found (tryInstances (always exactly_20MiB) video instances 0 0 None)
               = Some exactly_20MiB) by reflexivity.
  assert (F2 : found (tryInstances (always over_20MiB) video instances 0 0 None)
               = Some over_20MiB) by reflexivity.
  assert (S1 : blob_size exactly_20MiB = size_limit)
    by apply size_of_repeat.
  assert (S2 : (size_limit + 1 <= blob_size over_20MiB)%N).
  { unfold over_20MiB. rewrite size_of_repeat. apply N.le_refl. }
  pose proof (size_ceiling (always exactly_20MiB) watching video
                exactly_20MiB Hid F1) as [R1 _].
  pose proof (size_ceiling (always over_20MiB) watching video
                over_20MiB Hid F2) as [_ R2].
  destruct (R1 S1 clock) as [_ P1].
  destruct (R2 S2) as (T2 & Q2 & _ & _).
  refine (conj (conj Hid (conj F1 (conj S1 P1)))
               (conj F2 (conj S2 (conj T2 Q2)))).
Defined.

End RetrievalFacts.

Import RetrievalFacts.

(* ------------------------------------------------------------------ *)
(** ** File upload *)

Module UploadFacts.

Lemma not_audio_check (f : File) :
  startsWith (file_type f) (lit "audio/") = false ->
  forall sub, file_type f <> lit "audio/" ++ sub.
Proof.
  intros H sub E. rewrite E, startsWith_prefix in H. discriminate.
Qed.

(** Claim C7. A selected file whose declared type does not start with
    [audio/] is rejected with an alert, nothing is read and no payload is
    produced; a file whose declared type is an audio type yields, once
    its read completes, a payload whose [mimeType] is the file's type and
    whose [name] is the file's name. *)
Theorem upload_requires_audio_type (w : world) (f : File) :
  ((forall sub, file_type f <> lit "audio/" ++ sub) ->
   let w' := run w [FileSelected (Some f)] in
   trace w' = trace w ++ [Alert invalid_file]
   /\ readers w' = readers w
   /\ payloads (trace w') = payloads (trace w))
  /\ (forall sub now,
        file_type f = lit "audio/" ++ sub ->
        payloads (trace (run w [FileSelected (Some f);
                                LoadEnd (length (readers w)) true now]))
        = payloads (trace w) ++ [upload_payload f]).
Proof.
  split.
  - intros Hno. cbv zeta. wsimpl. unfold handleFileUpload.
    destruct (startsWith (file_type f) (lit "audio/")) eqn:E.
    + apply startsWith_iff in E as [r Hr]. now apply Hno in Hr.
    + cbn [negb]. wsimpl. repeat split; auto.
      rewrite payloads_app. cbn [payloads]. now rewrite app_nil_r.
  - intros sub now Htype. wsimpl. unfold handleFileUpload.
    rewrite (proj2 (startsWith_iff _ _)) by eauto. cbn [negb].
    unfold loadend. wsimpl.
    rewrite nth_error_snoc. wsimpl.
    rewrite !payloads_app. cbn [payloads app]. now rewrite !app_nil_r.
Qed.

(** A text file and an MP3 file. *)
Lemma upload_witness :
  ((forall sub, file_type notes <> lit "audio/" ++ sub)
   /\ trace (run initial [FileSelected (Some notes)])
      = trace initial ++ [Alert invalid_file]
   /\ readers (run initial [FileSelected (Some notes)]) = readers initial)
  /\ (file_type song = lit "audio/" ++ lit "mpeg"
      /\ payloads (trace (run initial
                            [FileSelected (Some song);
                             LoadEnd (length (readers initial)) true clock]))
         = payloads (trace initial) ++ [upload_payload song]).
Proof.
  assert (H1 : forall sub, file_type notes <> lit "audio/" ++ sub)
    by (apply not_audio_check; reflexivity).
  assert (H2 : file_type song = lit "audio/" ++ lit "mpeg") by reflexivity.
  pose proof (upload_requires_audio_type initial notes) as [R1 _].
  pose proof (upload_requires_audio_type initial song) as [_ R2].
  destruct (R1 H1) as (T1 & Q1 & _).
  exact (conj (conj H1 (conj T1 Q1)) (conj H2 (R2 _ clock H2))).
Defined.

End UploadFacts.

(* ------------------------------------------------------------------ *)
(** ** Live capture *)

Module CaptureFacts.

Lemma run_app w a b : run w (a ++ b) = run (run w a) b.
Proof. apply fold_left_app. Qed.

Lemma run_cons w a l : run w (a :: l) = run (step w a) l.
Proof. reflexivity. Qed.

Lemma run_one w a : run w [a] = step w a.
Proof. reflexivity. Qed.

Lemma run_split w a l x rest :
  run w (a :: l ++ x :: rest) = run (run w (a :: l ++ [x])) rest.
Proof.
  rewrite <- run_app. f_equal. cbn [app]. now rewrite <- app_assoc.
Qed.

Lemma startRecording_granted w n :
  startRecording (Some n) w =
  {| isRecording := true; recordingTime := 0; youtubeUrl := youtubeUrl w;
     isFetchingYT := isFetchingYT w;
     mediaRecorderRef := Some (length (recorders w));
     timerRef := Some (S (timersCreated w)); chunksRef := [];
     recorders := recorders w ++ [{| rec_state := RRecording; rec_tracks := n |}];
     intervals := intervals w ++ [S (timersCreated w)];
     timersCreated := S (timersCreated w);
     readers := readers w; trace := trace w |}.
Proof.
  unfold startRecording, new_MediaRecorder, recorder_start, recorder_state,
    setInterval, set_recorder_state.
  wsimpl. rewrite nth_error_snoc. wsimpl. rewrite update_nth_snoc.
  reflexivity.
Qed.

Lemma set_chunksRef_same w : set_chunksRef (chunksRef w) w = w.
Proof. now destruct w. Qed.

Lemma run_data rid : forall chunks w,
  recorder_state rid w = RRecording ->
  run w (map (DataAvailable rid) chunks)
  = set_chunksRef (chunksRef w ++ filter nonempty chunks) w.
Proof.
  induction chunks as [|b chunks IH]; intros w Hrec.
  - cbn [map run fold_left filter]. now rewrite app_nil_r, set_chunksRef_same.
  - cbn [map run fold_left step filter]. rewrite Hrec.
    fold (run (ondataavailable b w) (map (DataAvailable rid) chunks)).
    unfold ondataavailable. fold (nonempty b).
    destruct (nonempty b).
    + rewrite IH by exact Hrec. wsimpl. now rewrite <- app_assoc.
    + now apply IH.
Qed.

Lemma trace_stop_tracks stream : forall n from w,
  stop_tracks stream from n w
  = set_trace (trace w ++ map (TrackStop stream) (seq from n)) w.
Proof.
  induction n as [|n IH]; intros from w.
  - cbn [stop_tracks seq map]. rewrite app_nil_r. now destruct w.
  - cbn [stop_tracks seq map]. rewrite IH. wsimpl.
    now rewrite <- app_assoc.
Qed.

Lemma recorder_state_set rid st st' w :
  recorder_state rid w = st' -> st' <> RInactive ->
  recorder_state rid (set_recorder_state rid st w) = st.
Proof.
  unfold recorder_state, set_recorder_state. wsimpl.
  destruct (nth_error (recorders w) rid) as [r|] eqn:E.
  - intros _ _. now rewrite (update_nth_nth _ _ _ _ E).
  - intros <- H. congruence.
Qed.

Lemma recorder_tracks_set rid st w :
  recorder_tracks rid (set_recorder_state rid st w) = recorder_tracks rid w.
Proof.
  unfold recorder_tracks, set_recorder_state. wsimpl.
  destruct (nth_error (recorders w) rid) as [r|] eqn:E.
  - now rewrite (update_nth_nth _ _ _ _ E).
  - assert (E' : nth_error (update_nth rid
       (fun r => {| rec_state := st; rec_tracks := rec_tracks r |})
       (recorders w)) rid = None).
    { revert E. generalize (recorders w) rid.
      induction l as [|y l IH]; intros [|k] H; simpl in *; auto; discriminate. }
    now rewrite E'.
Qed.

(** *** The data URL and its second segment *)

Lemma split_no_sep sep : forall s, ~ In sep s -> split sep s = [s].
Proof.
  induction s as [|x s IH]; intros H; [reflexivity|].
  cbn [split]. destruct (N.eqb_spec x sep) as [->|Hne].
  - exfalso. apply H. now left.
  - rewrite IH; [reflexivity|]. intros Hin. apply H. now right.
Qed.

Lemma split_at_sep sep : forall a b,
  ~ In sep a -> split sep (a ++ sep :: b) = a :: split sep b.
Proof.
  induction a as [|x a IH]; intros b H.
  - cbn [app split]. now rewrite N.eqb_refl.
  - cbn [app split]. destruct (N.eqb_spec x sep) as [->|Hne].
    + exfalso. apply H. now left.
    + rewrite IH; [reflexivity|]. intros Hin. apply H. now right.
Qed.

Lemma b64_digit_not_comma i : b64_digit i <> 44%N.
Proof.
  unfold b64_digit.
  destruct (nth_in_or_default (N.to_nat (N.land i 63)) b64_alphabet 61%N)
    as [Hin | ->]; [|discriminate].
  revert Hin. generalize (nth (N.to_nat (N.land i 63)) b64_alphabet 61%N).
  intros c Hin Hc. subst c. revert Hin. vm_compute.
  intuition discriminate.
Qed.

Lemma base64_no_comma : forall n bs,
  length bs <= n -> ~ In 44%N (base64_encode bs).
Proof.
  induction n as [|n IH]; intros bs Hlen.
  - destruct bs; [intros [] | simpl in Hlen; lia].
  - destruct bs as [|a [|b [|c rest]]]; cbn [base64_encode]; simpl In.
    + tauto.
    + intros [H|[H|[H|[H|[]]]]]; try discriminate;
        now apply b64_digit_not_comma in H.
    + intros [H|[H|[H|[H|[]]]]]; try discriminate;
        now apply b64_digit_not_comma in H.
    + intros [H|[H|[H|[H|H]]]]; try (now apply b64_digit_not_comma in H).
      revert H. apply IH. simpl in Hlen. lia.
Qed.

Lemma base64String_dataURL (b : Blob) :
  ~ In 44%N (blob_type b) ->
  base64String (dataURL b) = Some (base64_encode (blob_bytes b)).
Proof.
  intros Htype. unfold base64String, dataURL.
  change (lit ";base64,") with (lit ";base64" ++ [44%N]).
  rewrite <- !app_assoc. cbn [app].
  rewrite !app_assoc. rewrite split_at_sep.
  - rewrite split_no_sep by (apply (base64_no_comma _ _ (le_n _))).
    reflexivity.
  - rewrite !in_app_iff. intros [[H | H] | H]; auto;
      revert H; vm_compute; intuition discriminate.
Qed.

Lemma webm_no_comma : ~ In 44%N webm.
Proof. vm_compute. intuition discriminate. Qed.

(** *** Stopping a recorder *)

Lemma clear_timer_frame w :
  clear_timer w = set_intervals (intervals (clear_timer w)) w.
Proof.
  unfold clear_timer, clearInterval.
  destruct (timerRef w) as [[|t]|]; wsimpl; now destruct w.
Qed.

Lemma stopRecording_recording w rid :
  recording w rid ->
  stopRecording w
  = clear_timer (set_isRecording false (set_recorder_state rid RStopping w)).
Proof.
  intros (Hrec & Href & Hstate). unfold stopRecording, recorder_stop.
  now rewrite Href, Hrec, Hstate.
Qed.

Lemma recorder_stopped_event w rid final :
  recorder_state rid w = RStopping ->
  step w (RecorderStopped rid final)
  = set_recorder_state rid RInactive
      (set_trace (trace w ++ [ReadAsDataURL (recorded w final)]
                          ++ map (TrackStop rid) (seq 0 (recorder_tracks rid w)))
         (set_readers
            (readers w ++ [{| rd_blob := recorded w final;
                              rd_kont := KRecording; rd_done := false |}])
            (set_chunksRef (chunksRef w ++ filter nonempty [final]) w))).
Proof.
  intros Hstate. cbn [step]. rewrite Hstate.
  unfold onstop, ondataavailable, recorded. rewrite trace_stop_tracks.
  cbn [filter]. fold (nonempty final). destruct (nonempty final); wsimpl.
  - now rewrite <- app_assoc.
  - now rewrite app_nil_r, <- app_assoc, set_chunksRef_same.
Qed.

Lemma track_stops_app s k t1 t2 :
  track_stops s k (t1 ++ t2) = track_stops s k t1 + track_stops s k t2.
Proof.
  induction t1 as [|e t1 IH]; [reflexivity|].
  destruct e; cbn [app track_stops]; rewrite ?IH; lia.
Qed.

Lemma track_stops_all s k : forall n from,
  track_stops s k (map (TrackStop s) (seq from n))
  = if (from <=? k) && (k <? from + n) then 1 else 0.
Proof.
  induction n as [|n IH]; intros from; cbn [seq map track_stops].
  - destruct (from <=? k) eqn:E1, (k <? from + 0) eqn:E2; try reflexivity.
    apply Nat.leb_le in E1. apply Nat.ltb_lt in E2. lia.
  - rewrite IH, Nat.eqb_refl. cbn [andb].
    destruct (Nat.eqb_spec from k) as [->|Hne].
    + rewrite Nat.leb_refl.
      replace (S k <=? k) with false by (symmetry; apply Nat.leb_gt; lia).
      replace (k <? k + S n) with true by (symmetry; apply Nat.ltb_lt; lia).
      reflexivity.
    + destruct (from <=? k) eqn:E1, (S from <=? k) eqn:E2,
               (k <? S from + n) eqn:E3, (k <? from + S n) eqn:E4;
        try reflexivity;
        rewrite ?Nat.leb_le, ?Nat.leb_gt, ?Nat.ltb_lt, ?Nat.ltb_ge in *; lia.
Qed.

Lemma payloads_track_stops s l : payloads (map (TrackStop s) l) = [].
Proof. induction l; simpl; auto. Qed.

Lemma empty_blob_bytes b : nonempty b = false -> blob_bytes b = [].
Proof.
  unfold nonempty, blob_size. intros H. apply N.ltb_ge in H.
  destruct (blob_bytes b); [reflexivity | simpl in H; lia].
Qed.

Lemma concat_nonempty : forall l,
  concat (map blob_bytes (filter nonempty l)) = concat (map blob_bytes l).
Proof.
  induction l as [|b l IH]; [reflexivity|]. cbn [filter map concat].
  destruct (nonempty b) eqn:E; cbn [map concat]; rewrite IH; [reflexivity|].
  now rewrite (empty_blob_bytes _ E).
Qed.

(** From the delivery of the recorder's final events to the payload. *)
Lemma stop_event_then_read v rid final now :
  recorder_state rid v = RStopping ->
  trace (run v [RecorderStopped rid final;
                LoadEnd (length (readers v)) true now])
  = trace v ++ [ReadAsDataURL (recorded v final)]
            ++ map (TrackStop rid) (seq 0 (recorder_tracks rid v))
            ++ [OnAudioReady
                  (recording_payload (blob_bytes (recorded v final)) now)].
Proof.
  intros Hstate. cbn [run fold_left].
  rewrite (recorder_stopped_event v rid final Hstate).
  cbn [step]. unfold loadend, set_recorder_state. wsimpl.
  rewrite nth_error_snoc. wsimpl.
  rewrite base64String_dataURL by apply webm_no_comma.
  rewrite <- !app_assoc. reflexivity.
Qed.

Lemma recording_after_start w n :
  recording (startRecording (Some n) w) (length (recorders w)).
Proof.
  rewrite startRecording_granted. unfold recording, recorder_state. wsimpl.
  rewrite nth_error_snoc. auto.
Qed.

(** A whole cycle up to [stopRecording]: the state in which the
    recorder's final events are awaited. *)
Lemma cycle_stopping w n chunks :
  let rid := length (recorders w) in
  let v := run w (StartRecording (Some n)
                  :: map (DataAvailable rid) chunks ++ [StopRecording]) in
  recorder_state rid v = RStopping /\ recorder_tracks rid v = n
  /\ readers v = readers w /\ trace v = trace w
  /\ chunksRef v = filter nonempty chunks.
Proof.
  intros rid v. subst v.
  rewrite run_cons, run_app. cbn [step].
  pose proof (recording_after_start w n) as Hw1. fold rid in Hw1.
  assert (Hn1 : recorder_tracks rid (startRecording (Some n) w) = n).
  { rewrite startRecording_granted. unfold recorder_tracks. wsimpl.
    subst rid. now rewrite nth_error_snoc. }
  set (w1 := startRecording (Some n) w) in *.
  rewrite (run_data rid chunks w1) by apply Hw1.
  set (w2 := set_chunksRef _ w1).
  assert (Hw2 : recording w2 rid) by apply Hw1.
  rewrite run_cons. cbn [step run fold_left].
  rewrite (stopRecording_recording _ _ Hw2), clear_timer_frame.
  split; [|split].
  - apply (recorder_state_set rid RStopping RRecording w2); [apply Hw2|].
    discriminate.
  - change (recorder_tracks rid (set_recorder_state rid RStopping w2) = n).
    now rewrite recorder_tracks_set.
  - subst w2 w1. now rewrite startRecording_granted.
Qed.

Lemma cleanup_recording w rid :
  recording w rid ->
  cleanup w = set_recorder_state rid RStopping (clear_timer w).
Proof.
  intros (Hrec & Href & Hstate). unfold cleanup.
  rewrite clear_timer_frame. wsimpl. rewrite Href.
  change (recorder_state rid (set_intervals (intervals (clear_timer w)) w))
    with (recorder_state rid w).
  rewrite Hstate. unfold recorder_stop.
  change (recorder_state rid (set_intervals (intervals (clear_timer w)) w))
    with (recorder_state rid w).
  now rewrite Hstate.
Qed.

(** Claim C6. [stopRecording] does nothing when the component is not
    recording, and a second call right after a first one changes nothing.
    After two calls in a row on a recording session, the delivery of the
    recorder's stop event stops every track of the stream exactly once,
    and neither a further call nor a further delivery does anything. *)
Theorem stop_is_idempotent (w : world) :
  (isRecording w = false \/ mediaRecorderRef w = None ->
   run w [StopRecording] = w)
  /\ run w [StopRecording; StopRecording] = run w [StopRecording]
  /\ (forall rid final track,
        recording w rid -> track < recorder_tracks rid w ->
        let w2 := run w [StopRecording; StopRecording] in
        let w3 := run w2 [RecorderStopped rid final] in
        track_stops rid track (trace w2) = track_stops rid track (trace w)
        /\ track_stops rid track (trace w3)
           = S (track_stops rid track (trace w))
        /\ (forall data, run w3 [StopRecording] = w3
                         /\ run w3 [RecorderStopped rid data] = w3)).
Proof.
  assert (Hidle : forall v, isRecording v = false \/ mediaRecorderRef v = None ->
                            stopRecording v = v).
  { intros v [H | H]; unfold stopRecording; rewrite H;
      [now destruct (mediaRecorderRef v) | reflexivity]. }
  assert (Htwice : stopRecording (stopRecording w) = stopRecording w).
  { destruct (mediaRecorderRef w) as [rid|] eqn:Href;
      [destruct (isRecording w) eqn:Hrec|].
    - apply Hidle. left. unfold stopRecording. rewrite Href, Hrec.
      now rewrite clear_timer_frame.
    - rewrite (Hidle w) by auto. apply Hidle. auto.
    - rewrite (Hidle w) by auto. apply Hidle. auto. }
  split; [exact (Hidle w)|]. split; [exact Htwice|].
  intros rid final track Hw Htrack w2 w3. subst w3 w2.
  cbn [run fold_left step]. rewrite Htwice.
  pose proof Hw as (Hrec & Href & Hstate).
  rewrite (stopRecording_recording _ _ Hw).
  set (w1 := clear_timer _).
  assert (Hs1 : recorder_state rid w1 = RStopping).
  { subst w1. rewrite clear_timer_frame.
    apply (recorder_state_set rid RStopping RRecording w Hstate).
    discriminate. }
  assert (Ht1 : trace w1 = trace w).
  { subst w1. now rewrite clear_timer_frame. }
  assert (Hn1 : recorder_tracks rid w1 = recorder_tracks rid w).
  { subst w1. rewrite clear_timer_frame.
    apply (recorder_tracks_set rid RStopping w). }
  assert (Hi1 : isRecording w1 = false).
  { subst w1. now rewrite clear_timer_frame. }
  split; [now rewrite Ht1|].
  pose proof (recorder_stopped_event w1 rid final Hs1) as E.
  cbn [step] in E. rewrite E. clear E.
  split.
  - unfold set_recorder_state. wsimpl.
    rewrite Ht1, Hn1, !track_stops_app, track_stops_all.
    cbn [track_stops Nat.leb Nat.add].
    replace (track <? recorder_tracks rid w) with true
      by (symmetry; now apply Nat.ltb_lt).
    cbn [andb]. lia.
  - intros data. split.
    + unfold stopRecording, set_recorder_state. wsimpl. rewrite Hi1.
      now destruct (mediaRecorderRef w1).
    + match goal with |- context [recorder_state rid ?v] =>
        assert (Hs3 : recorder_state rid v = RInactive)
      end.
      { apply (recorder_state_set rid RInactive RStopping); [|discriminate].
        exact Hs1. }
      now rewrite Hs3.
Qed.

(** Two stops in the middle of a recording, and a stop before any. *)
Lemma stop_witness :
  (isRecording initial = false /\ run initial [StopRecording] = initial)
  /\ recording mid_recording 0
  /\ 0 < recorder_tracks 0 mid_recording
  /\ track_stops 0 0 (trace (run mid_recording [StopRecording; StopRecording]))
     = track_stops 0 0 (trace mid_recording)
  /\ track_stops 0 0
       (trace (run (run mid_recording [StopRecording; StopRecording])
                   [RecorderStopped 0 silence]))
     = S (track_stops 0 0 (trace mid_recording)).
Proof.
  assert (H0 : isRecording initial = false) by reflexivity.
  assert (H1 : recording mid_recording 0)
    by (repeat split; reflexivity).
  assert (H2 : 0 < recorder_tracks 0 mid_recording)
    by (vm_compute; apply le_n).
  pose proof (stop_is_idempotent initial) as (I & _ & _).
  pose proof (stop_is_idempotent mid_recording) as (_ & _ & R).
  destruct (R 0 silence 0 H1 H2) as (R1 & R2 & _).
  exact (conj (conj H0 (I (or_introl H0))) (conj H1 (conj H2 (conj R1 R2)))).
Defined.

(** Claim C5. A capture cycle, from [startRecording] through the chunks
    delivered while recording, [stopRecording], the recorder's final
    events and the completed read, hands over exactly one payload; its
    data is the concatenation of all chunks in arrival order, so its
    length is the sum of their sizes. *)
Theorem chunks_concatenated_in_order
        (w : world) (n : nat) (chunks : list Blob) (final : Blob)
        (now : jsstring) :
  let rid := length (recorders w) in
  let data := concat (map blob_bytes (chunks ++ [final])) in
  payloads
    (trace (run w (StartRecording (Some n)
                   :: map (DataAvailable rid) chunks
                   ++ [StopRecording; RecorderStopped rid final;
                       LoadEnd (length (readers w)) true now])))
  = payloads (trace w) ++ [recording_payload data now]
  /\ length data = list_sum (map (fun b => length (blob_bytes b))
                                 (chunks ++ [final])).
Proof.
  intros rid data. split.
  - destruct (cycle_stopping w n chunks) as (Hs & Hn & Hr & Ht & Hc).
    fold rid in Hs, Hn, Hr, Ht, Hc.
    rewrite run_split.
    rewrite <- Hr, (stop_event_then_read _ rid final now Hs), Ht.
    rewrite !payloads_app, payloads_track_stops. cbn [payloads app].
    unfold recorded, new_Blob. cbn [blob_bytes].
    rewrite Hc, <- filter_app, concat_nonempty. reflexivity.
  - subst data. induction (chunks ++ [final]) as [|b l IH]; [reflexivity|].
    cbn [map concat list_sum]. now rewrite length_app, IH.
Qed.

(** Chunks of 100, 200 and 50 bytes, then a stop whose final event
    carries no data: 350 bytes, in order. *)
Lemma three_chunks_witness :
  payloads
    (trace (run initial
              (StartRecording (Some 1)
               :: map (DataAvailable (length (recorders initial))) three_chunks
               ++ [StopRecording;
                   RecorderStopped (length (recorders initial)) silence;
                   LoadEnd (length (readers initial)) true clock])))
  = payloads (trace initial)
    ++ [recording_payload
          (concat (map blob_bytes (three_chunks ++ [silence]))) clock]
  /\ concat (map blob_bytes (three_chunks ++ [silence]))
     = repeat 1%N 100 ++ repeat 2%N 200 ++ repeat 3%N 50
  /\ length (concat (map blob_bytes (three_chunks ++ [silence]))) = 350.
Proof.
  pose proof (chunks_concatenated_in_order initial 1 three_chunks silence
                clock) as [R1 R2].
  refine (conj R1 (conj _ _)).
  - vm_compute. reflexivity.
  - rewrite R2. vm_compute. reflexivity.
Defined.

(** Claim C10. Whatever the chunk buffer held before, [startRecording]
    empties it; only chunks of non-zero size are then kept; and the blob
    that a following stop builds, reads and hands over consists of exactly
    the non-empty chunks delivered since that start, in order. *)
Theorem start_resets_chunks
        (w : world) (n : nat) (chunks : list Blob) (final : Blob) :
  let rid := length (recorders w) in
  let kept := filter nonempty (chunks ++ [final]) in
  chunksRef (run w [StartRecording (Some n)]) = []
  /\ chunksRef (run w (StartRecording (Some n)
                       :: map (DataAvailable rid) chunks))
     = filter nonempty chunks
  /\ trace (run w (StartRecording (Some n)
                   :: map (DataAvailable rid) chunks
                   ++ [StopRecording; RecorderStopped rid final]))
     = trace w ++ [ReadAsDataURL (new_Blob kept webm)]
               ++ map (TrackStop rid) (seq 0 n)
  /\ (forall now,
        payloads
          (trace (run w (StartRecording (Some n)
                         :: map (DataAvailable rid) chunks
                         ++ [StopRecording; RecorderStopped rid final;
                             LoadEnd (length (readers w)) true now])))
        = payloads (trace w)
          ++ [recording_payload (concat (map blob_bytes kept)) now]).
Proof.
  intros rid kept. subst kept.
  destruct (cycle_stopping w n chunks) as (Hs & Hn & Hr & Ht & Hc).
  fold rid in Hs, Hn, Hr, Ht, Hc.
  pose proof (recording_after_start w n) as Hw1. fold rid in Hw1.
  split; [|split; [|split]].
  - rewrite run_one. cbn [step].
    now rewrite startRecording_granted.
  - rewrite run_cons. cbn [step].
    rewrite (run_data rid chunks _) by apply Hw1.
    now rewrite startRecording_granted.
  - rewrite run_split, run_one.
    rewrite (recorder_stopped_event _ rid final Hs).
    unfold set_recorder_state. wsimpl.
    rewrite Ht, Hn. unfold recorded. now rewrite Hc, <- filter_app.
  - intros now. rewrite run_split.
    rewrite <- Hr, (stop_event_then_read _ rid final now Hs), Ht.
    rewrite !payloads_app, payloads_track_stops. cbn [payloads app].
    unfold recorded, new_Blob. cbn [blob_bytes].
    now rewrite Hc, <- filter_app.
Qed.

(** A second cycle does not see the chunk that the first one left in the
    buffer, nor the empty chunks delivered to it. *)
Lemma second_cycle_witness :
  chunksRef second_cycle = [spoken]
  /\ chunksRef (run second_cycle [StartRecording (Some 1)]) = []
  /\ trace (run second_cycle
              (StartRecording (Some 1)
               :: map (DataAvailable (length (recorders second_cycle)))
                      [silence; chunk 3 7]
               ++ [StopRecording;
                   RecorderStopped (length (recorders second_cycle)) silence]))
     = trace second_cycle
       ++ [ReadAsDataURL
             (new_Blob (filter nonempty ([silence; chunk 3 7] ++ [silence]))
                       webm)]
       ++ map (TrackStop (length (recorders second_cycle))) (seq 0 1)
  /\ filter nonempty ([silence; chunk 3 7] ++ [silence]) = [chunk 3 7].
Proof.
  pose proof (start_resets_chunks second_cycle 1 [silence; chunk 3 7] silence)
    as (R1 & _ & R3 & _).
  refine (conj _ (conj R1 (conj R3 _))); reflexivity.
Defined.

(** Claim C4, as amended. When the component is torn down while
    recording, the interval behind the elapsed-time counter is cancelled
    and the recorder is stopped. When the recorder then delivers its final
    events, every track of the stream is stopped and the recording is
    read; when that read completes the payload callback receives the
    recording, as it does after [stopRecording]. *)
Theorem teardown_stops_and_delivers
        (w : world) (rid t : nat) (final : Blob) (now : jsstring) :
  recording w rid -> timerRef w = Some (S t) ->
  let w1 := run w [Unmount] in
  (~ In (S t) (intervals w1) /\ run w1 [Tick (S t)] = w1)
  /\ (recorder_state rid w1 = RStopping /\ trace w1 = trace w)
  /\ trace (run w1 [RecorderStopped rid final;
                    LoadEnd (length (readers w)) true now])
     = trace w ++ [ReadAsDataURL (recorded w final)]
               ++ map (TrackStop rid) (seq 0 (recorder_tracks rid w))
               ++ [OnAudioReady
                     (recording_payload (blob_bytes (recorded w final)) now)].
Proof.
  intros Hw Htimer w1. subst w1. rewrite run_one. cbn [step].
  rewrite (cleanup_recording _ _ Hw).
  assert (Hct : clear_timer w
                = set_intervals
                    (filter (fun j => negb (Nat.eqb j (S t))) (intervals w)) w).
  { unfold clear_timer. now rewrite Htimer. }
  rewrite Hct.
  set (w1 := set_recorder_state rid RStopping _).
  assert (Hs : recorder_state rid w1 = RStopping).
  { apply (recorder_state_set rid RStopping RRecording); [apply Hw|].
    discriminate. }
  assert (Hno : ~ In (S t) (intervals w1)).
  { subst w1. unfold set_recorder_state. wsimpl. rewrite filter_In.
    intros [_ H]. now rewrite Nat.eqb_refl in H. }
  split; [split; [exact Hno|]|split; [split; [exact Hs | reflexivity]|]].
  - rewrite run_one. cbn [step].
    destruct (existsb (Nat.eqb (S t)) (intervals w1)) eqn:E; [|reflexivity].
    apply existsb_exists in E as (j & Hj & Hjt). apply Nat.eqb_eq in Hjt.
    subst j. contradiction.
  - change (length (readers w)) with (length (readers w1)).
    rewrite (stop_event_then_read w1 rid final now Hs).
    subst w1. rewrite recorder_tracks_set. reflexivity.
Qed.

(** Teardown in the middle of a recording. *)
Lemma teardown_witness :
  recording mid_recording 0
  /\ timerRef mid_recording = Some 1
  /\ ~ In 1 (intervals (run mid_recording [Unmount]))
  /\ trace (run (run mid_recording [Unmount])
                [RecorderStopped 0 silence;
                 LoadEnd (length (readers mid_recording)) true clock])
     = trace mid_recording
       ++ [ReadAsDataURL (recorded mid_recording silence)]
       ++ map (TrackStop 0) (seq 0 (recorder_tracks 0 mid_recording))
       ++ [OnAudioReady
             (recording_payload (blob_bytes (recorded mid_recording silence))
                                clock)].
Proof.
  assert (H1 : recording mid_recording 0)
    by (repeat split; reflexivity).
  assert (H2 : timerRef mid_recording = Some 1) by reflexivity.
  pose proof (teardown_stops_and_delivers mid_recording 0 0 silence clock
                H1 H2) as ((R1 & _) & _ & R3).
  exact (conj H1 (conj H2 (conj R1 R3))).
Defined.

(** Claim C4 as stated says that no payload is produced on the teardown
    path. In [mid_recording] the recorder has delivered one chunk when the
    component is unmounted: the stop event and the completed read follow,
    and the payload callback is invoked with that recording. *)
Lemma teardown_counterexample : ~ teardown_silent mid_recording 0.
Proof.
  intros H.
  assert (R : recording mid_recording 0) by (repeat split; reflexivity).
  specialize (H R silence 0 true clock).
  vm_compute in H. discriminate.
Qed.

End CaptureFacts.

(* ------------------------------------------------------------------ *)
(** ** The transcription trigger *)

Module AppFacts.

Import App.

(** Claim C9. When [handleTranscribe] is invoked with no payload, or with
    a payload whose [base64] is missing or empty or whose [mimeType] is
    empty, it returns without a request to the service and leaves the
    state as it is; every request that does reach the service carries the
    payload's non-empty [base64] and its non-empty [mimeType]. *)
Theorem transcribe_needs_encoded_audio (gen : service) (st : state) :
  ((audioData st = None
    \/ exists a, audioData st = Some a
                 /\ (base64 a = None \/ base64 a = Some [] \/ mimeType a = []))
   -> handleTranscribe gen st = (st, []))
  /\ (forall r, In r (snd (handleTranscribe gen st)) ->
        exists a, audioData st = Some a
                  /\ base64 a = Some (req_data r) /\ req_data r <> []
                  /\ req_mimeType r = mimeType a /\ mimeType a <> []).
Proof.
  unfold handleTranscribe, not_ready. split.
  - intros [-> | (a & -> & [H | [H | H]])]; [reflexivity | | |].
    + now rewrite H.
    + now rewrite H.
    + rewrite H. cbn [truthy negb]. now rewrite orb_true_r.
  - intros r. destruct (audioData st) as [a|]; [|intros []].
    destruct (base64 a) as [b|] eqn:Eb; [|intros []].
    destruct b as [|c b]; [intros []|].
    destruct (mimeType a) as [|c' m] eqn:Em; [intros []|].
    cbn [truthy negb orb].
    destruct (transcribeAudio gen (c :: b) (c' :: m)) as [t|[|msg]];
      cbn [snd];
      (intros [<- | []]; exists a; cbn [req_data req_mimeType];
       repeat split; auto; try discriminate; now rewrite Em).
Qed.

(** No payload, a payload without base64 text, and a payload that is
    sent. *)
Lemma transcribe_witness :
  (audioData idle = None /\ handleTranscribe echo idle = (idle, []))
  /\ ((exists a, audioData unread = Some a
                 /\ (base64 a = None \/ base64 a = Some [] \/ mimeType a = []))
      /\ handleTranscribe echo unread = (unread, []))
  /\ (In {| req_data := base64_encode (blob_bytes spoken);
            req_mimeType := webm |} (snd (handleTranscribe echo ready))
      /\ exists a, audioData ready = Some a
                   /\ base64 a = Some (base64_encode (blob_bytes spoken))
                   /\ base64_encode (blob_bytes spoken) <> []
                   /\ webm = mimeType a /\ mimeType a <> []).
Proof.
  assert (H1 : audioData idle = None) by reflexivity.
  assert (H2 : exists a, audioData unread = Some a
                 /\ (base64 a = None \/ base64 a = Some [] \/ mimeType a = [])).
  { eexists. split; [reflexivity|]. left. reflexivity. }
  assert (H3 : In {| req_data := base64_encode (blob_bytes spoken);
                     req_mimeType := webm |}
                  (snd (handleTranscribe echo ready)))
    by (left; reflexivity).
  pose proof (transcribe_needs_encoded_audio echo idle) as [R1 _].
  pose proof (transcribe_needs_encoded_audio echo unread) as [R2 _].
  pose proof (transcribe_needs_encoded_audio echo ready) as [_ R3].
  exact (conj (conj H1 (R1 (or_introl H1)))
              (conj (conj H2 (R2 (or_intror H2))) (conj H3 (R3 _ H3)))).
Defined.

End AppFacts.

(* ================================================================== *)
(** * Further properties of the code *)
(* ================================================================== *)

Import UploadFacts CaptureFacts.

(* ------------------------------------------------------------------ *)
(** ** The elapsed-time display *)

Module DisplayFacts.

Lemma number_uint : forall d acc,
  number_acc (uint_units d) acc = Nat.of_uint_acc d acc.
Proof.
  induction d; intros acc; cbn [uint_units number_acc Nat.of_uint_acc];
    rewrite ?IHd, ?Nat.tail_mul_spec; try reflexivity;
    f_equal; cbn; lia.
Qed.

Lemma number_toString n : number (toString n) = n.
Proof.
  unfold number, toString. rewrite number_uint.
  apply DecimalNat.Unsigned.of_to.
Qed.

Lemma uint_units_digits : forall d, forallb is_digit (uint_units d) = true.
Proof. induction d; cbn; auto. Qed.

Lemma toString_digits n : forallb is_digit (toString n) = true.
Proof. apply uint_units_digits. Qed.

Lemma toString_nonempty n : toString n <> [].
Proof.
  unfold toString. intros H.
  assert (E : Nat.of_uint (Nat.to_uint n) = n)
    by apply DecimalNat.Unsigned.of_to.
  destruct (Nat.to_uint n) eqn:D; try discriminate.
  cbn in E. subst n. cbn in D. discriminate.
Qed.

Lemma digits_no_colon s : forallb is_digit s = true -> ~ In 58%N s.
Proof.
  rewrite forallb_forall. intros H Hin. specialize (H _ Hin). discriminate.
Qed.

(** The seconds field: two digits that denote the number. *)
Lemma two_digits k :
  k < 60 ->
  let ss := padStart 2 48%N (toString k) in
  length ss = 2 /\ forallb is_digit ss = true /\ number ss = k.
Proof.
  intros Hk.
  do 60 (destruct k as [|k]; [vm_compute; auto|]). lia.
Qed.

(** Property X1.
    The display determines the counter: the text that [formatTime] gives
    is the minutes in decimal, a colon and the seconds in exactly two
    digits below 60, and reading it back gives the number of seconds that
    was formatted. *)
Theorem formatTime_reads_back (seconds : nat) :
  readTime (formatTime seconds) = Some seconds.
Proof.
  unfold readTime, formatTime. cbv zeta.
  pose proof (Nat.mod_upper_bound seconds 60 ltac:(discriminate)) as Hlt.
  destruct (two_digits _ Hlt) as (Hlen & Hdig & Hnum).
  set (ss := padStart 2 48%N (toString (seconds mod 60))) in *.
  change ([58%N] ++ ss) with (58%N :: ss).
  rewrite CaptureFacts.split_at_sep
    by (apply digits_no_colon, toString_digits).
  rewrite CaptureFacts.split_no_sep by (now apply digits_no_colon).
  rewrite toString_digits, Hdig, Hlen, Hnum, number_toString.
  cbn [andb Nat.eqb].
  destruct (toString (seconds / 60)) eqn:E;
    [now apply toString_nonempty in E|].
  cbn [length Nat.eqb negb andb].
  apply Nat.ltb_lt in Hlt. rewrite Hlt. f_equal.
  symmetry. apply Nat.div_mod_eq.
Qed.

End DisplayFacts.

Import DisplayFacts.

(* ------------------------------------------------------------------ *)
(** ** Sessions of the input component *)

Module SessionFacts.

(** ** The elapsed-time counter *)

Lemma ticks_count id : forall k w,
  existsb (Nat.eqb id) (intervals w) = true ->
  run w (repeat (Tick id) k) = set_recordingTime (recordingTime w + k) w.
Proof.
  induction k as [|k IH]; intros w Hin.
  - cbn [repeat run fold_left]. rewrite Nat.add_0_r. now destruct w.
  - cbn [repeat]. rewrite run_cons. cbn [step]. rewrite Hin.
    rewrite IH by exact Hin. wsimpl. now rewrite Nat.add_succ_r.
Qed.

Lemma ticks_idle id : forall k w,
  existsb (Nat.eqb id) (intervals w) = false ->
  run w (repeat (Tick id) k) = w.
Proof.
  induction k as [|k IH]; intros w Hin; [reflexivity|].
  cbn [repeat]. rewrite run_cons. cbn [step]. rewrite Hin. now apply IH.
Qed.

Lemma existsb_snoc id l : existsb (Nat.eqb id) (l ++ [id]) = true.
Proof.
  rewrite existsb_app. cbn. now rewrite Nat.eqb_refl, orb_true_r.
Qed.

Lemma existsb_removed id l :
  existsb (Nat.eqb id) (filter (fun j => negb (Nat.eqb j id)) l) = false.
Proof.
  induction l as [|x l IH]; [reflexivity|]. cbn [filter].
  destruct (Nat.eqb_spec x id) as [->|Hne]; cbn [negb]; [exact IH|].
  cbn [existsb]. rewrite IH, orb_false_r. apply Nat.eqb_neq. congruence.
Qed.

(** Property X2.
    The elapsed-time counter of a recording: a start sets it to zero,
    each tick of the interval that the start created adds one, and once
    the recording is stopped the ticks of that interval are gone, so the
    counter keeps the value it had. *)
Theorem counter_counts_ticks (w : world) (n k j : nat) :
  let id := S (timersCreated w) in
  recordingTime (run w (StartRecording (Some n) :: repeat (Tick id) k)) = k
  /\ recordingTime
       (run w (StartRecording (Some n) :: repeat (Tick id) k
               ++ StopRecording :: repeat (Tick id) j)) = k.
Proof.
  intros id.
  assert (E : run (startRecording (Some n) w) (repeat (Tick id) k)
              = set_recordingTime k (startRecording (Some n) w)).
  { rewrite (ticks_count id k).
    - now rewrite startRecording_granted.
    - rewrite startRecording_granted. wsimpl. apply existsb_snoc. }
  split.
  - rewrite run_cons. cbn [step]. rewrite E. reflexivity.
  - rewrite run_cons, run_app. cbn [step]. rewrite E.
    rewrite run_cons. cbn [step]. subst id.
    rewrite startRecording_granted. unfold stopRecording. wsimpl.
    unfold recorder_stop, recorder_state. wsimpl.
    rewrite nth_error_snoc. wsimpl.
    unfold set_recorder_state, clear_timer, clearInterval. wsimpl.
    rewrite ticks_idle; [reflexivity|].
    wsimpl. apply existsb_removed.
Qed.

(** ** Payloads and reads over a whole session *)

Lemma reads_app t1 t2 : reads (t1 ++ t2) = reads t1 + reads t2.
Proof.
  induction t1 as [|e t1 IH]; [reflexivity|].
  destruct e; simpl; now rewrite ?IH.
Qed.

Lemma reads_fetches evs : forallb is_fetch evs = true -> reads evs = 0.
Proof.
  induction evs as [|e evs IH]; [reflexivity|].
  destruct e; cbn; try discriminate. exact IH.
Qed.

Lemma reads_track_stops s l : reads (map (TrackStop s) l) = 0.
Proof. induction l; cbn; auto. Qed.

Lemma trace_stopRecording w : trace (stopRecording w) = trace w.
Proof.
  unfold stopRecording, recorder_stop.
  destruct (mediaRecorderRef w) as [rid|]; [|reflexivity].
  destruct (isRecording w); [|reflexivity].
  rewrite clear_timer_frame.
  destruct (recorder_state rid w); reflexivity.
Qed.

Lemma readers_stopRecording w : readers (stopRecording w) = readers w.
Proof.
  unfold stopRecording, recorder_stop.
  destruct (mediaRecorderRef w) as [rid|]; [|reflexivity].
  destruct (isRecording w); [|reflexivity].
  rewrite clear_timer_frame.
  destruct (recorder_state rid w); reflexivity.
Qed.

Lemma trace_cleanup w : trace (cleanup w) = trace w.
Proof.
  unfold cleanup, recorder_stop. rewrite clear_timer_frame. wsimpl.
  destruct (mediaRecorderRef w) as [rid|]; [|reflexivity].
  destruct (recorder_state rid _); reflexivity.
Qed.

Lemma readers_cleanup w : readers (cleanup w) = readers w.
Proof.
  unfold cleanup, recorder_stop. rewrite clear_timer_frame. wsimpl.
  destruct (mediaRecorderRef w) as [rid|]; [|reflexivity].
  destruct (recorder_state rid _); reflexivity.
Qed.

Lemma stream_ended_event w rid final :
  recorder_state rid w = RRecording ->
  step w (StreamEnded rid final)
  = set_recorder_state rid RInactive
      (set_trace (trace w ++ [ReadAsDataURL (recorded w final)]
                          ++ map (TrackStop rid) (seq 0 (recorder_tracks rid w)))
         (set_readers
            (readers w ++ [{| rd_blob := recorded w final;
                              rd_kont := KRecording; rd_done := false |}])
            (set_chunksRef (chunksRef w ++ filter nonempty [final]) w))).
Proof.
  intros Hstate. cbn [step]. rewrite Hstate.
  unfold onstop, ondataavailable, recorded. rewrite trace_stop_tracks.
  cbn [filter]. fold (nonempty final). destruct (nonempty final); wsimpl.
  - now rewrite <- app_assoc.
  - now rewrite app_nil_r, <- app_assoc, set_chunksRef_same.
Qed.

(** What one event does to the payloads handed over and to the readers. *)
Lemma step_effect (w : world) (a : action) :
  payloads (trace (step w a)) = payloads (trace w) ++ delivered w a
  /\ reader_change w (step w a) (delivered w a).
Proof.
  destruct a as [sel|gum|rid data| | |rid data|id|k ok now|s|net|rid data];
    cbn [step delivered].
  - (* a file is selected *)
    unfold handleFileUpload. destruct sel as [f|].
    + destruct (startsWith (file_type f) (lit "audio/")) eqn:E; cbn [negb].
      * split.
        -- wsimpl. rewrite payloads_app. reflexivity.
        -- apply reader_added with (b := blob_of_file f) (k := KUpload f).
           ++ reflexivity.
           ++ wsimpl. rewrite reads_app. cbn. lia.
           ++ exact E.
           ++ reflexivity.
      * split.
        -- wsimpl. rewrite payloads_app. reflexivity.
        -- apply readers_kept; wsimpl; [reflexivity| |reflexivity].
           rewrite reads_app. cbn. lia.
    + rewrite app_nil_r. split; [reflexivity | now apply readers_kept].
  - (* a recording starts, or the microphone is refused *)
    destruct gum as [n|].
    + rewrite startRecording_granted, app_nil_r. wsimpl.
      split; [reflexivity | now apply readers_kept].
    + cbn [startRecording]. wsimpl. rewrite payloads_app. split;
        [reflexivity|].
      apply readers_kept; wsimpl; [reflexivity| |reflexivity].
      rewrite reads_app. cbn. lia.
  - (* data from a recorder *)
    rewrite app_nil_r. unfold ondataavailable.
    destruct (recorder_state rid w);
      try (split; [reflexivity | now apply readers_kept]).
    destruct (N.ltb 0 (blob_size data));
      (split; [reflexivity | now apply readers_kept]).
  - rewrite app_nil_r, trace_stopRecording. split; [reflexivity|].
    apply readers_kept;
      [apply readers_stopRecording | now rewrite trace_stopRecording
      | reflexivity].
  - rewrite app_nil_r, trace_cleanup. split; [reflexivity|].
    apply readers_kept;
      [apply readers_cleanup | now rewrite trace_cleanup | reflexivity].
  - (* the final events of a recorder *)
    destruct (recorder_state rid w) eqn:Es;
      try (rewrite app_nil_r; split; [reflexivity | now apply readers_kept]).
    pose proof (recorder_stopped_event w rid data Es) as E.
    cbn [step] in E. rewrite Es in E. rewrite E. clear E.
    unfold set_recorder_state. wsimpl. split.
    + rewrite !payloads_app, payloads_track_stops. reflexivity.
    + apply reader_added with (b := recorded w data) (k := KRecording).
      * reflexivity.
      * wsimpl. rewrite !reads_app, reads_track_stops. cbn. lia.
      * exact I.
      * reflexivity.
  - (* a tick *)
    rewrite app_nil_r.
    destruct (existsb (Nat.eqb id) (intervals w));
      (split; [reflexivity | now apply readers_kept]).
  - (* the end of a read *)
    unfold loadend.
    destruct (nth_error (readers w) k) as [r|] eqn:Er.
    + destruct (rd_done r) eqn:Ed.
      * destruct ok; rewrite app_nil_r;
          (split; [reflexivity | now apply readers_kept]).
      * destruct ok; cbn [reader_result onloadend].
        -- split.
           ++ unfold payload_of.
              destruct (rd_kont r); wsimpl; rewrite payloads_app; reflexivity.
           ++ apply reader_ended with (i := k) (r := r); auto.
              ** destruct (rd_kont r); reflexivity.
              ** destruct (rd_kont r); wsimpl; rewrite reads_app; cbn; lia.
              ** right. now exists now.
        -- rewrite app_nil_r. split; [reflexivity|].
           apply reader_ended with (i := k) (r := r); auto.
    + destruct ok; rewrite ?app_nil_r;
        (split; [reflexivity | now apply readers_kept]).
  - rewrite app_nil_r. split; [reflexivity | now apply readers_kept].
  - (* a retrieval *)
    rewrite app_nil_r.
    unfold handleYoutubeFetch, handleYoutubeFetchWith.
    destruct (getYoutubeVideoId (youtubeUrl w)) as [[|c vid]|].
    + wsimpl. rewrite payloads_app. split; [now rewrite app_nil_r|].
      apply readers_kept; wsimpl; [reflexivity| |reflexivity].
      rewrite reads_app. cbn. lia.
    + set (s := tryInstances net (c :: vid) instances 0 0 None).
      assert (Hp : payloads (issued s) = [])
        by apply payloads_fetches, issued_fetches.
      assert (Hr : reads (issued s) = 0)
        by apply reads_fetches, issued_fetches.
      destruct (found s) as [blob|];
        [destruct (N.ltb 0 (blob_size blob));
         [destruct (N.ltb size_limit (blob_size blob))|]|];
        wsimpl; rewrite !payloads_app, Hp; cbn [payloads app];
        rewrite ?app_nil_r; (split; [reflexivity|]);
        try (apply readers_kept; wsimpl; [reflexivity| |reflexivity];
             rewrite !reads_app, Hr; cbn; lia).
      apply reader_added with (b := blob) (k := KYoutube (c :: vid));
        [reflexivity | | exact I | reflexivity].
      wsimpl. rewrite !reads_app, Hr. cbn. lia.
    + wsimpl. rewrite payloads_app. split; [now rewrite app_nil_r|].
      apply readers_kept; wsimpl; [reflexivity| |reflexivity].
      rewrite reads_app. cbn. lia.
  - (* a recorder stops by itself *)
    destruct (recorder_state rid w) eqn:Es;
      try (rewrite app_nil_r; split; [reflexivity | now apply readers_kept]).
    pose proof (stream_ended_event w rid data Es) as E.
    cbn [step] in E. rewrite Es in E. rewrite E. clear E.
    unfold set_recorder_state. wsimpl. split.
    + rewrite !payloads_app, payloads_track_stops. reflexivity.
    + apply reader_added with (b := recorded w data) (k := KRecording).
      * reflexivity.
      * wsimpl. rewrite !reads_app, reads_track_stops. cbn. lia.
      * exact I.
      * reflexivity.
Qed.


Lemma run_payloads : forall (acts : list action) (w : world),
  payloads (trace (run w acts)) = payloads (trace w) ++ deliveries w acts.
Proof.
  induction acts as [|a acts IH]; intros w.
  - cbn [run fold_left deliveries]. now rewrite app_nil_r.
  - rewrite run_cons, IH. cbn [deliveries].
    destruct (step_effect w a) as [-> _]. now rewrite app_assoc.
Qed.

Lemma deliveries_read : forall acts w a,
  In a (deliveries w acts) -> exists r now, a = payload_of r now.
Proof.
  induction acts as [|x acts IH]; intros w a H; [destruct H|].
  cbn [deliveries] in H. apply in_app_or in H as [H|H]; [|now apply IH in H].
  destruct x as [| | | | | | |k [|] now| | |]; try destruct H.
  cbn [delivered] in H. destruct (nth_error (readers w) k) as [r|];
    [|destruct H].
  destruct (rd_done r); [destruct H|].
  destruct H as [<-|[]]. now exists r, now.
Qed.

(** Property X3.
    The payloads of a run are those of the successful ends of pending
    reads, in order, and nothing else: there are at most as many as the
    run has events that end a read successfully. *)
Theorem payloads_are_deliveries (acts : list action) (w : world) :
  payloads (trace (run w acts)) = payloads (trace w) ++ deliveries w acts
  /\ length (deliveries w acts) <= length (filter is_successful_read acts).
Proof.
  split; [apply run_payloads|]. revert w.
  induction acts as [|a acts IH]; intros w; [apply Nat.le_refl|].
  cbn [deliveries filter]. rewrite length_app. specialize (IH (step w a)).
  destruct a as [| | | | | | |k [|] now| | |];
    cbn [delivered is_successful_read length]; try lia.
  destruct (nth_error (readers w) k) as [r|]; [|cbn [length]; lia].
  destruct (rd_done r); cbn [length]; lia.
Qed.

Lemma ended_le (rs : list reader) : ended rs <= length rs.
Proof. apply filter_length_le. Qed.

Lemma ended_app rs1 rs2 : ended (rs1 ++ rs2) = ended rs1 + ended rs2.
Proof. unfold ended. now rewrite filter_app, length_app. Qed.

Lemma ended_mark_done : forall rs i r,
  nth_error rs i = Some r -> rd_done r = false ->
  ended (update_nth i mark_done rs) = S (ended rs).
Proof.
  unfold ended. induction rs as [|x rs IH]; intros [|i] r H Hd;
    try discriminate.
  - injection H as ->. cbn [update_nth filter mark_done rd_done].
    now rewrite Hd.
  - cbn [update_nth filter]. cbn [nth_error] in H.
    destruct (rd_done x); cbn [length]; now rewrite (IH i r).
Qed.

Lemma audio_reader_mark_done : forall rs i,
  Forall audio_reader rs -> Forall audio_reader (update_nth i mark_done rs).
Proof.
  induction rs as [|x rs IH]; intros i H; [destruct i; constructor|].
  inversion H as [|? ? Hx Hrs]; subst.
  destruct i; cbn [update_nth]; constructor; auto.
Qed.

Lemma length_update_nth {A} (f : A -> A) : forall l n,
  length (update_nth n f l) = length l.
Proof.
  induction l as [|x l IH]; intros [|n]; cbn [update_nth length]; auto.
Qed.

Lemma payload_of_well_formed r now :
  audio_reader r -> well_formed_payload (payload_of r now).
Proof.
  unfold audio_reader, well_formed_payload, payload_of.
  destruct (rd_kont r); cbn [mimeType name]; intros H;
    (split; [assumption || reflexivity | discriminate]).
Qed.

Lemma reads_accounted_step w a :
  reads_accounted w -> reads_accounted (step w a).
Proof.
  intros (Hr & Hp & Hn & Hc).
  destruct (step_effect w a) as [Ep Ch]. unfold reads_accounted.
  rewrite Ep.
  destruct Ch as [Er Et Ed | b k Er Et Ha Ed | i r Hi Hd Er Et Ed].
  - rewrite Er, Et, Ed, app_nil_r. auto.
  - rewrite Er, Et, Ed, app_nil_r, length_app, ended_app. cbn [length].
    repeat split; auto.
    + apply Forall_app. split; [assumption | now constructor].
    + lia.
    + lia.
  - rewrite Er, Et, length_update_nth, (ended_mark_done _ _ _ Hi Hd).
    assert (Hri : audio_reader r).
    { rewrite Forall_forall in Hr. eapply Hr, nth_error_In, Hi. }
    repeat split; auto using audio_reader_mark_done.
    + apply Forall_app. split; [assumption|].
      destruct Ed as [-> | [now ->]]; [constructor|].
      constructor; [now apply payload_of_well_formed | constructor].
    + rewrite length_app.
      destruct Ed as [-> | [now ->]]; cbn [length]; lia.
Qed.

Lemma reads_accounted_run : forall acts w,
  reads_accounted w -> reads_accounted (run w acts).
Proof.
  induction acts as [|a acts IH]; intros w H; [exact H|].
  rewrite run_cons. apply IH, reads_accounted_step, H.
Qed.

Lemma reads_accounted_initial : reads_accounted initial.
Proof.
  repeat split; cbn; auto.
Qed.

(** Property X4.
    In a session that starts with the component's initial state, no more
    payloads are handed over than reads have ended, and no more reads end
    than were started. *)
Theorem one_payload_per_read (acts : list action) :
  let w := run initial acts in
  length (payloads (trace w)) <= ended (readers w)
  /\ ended (readers w) <= reads (trace w).
Proof.
  intros w.
  destruct (reads_accounted_run acts initial reads_accounted_initial)
    as (_ & _ & Hn & Hc).
  fold w in Hn, Hc. split; [exact Hc|].
  rewrite <- Hn. apply ended_le.
Qed.

(** Property X5.
    Every payload handed over in a session has a content type that starts
    with [audio/] and carries a name. *)
Theorem payloads_well_formed (acts : list action) :
  Forall well_formed_payload (payloads (trace (run initial acts))).
Proof.
  apply (reads_accounted_run acts initial reads_accounted_initial).
Qed.


(** ** The recording flag, the recorder and the timer *)

Lemma nth_error_update_other {A} (f : A -> A) : forall l n m,
  n <> m -> nth_error (update_nth n f l) m = nth_error l m.
Proof.
  induction l as [|x l IH]; intros [|n] [|m] H; cbn [update_nth nth_error];
    auto; try congruence.
Qed.

Lemma recorder_state_other rid rid' st w :
  rid <> rid' ->
  recorder_state rid (set_recorder_state rid' st w) = recorder_state rid w.
Proof.
  intros H. unfold recorder_state, set_recorder_state. wsimpl.
  rewrite nth_error_update_other; congruence.
Qed.

Lemma recorder_state_appended rid r w st :
  recorder_state rid w = st -> st <> RInactive ->
  nth_error (recorders w ++ [r]) rid = nth_error (recorders w) rid.
Proof.
  unfold recorder_state. intros H Hst.
  apply nth_error_app1. apply nth_error_Some.
  destruct (nth_error (recorders w) rid); congruence.
Qed.

Lemma step_same_control w a : controls a = false -> same_control w (step w a).
Proof.
  unfold same_control.
  destruct a as [sel|[n|]|rid data| | |rid data|id|k ok now|s|net|rid data];
    try discriminate; intros _; cbn [step].
  - unfold handleFileUpload. destruct sel as [f|]; [|now repeat split].
    destruct (negb _); now repeat split.
  - now repeat split.
  - unfold ondataavailable. destruct (recorder_state rid w);
      try (now repeat split).
    destruct (N.ltb 0 (blob_size data)); now repeat split.
  - destruct (existsb (Nat.eqb id) (intervals w)); now repeat split.
  - unfold loadend. destruct (nth_error (readers w) k) as [r|];
      [|now repeat split].
    destruct (rd_done r); [now repeat split|].
    destruct ok; cbn [reader_result onloadend]; [|now repeat split].
    destruct (rd_kont r); now repeat split.
  - now repeat split.
  - unfold handleYoutubeFetch, handleYoutubeFetchWith.
    destruct (getYoutubeVideoId (youtubeUrl w)) as [[|c vid]|];
      try (now repeat split).
    set (s := tryInstances net (c :: vid) instances 0 0 None).
    destruct (found s) as [blob|]; [|now repeat split].
    destruct (N.ltb 0 (blob_size blob)); [|now repeat split].
    destruct (N.ltb size_limit (blob_size blob)); now repeat split.
Qed.

Lemma flag_same_control w w' :
  same_control w w' -> flag_in_step w -> flag_in_step w'.
Proof.
  intros (H1 & H2 & H3 & H4 & H5 & _).
  unfold flag_in_step, recorder_running, timer_running, recorder_state.
  now rewrite H1, H2, H3, H4, H5.
Qed.

Lemma not_in_removed id l :
  ~ In id (filter (fun j => negb (Nat.eqb j id)) l).
Proof.
  intros H. apply filter_In in H as [_ H].
  now rewrite Nat.eqb_refl in H.
Qed.

Lemma flag_step w a :
  is_unmount a || is_stream_end a = false ->
  flag_in_step w /\ (forall id, timerRef w = Some id -> 1 <= id) ->
  flag_in_step (step w a)
  /\ (forall id, timerRef (step w a) = Some id -> 1 <= id).
Proof.
  intros Hu [Hf Ht].
  destruct (controls a) eqn:Ec.
  - destruct a as [sel|[n|]|rid data| | |rid data|id|k ok now|s|net|rid data];
      try discriminate; cbn [step].
    + (* a recording starts *)
      rewrite startRecording_granted.
      unfold flag_in_step, recorder_running, timer_running, recorder_state.
      wsimpl. split.
      * split; split; try reflexivity; intros _.
        -- exists (length (recorders w)).
           now rewrite nth_error_snoc.
        -- exists (S (timersCreated w)). split; [reflexivity|].
           apply in_or_app. right. now left.
      * intros id [= <-]. lia.
    + (* the stop button *)
      unfold stopRecording.
      destruct (mediaRecorderRef w) as [rid|] eqn:Eref; [|now split].
      destruct (isRecording w) eqn:Erec; [|now split].
      destruct Hf as [Hr Hi].
      destruct (proj1 Hr Erec) as (rid' & Eref' & Est).
      rewrite Eref in Eref'. injection Eref' as <-.
      destruct (proj1 Hi Erec) as (id & Eid & Hin).
      pose proof (Ht id Eid) as Hpos.
      destruct id as [|t]; [lia|].
      unfold recorder_stop. rewrite Est.
      unfold clear_timer. unfold set_recorder_state at 1. wsimpl.
      rewrite Eid. unfold clearInterval. wsimpl. split.
      * unfold flag_in_step, recorder_running, timer_running. wsimpl.
        change (mediaRecorderRef (set_recorder_state rid RStopping w))
          with (mediaRecorderRef w).
        change (timerRef (set_recorder_state rid RStopping w))
          with (timerRef w).
        change (intervals (set_recorder_state rid RStopping w))
          with (intervals w).
        rewrite Eref, Eid. split; split; try discriminate.
        -- intros (r & [= <-] & Hs).
           change (recorder_state rid (set_recorder_state rid RStopping w)
                   = RRecording) in Hs.
           rewrite (recorder_state_set rid RStopping RRecording w Est) in Hs;
             discriminate.
        -- intros (i & [= <-] & Hin'). now apply not_in_removed in Hin'.
      * unfold set_recorder_state. wsimpl. rewrite Eid. wsimpl. exact Ht.
    + (* the final events of a recorder *)
      destruct (recorder_state rid w) eqn:Es; try (now split).
      pose proof (recorder_stopped_event w rid data Es) as E.
      cbn [step] in E. rewrite Es in E. rewrite E. clear E.
      set (w1 := set_trace _ _).
      assert (Hs1 : forall r, recorder_state r w1 = recorder_state r w)
        by reflexivity.
      split; [|exact Ht].
      destruct Hf as [Hr Hi]. split.
      * apply (iff_trans Hr). unfold recorder_running.
        change (mediaRecorderRef (set_recorder_state rid RInactive w1))
          with (mediaRecorderRef w).
        split; intros (r & Er & Hs); exists r; (split; [exact Er|]).
        -- destruct (Nat.eq_dec r rid) as [->|Hne]; [congruence|].
           now rewrite recorder_state_other, Hs1.
        -- destruct (Nat.eq_dec r rid) as [->|Hne].
           ++ rewrite (recorder_state_set rid RInactive RStopping w1) in Hs;
                [discriminate | now rewrite Hs1 | discriminate].
           ++ now rewrite recorder_state_other, Hs1 in Hs.
      * exact Hi.
  - pose proof (step_same_control w a Ec) as Hc. split.
    + now apply (flag_same_control w).
    + destruct Hc as (_ & _ & -> & _). exact Ht.
Qed.

(** Property X6.
    As long as the component stays mounted and no recorder stops by
    itself, [isRecording] is true exactly when the recorder that
    [mediaRecorderRef] names is recording, and exactly when the interval
    that [timerRef] names is running. [onstop] does not touch the flag or
    the interval: when the stream of that recorder ends during a
    recording, the flag stays up and the interval keeps running although
    the recorder is inactive. *)
Theorem flag_true_until_stream_ends (acts : list action) :
  forallb (fun a => negb (is_unmount a || is_stream_end a)) acts = true ->
  let w := run initial acts in
  flag_in_step w
  /\ (forall rid data,
        isRecording w = true -> mediaRecorderRef w = Some rid ->
        let w' := step w (StreamEnded rid data) in
        isRecording w' = true /\ timer_running w'
        /\ recorder_state rid w' = RInactive).
Proof.
  assert (G : forall acts w,
             forallb (fun a => negb (is_unmount a || is_stream_end a)) acts
             = true ->
             flag_in_step w /\ (forall id, timerRef w = Some id -> 1 <= id) ->
             flag_in_step (run w acts)).
  { clear acts. induction acts as [|a acts IH]; intros w Hn H;
      [exact (proj1 H)|].
    cbn [forallb] in Hn. apply andb_prop in Hn as [Ha Hn].
    rewrite run_cons. apply IH; [exact Hn|].
    apply flag_step; [|exact H].
    now destruct (is_unmount a || is_stream_end a). }
  intros Hn w.
  assert (Hf : flag_in_step w).
  { apply G; [exact Hn|]. split.
    - unfold flag_in_step, recorder_running, timer_running. cbn.
      split; split; try discriminate.
      + intros (r & Hr & _). discriminate.
      + intros (i & Hi & _). discriminate.
    - cbn. discriminate. }
  clearbody w. split; [exact Hf|].
  intros rid data Hrec Href w'. subst w'.
  destruct Hf as [Hr Ht].
  destruct (proj1 Hr Hrec) as (rid' & Href' & Hs).
  rewrite Href in Href'. injection Href' as <-.
  rewrite (stream_ended_event w rid data Hs).
  set (w1 := set_trace _ _).
  refine (conj Hrec (conj (proj1 Ht Hrec) _)).
  now apply (recorder_state_set rid RInactive RRecording w1).
Qed.

(** A recording that is started, timed and stopped; and a recording whose
    stream ends. *)
Lemma flag_witness :
  forallb (fun a => negb (is_unmount a || is_stream_end a))
          [StartRecording (Some 1); Tick 1; StopRecording] = true
  /\ flag_in_step (run initial [StartRecording (Some 1); Tick 1; StopRecording])
  /\ isRecording (run initial [StartRecording (Some 1); StreamEnded 0 silence])
     = true
  /\ recorder_state 0 (run initial [StartRecording (Some 1);
                                    StreamEnded 0 silence]) = RInactive.
Proof.
  destruct (flag_true_until_stream_ends
              [StartRecording (Some 1); Tick 1; StopRecording] eq_refl)
    as [F _].
  destruct (flag_true_until_stream_ends [StartRecording (Some 1)] eq_refl)
    as [_ S].
  destruct (S 0 silence eq_refl eq_refl) as (S1 & _ & S2).
  exact (conj eq_refl (conj F (conj S1 S2))).
Defined.

(** ** A second start while a recording runs *)

Lemma stream_stops_app s t1 t2 :
  stream_stops s (t1 ++ t2) = stream_stops s t1 + stream_stops s t2.
Proof.
  induction t1 as [|e t1 IH]; [reflexivity|].
  destruct e; simpl; rewrite IH; lia.
Qed.

Lemma stream_stops_fetches s evs :
  forallb is_fetch evs = true -> stream_stops s evs = 0.
Proof.
  induction evs as [|e evs IH]; [reflexivity|].
  destruct e; cbn; try discriminate. exact IH.
Qed.

Lemma stream_stops_other s r l :
  r <> s -> stream_stops s (map (TrackStop r) l) = 0.
Proof.
  intros H. induction l as [|x l IH]; [reflexivity|].
  cbn [map stream_stops]. rewrite IH.
  now destruct (Nat.eqb_spec r s).
Qed.

Lemma step_stream_stops w a s :
  recorder_state s w <> RStopping -> ends_stream s a = false ->
  stream_stops s (trace (step w a)) = stream_stops s (trace w).
Proof.
  intros Hs He.
  destruct a as [sel|gum|rid data| | |rid data|id|k ok now|u|net|rid data];
    cbn [step].
  - unfold handleFileUpload. destruct sel as [f|]; [|reflexivity].
    destruct (negb _); wsimpl; rewrite stream_stops_app; cbn; lia.
  - destruct gum as [n|]; [now rewrite startRecording_granted|].
    cbn [startRecording]. wsimpl. rewrite stream_stops_app. cbn. lia.
  - unfold ondataavailable. destruct (recorder_state rid w); try reflexivity.
    now destruct (N.ltb 0 (blob_size data)).
  - now rewrite trace_stopRecording.
  - now rewrite trace_cleanup.
  - destruct (recorder_state rid w) eqn:Es; try reflexivity.
    pose proof (recorder_stopped_event w rid data Es) as E.
    cbn [step] in E. rewrite Es in E. rewrite E. clear E.
    unfold set_recorder_state. wsimpl.
    rewrite !stream_stops_app, stream_stops_other by congruence.
    cbn. lia.
  - now destruct (existsb (Nat.eqb id) (intervals w)).
  - unfold loadend. destruct (nth_error (readers w) k) as [r|];
      [|reflexivity].
    destruct (rd_done r); [reflexivity|].
    destruct ok; cbn [reader_result onloadend]; [|reflexivity].
    destruct (rd_kont r); wsimpl; rewrite stream_stops_app; cbn; lia.
  - reflexivity.
  - unfold handleYoutubeFetch, handleYoutubeFetchWith.
    destruct (getYoutubeVideoId (youtubeUrl w)) as [[|c vid]|];
      try (wsimpl; rewrite stream_stops_app; cbn; lia).
    set (r := tryInstances net (c :: vid) instances 0 0 None).
    assert (Hf : stream_stops s (issued r) = 0)
      by apply stream_stops_fetches, issued_fetches.
    destruct (found r) as [blob|];
      [destruct (N.ltb 0 (blob_size blob));
       [destruct (N.ltb size_limit (blob_size blob))|]|];
      wsimpl; rewrite !stream_stops_app, Hf; cbn; lia.
  - cbn [ends_stream] in He. apply Nat.eqb_neq in He.
    destruct (recorder_state rid w) eqn:Es; try reflexivity.
    pose proof (stream_ended_event w rid data Es) as E.
    cbn [step] in E. rewrite Es in E. rewrite E. clear E.
    unfold set_recorder_state. wsimpl.
    rewrite !stream_stops_app, stream_stops_other by exact He.
    cbn. lia.
Qed.

Lemma orphan_same_control w w' rid id :
  same_control w w' ->
  orphan_recorder w rid /\ orphan_interval w id ->
  orphan_recorder w' rid /\ orphan_interval w' id.
Proof.
  intros (H1 & H2 & H3 & H4 & H5 & H6).
  unfold orphan_recorder, orphan_interval, recorder_state.
  now rewrite H2, H3, H4, H5, H6.
Qed.

Lemma clear_timer_control w :
  isRecording (clear_timer w) = isRecording w
  /\ mediaRecorderRef (clear_timer w) = mediaRecorderRef w
  /\ timerRef (clear_timer w) = timerRef w
  /\ recorders (clear_timer w) = recorders w
  /\ timersCreated (clear_timer w) = timersCreated w.
Proof. rewrite clear_timer_frame. now repeat split. Qed.

Lemma clear_timer_orphans w rid id :
  orphan_recorder w rid /\ orphan_interval w id ->
  orphan_recorder (clear_timer w) rid /\ orphan_interval (clear_timer w) id.
Proof.
  destruct (clear_timer_control w) as (_ & H2 & H3 & H4 & H6).
  unfold orphan_recorder, orphan_interval, recorder_state.
  rewrite H2, H3, H4, H6. intros [Hr (Hin & Ht & Hc)].
  split; [exact Hr|]. split; [|now split].
  unfold clear_timer, clearInterval.
  destruct (timerRef w) as [[|t]|]; cbn [intervals set_intervals]; auto.
  apply filter_In. split; [exact Hin|].
  apply negb_true_iff, Nat.eqb_neq. congruence.
Qed.

Lemma recorder_stop_orphans w r rid id :
  r <> rid ->
  orphan_recorder w rid /\ orphan_interval w id ->
  orphan_recorder (recorder_stop r w) rid
  /\ orphan_interval (recorder_stop r w) id.
Proof.
  intros Hne H. unfold recorder_stop.
  destruct (recorder_state r w); try exact H.
  destruct H as [[Hs Hr] Hi]. split; [split; [|exact Hr] | exact Hi].
  now rewrite recorder_state_other by congruence.
Qed.

Lemma orphans_step w a rid id :
  ends_stream rid a = false ->
  orphan_recorder w rid /\ orphan_interval w id ->
  orphan_recorder (step w a) rid /\ orphan_interval (step w a) id.
Proof.
  intros He H. destruct (controls a) eqn:Ec;
    [|exact (orphan_same_control w _ rid id (step_same_control w a Ec) H)].
  destruct a as [sel|[n|]|r data| | |r data|i|k ok now|u|net|r data];
    try discriminate; cbn [step].
  - (* another start *)
    rewrite startRecording_granted. destruct H as [[Hs Hr] (Hin & Ht & Hc)].
    unfold orphan_recorder, orphan_interval, recorder_state. wsimpl.
    erewrite recorder_state_appended by (exact Hs || discriminate).
    repeat split.
    + exact Hs.
    + intros [= E]. unfold recorder_state in Hs. rewrite <- E in Hs.
      now rewrite (proj2 (nth_error_None _ _) (Nat.le_refl _)) in Hs.
    + apply in_or_app. now left.
    + intros [= E]. lia.
    + lia.
  - (* the stop button *)
    unfold stopRecording.
    destruct (mediaRecorderRef w) as [r|] eqn:Eref; [|exact H].
    destruct (isRecording w); [|exact H].
    apply clear_timer_orphans.
    change (orphan_recorder (recorder_stop r w) rid
            /\ orphan_interval (recorder_stop r w) id).
    apply recorder_stop_orphans; [|exact H].
    destruct H as [[_ Hr] _]. congruence.
  - (* the teardown *)
    unfold cleanup. cbv zeta.
    pose proof (clear_timer_orphans w rid id H) as H1.
    destruct (mediaRecorderRef (clear_timer w)) as [r|] eqn:Eref;
      [|exact H1].
    destruct (recorder_state r (clear_timer w)) eqn:Es; try exact H1.
    apply recorder_stop_orphans; [|exact H1].
    destruct H1 as [[_ Hr] _]. congruence.
  - (* the final events of a recorder *)
    destruct (recorder_state r w) eqn:Es; try exact H.
    pose proof (recorder_stopped_event w r data Es) as E.
    cbn [step] in E. rewrite Es in E. rewrite E. clear E.
    set (w1 := set_trace _ _).
    assert (H1 : orphan_recorder w1 rid /\ orphan_interval w1 id)
      by (apply (orphan_same_control w); [now repeat split | exact H]).
    destruct H1 as [[Hs Hr] Hi]. split; [split; [|exact Hr] | exact Hi].
    rewrite recorder_state_other; [exact Hs|].
    destruct H as [[Hs' _] _]. congruence.
  - (* another recorder stops by itself *)
    cbn [ends_stream] in He. apply Nat.eqb_neq in He.
    destruct (recorder_state r w) eqn:Es; try exact H.
    pose proof (stream_ended_event w r data Es) as E.
    cbn [step] in E. rewrite Es in E. rewrite E. clear E.
    set (w1 := set_trace _ _).
    assert (H1 : orphan_recorder w1 rid /\ orphan_interval w1 id)
      by (apply (orphan_same_control w); [now repeat split | exact H]).
    destruct H1 as [[Hs Hr] Hi]. split; [split; [|exact Hr] | exact Hi].
    rewrite recorder_state_other; [exact Hs | congruence].
Qed.

Lemma orphans_run : forall acts w rid id,
  forallb (fun a => negb (ends_stream rid a)) acts = true ->
  orphan_recorder w rid /\ orphan_interval w id ->
  orphan_recorder (run w acts) rid /\ orphan_interval (run w acts) id
  /\ stream_stops rid (trace (run w acts)) = stream_stops rid (trace w).
Proof.
  induction acts as [|a acts IH]; intros w rid id Hn H.
  - cbn [run fold_left]. tauto.
  - cbn [forallb] in Hn. apply andb_prop in Hn as [Ha Hn].
    apply negb_true_iff in Ha. rewrite run_cons.
    destruct (IH (step w a) rid id Hn (orphans_step w a rid id Ha H))
      as (H1 & H2 & H3).
    repeat split; try apply H1; try apply H2.
    rewrite H3. apply step_stream_stops; [|exact Ha].
    destruct H as [[Hs _] _]. congruence.
Qed.

(** Property X7.
    When [startRecording] completes a second time before the first
    recording was stopped, the first recorder and the first interval are
    out of reach of every handler: whatever the user and the component do
    afterwards (further starts, stops, the teardown), as long as the
    stream of that recorder does not end by itself the recorder keeps
    recording and none of its tracks is stopped, and its interval stays
    registered; while the component is mounted each tick of that
    interval still adds to the elapsed time. *)
Theorem second_start_orphans_the_first
        (w : world) (n m : nat) (acts : list action) :
  let rid := length (recorders w) in
  let id := S (timersCreated w) in
  let w' := run w (StartRecording (Some n) :: StartRecording (Some m) :: acts) in
  forallb (fun a => negb (ends_stream rid a)) acts = true ->
  recorder_state rid w' = RRecording
  /\ stream_stops rid (trace w') = stream_stops rid (trace w)
  /\ In id (intervals w')
  /\ (forallb (fun a => negb (is_unmount a)) acts = true ->
      recordingTime (step w' (Tick id)) = S (recordingTime w')).
Proof.
  intros rid id w' Hn. subst w'.
  rewrite run_cons, run_cons. cbn [step].
  rewrite !startRecording_granted. wsimpl.
  set (w2 := {| isRecording := true; recordingTime := 0;
                youtubeUrl := youtubeUrl w |}).
  assert (H : orphan_recorder w2 rid /\ orphan_interval w2 id).
  { unfold orphan_recorder, orphan_interval, recorder_state, w2, rid, id.
    wsimpl.
    rewrite nth_error_app1, nth_error_snoc
      by (rewrite length_app; cbn; lia).
    rewrite length_app. cbn [length]. repeat split.
    - intros [= E]. lia.
    - apply in_or_app. left. apply in_or_app. right. now left.
    - intros [= E]. lia.
    - lia. }
  destruct (orphans_run acts w2 rid id Hn H) as ([Hs _] & (Hin & _) & Hst).
  change (trace w2) with (trace w) in Hst. clearbody w2.
  refine (conj Hs (conj Hst (conj Hin _))). intros _.
  cbn [step].
  assert (Hex : existsb (Nat.eqb id) (intervals (run w2 acts)) = true).
  { apply existsb_exists. exists id. split; [exact Hin | apply Nat.eqb_refl]. }
  now rewrite Hex.
Qed.

(** Two starts, then the stop button and the teardown. *)
Lemma second_start_witness :
  forallb (fun a => negb (ends_stream 0 a)) [StopRecording; Unmount] = true
  /\ recorder_state 0
       (run initial [StartRecording (Some 1); StartRecording (Some 1);
                     StopRecording; Unmount]) = RRecording
  /\ In 1 (intervals
             (run initial [StartRecording (Some 1); StartRecording (Some 1);
                           StopRecording; Unmount])).
Proof.
  destruct (second_start_orphans_the_first initial 1 1
              [StopRecording; Unmount] eq_refl) as (R & _ & I & _).
  exact (conj eq_refl (conj R I)).
Defined.

(** ** A read that fails *)

Lemma pending_mark_done : forall rs k,
  existsb retrieval_pending rs = false ->
  existsb retrieval_pending (update_nth k mark_done rs) = false.
Proof.
  induction rs as [|r rs IH]; intros k H; [now destruct k|].
  cbn [existsb] in H. apply orb_false_elim in H as [Hr Hrs].
  destruct k as [|k]; cbn [update_nth existsb].
  - rewrite Hrs, orb_false_r. unfold retrieval_pending, mark_done.
    cbn [rd_kont rd_done]. now destruct (rd_kont r).
  - now rewrite Hr, IH.
Qed.

Lemma pending_none : forall rs k r,
  existsb retrieval_pending rs = false -> nth_error rs k = Some r ->
  retrieval_pending r = false.
Proof.
  intros rs k r H Hk. apply nth_error_In in Hk.
  destruct (retrieval_pending r) eqn:E; [|reflexivity].
  rewrite <- H. symmetry. apply existsb_exists. now exists r.
Qed.

Lemma busy_step w a :
  starts_retrieval a = false ->
  isFetchingYT w = true /\ existsb retrieval_pending (readers w) = false ->
  isFetchingYT (step w a) = true
  /\ existsb retrieval_pending (readers (step w a)) = false.
Proof.
  intros Ha [Hb Hp].
  destruct a as [sel|gum|rid data| | |rid data|id|k ok now|u|net|rid data];
    try discriminate; cbn [step].
  - unfold handleFileUpload. destruct sel as [f|]; [|now split].
    destruct (negb _); wsimpl; [now split|].
    rewrite existsb_app, Hp. now split.
  - destruct gum as [n|]; [now rewrite startRecording_granted|now split].
  - unfold ondataavailable. destruct (recorder_state rid w); try now split.
    now destruct (N.ltb 0 (blob_size data)).
  - rewrite readers_stopRecording. split; [|exact Hp].
    unfold stopRecording, recorder_stop.
    destruct (mediaRecorderRef w) as [rid|]; [|exact Hb].
    destruct (isRecording w); [|exact Hb].
    rewrite clear_timer_frame. now destruct (recorder_state rid w).
  - rewrite readers_cleanup. split; [|exact Hp].
    unfold cleanup, recorder_stop. rewrite clear_timer_frame. wsimpl.
    destruct (mediaRecorderRef w) as [rid|]; [|exact Hb].
    now destruct (recorder_state rid _).
  - destruct (recorder_state rid w) eqn:Es; try now split.
    pose proof (recorder_stopped_event w rid data Es) as E.
    cbn [step] in E. rewrite Es in E. rewrite E. clear E.
    unfold set_recorder_state. wsimpl. rewrite existsb_app, Hp. now split.
  - now destruct (existsb (Nat.eqb id) (intervals w)).
  - unfold loadend. destruct (nth_error (readers w) k) as [r|] eqn:Er;
      [|now split].
    destruct (rd_done r) eqn:Ed; [now split|].
    pose proof (pending_none _ _ _ Hp Er) as Hr.
    unfold retrieval_pending in Hr. rewrite Ed in Hr.
    pose proof (pending_mark_done _ k Hp) as Hm.
    destruct ok; cbn [reader_result onloadend]; [|now split].
    destruct (rd_kont r); try discriminate; wsimpl; now split.
  - now split.
  - destruct (recorder_state rid w) eqn:Es; try now split.
    pose proof (stream_ended_event w rid data Es) as E.
    cbn [step] in E. rewrite Es in E. rewrite E. clear E.
    unfold set_recorder_state. wsimpl. rewrite existsb_app, Hp. now split.
Qed.

Lemma busy_run : forall acts w,
  forallb (fun a => negb (starts_retrieval a)) acts = true ->
  isFetchingYT w = true /\ existsb retrieval_pending (readers w) = false ->
  isFetchingYT (run w acts) = true.
Proof.
  induction acts as [|a acts IH]; intros w Hn H; [apply H|].
  cbn [forallb] in Hn. apply andb_prop in Hn as [Ha Hn].
  rewrite run_cons. apply IH; [exact Hn|].
  apply busy_step; [|exact H]. now destruct (starts_retrieval a).
Qed.

(** Property X8.
    When the retrieval found a blob of an accepted size, the busy flag
    [isFetchingYT] is lowered by the reader's [onloadend] only: it is up
    while the read is pending and a successful end lowers it; a failed end
    leaves it up without any alert or payload, and then it stays up
    whatever happens afterwards, as long as no new retrieval is started
    (which the disabled button does not allow). *)
Theorem failed_read_keeps_fetching
        (net : network) (w : world) (videoId : jsstring) (blob : Blob)
        (now : jsstring) :
  getYoutubeVideoId (youtubeUrl w) = Some videoId ->
  found (tryInstances net videoId instances 0 0 None) = Some blob ->
  (0 < blob_size blob <= size_limit)%N ->
  existsb retrieval_pending (readers w) = false ->
  let k := length (readers w) in
  let w1 := run w [YoutubeFetch net] in
  let w2 := run w [YoutubeFetch net; LoadEnd k false now] in
  isFetchingYT w1 = true
  /\ isFetchingYT (run w [YoutubeFetch net; LoadEnd k true now]) = false
  /\ trace w2 = trace w1
  /\ (forall acts,
        forallb (fun a => negb (starts_retrieval a)) acts = true ->
        isFetchingYT (run w2 acts) = true).
Proof.
  intros Hid Hfound [Hlo Hhi] Hp k w1 w2.
  assert (E : isFetchingYT w1 = true
              /\ isFetchingYT (run w [YoutubeFetch net; LoadEnd k true now])
                 = false
              /\ trace w2 = trace w1
              /\ isFetchingYT w2 = true
              /\ existsb retrieval_pending (readers w2) = false).
  { subst k w1 w2.
    pose proof (getYoutubeVideoId_length _ _ Hid) as Hlen.
    wsimpl.
    unfold handleYoutubeFetch, handleYoutubeFetchWith. rewrite Hid.
    destruct videoId as [|c videoId]; [discriminate|].
    rewrite Hfound.
    assert (E1 : N.ltb 0 (blob_size blob) = true) by now apply N.ltb_lt.
    assert (E2 : N.ltb size_limit (blob_size blob) = false)
      by now apply N.ltb_ge.
    rewrite E1, E2. cbv zeta. wsimpl.
    unfold loadend. wsimpl. rewrite nth_error_snoc. wsimpl.
    rewrite update_nth_snoc, existsb_app, Hp.
    repeat split. }
  destruct E as (H1 & H2 & H3 & H4 & H5). clearbody w1 w2.
  refine (conj H1 (conj H2 (conj H3 _))).
  intros acts Hn. apply busy_run; [exact Hn | exact (conj H4 H5)].
Qed.

(** A two-byte answer of the first endpoint, a failed read, and an upload
    afterwards. *)
Lemma failed_read_witness :
  getYoutubeVideoId (youtubeUrl watching) = Some video
  /\ found (tryInstances (always spoken) video instances 0 0 None) = Some spoken
  /\ (0 < blob_size spoken <= size_limit)%N
  /\ existsb retrieval_pending (readers watching) = false
  /\ isFetchingYT
       (run (run watching [YoutubeFetch (always spoken);
                           LoadEnd (length (readers watching)) false clock])
            [FileSelected (Some song); LoadEnd 1 true clock]) = true.
Proof.
  assert (Hid : getYoutubeVideoId (youtubeUrl watching) = Some video)
    by (vm_compute; reflexivity).
  assert (F : found (tryInstances (always spoken) video instances 0 0 None)
              = Some spoken) by reflexivity.
  assert (S : (0 < blob_size spoken <= size_limit)%N)
    by (split; [reflexivity | discriminate]).
  assert (P : existsb retrieval_pending (readers watching) = false)
    by reflexivity.
  destruct (failed_read_keeps_fetching (always spoken) watching video spoken
              clock Hid F S P) as (_ & _ & _ & R).
  exact (conj Hid (conj F (conj S (conj P
           (R [FileSelected (Some song); LoadEnd 1 true clock] eq_refl))))).
Defined.

End SessionFacts.

Import SessionFacts.

(* ------------------------------------------------------------------ *)
(** ** Links and their identifiers *)

Module LinkFacts.

Lemma last_index (P : nat -> bool) : forall k n0,
  P n0 = true ->
  exists n, n0 <= n /\ n <= n0 + k /\ P n = true
            /\ forall m, n < m -> m <= n0 + k -> P m = false.
Proof.
  induction k as [|k IH]; intros n0 H0.
  - exists n0. repeat split; auto; try lia.
  - destruct (P (n0 + S k)) eqn:E.
    + exists (n0 + S k). repeat split; auto; try lia.
    + destruct (IH n0 H0) as (n & H1 & H2 & H3 & H4).
      exists n. repeat split; auto; try lia.
      intros m Hm1 Hm2.
      destruct (Nat.eq_dec m (n0 + S k)) as [->|Hne]; [exact E|].
      apply H4; lia.
Qed.

(** When every alternative that matches after offset [n0] ends where the
    one at [n0] ends, the token is read from that place. *)
Lemma getYoutubeVideoId_from url n0 len0 :
  n0 <= span CAny url ->
  marker_len (skipn n0 url) = Some len0 ->
  (forall m len, n0 < m -> m <= span CAny url ->
                 marker_len (skipn m url) = Some len -> m + len = n0 + len0) ->
  getYoutubeVideoId url = pick (token (skipn (n0 + len0) url)).
Proof.
  intros Hn0 Hm0 Hlater.
  destruct (last_index (has_marker_at url) (span CAny url - n0) n0)
    as (n & H1 & H2 & H3 & H4).
  { unfold has_marker_at. now rewrite Hm0. }
  unfold has_marker_at in H3.
  destruct (marker_len (skipn n url)) as [len|] eqn:En; [|discriminate].
  rewrite (getYoutubeVideoId_match url n len); [|lia|exact En|].
  - rewrite skipn_skipn.
    destruct (Nat.eq_dec n n0) as [->|Hne].
    + rewrite Hm0 in En. injection En as ->. now rewrite Nat.add_comm.
    + rewrite <- (Hlater n len); [now rewrite Nat.add_comm|lia|lia|exact En].
  - intros m Hm1 Hm2. specialize (H4 m Hm1).
    unfold has_marker_at in H4.
    destruct (marker_len (skipn m url)); [|reflexivity].
    discriminate H4. lia.
Qed.

Lemma quiet_tail : forall s n, quiet s = true -> quiet (skipn n s) = true.
Proof.
  induction s as [|c s IH]; intros [|n] H; auto.
  cbn [skipn]. apply IH. cbn [quiet] in H.
  now apply andb_prop in H as [_ H].
Qed.

Lemma quiet_no_marker s : quiet s = true -> marker_len s = None.
Proof.
  intros H. destruct (marker_len s) as [n|] eqn:E; [|reflexivity].
  apply marker_len_inv in E as (mk & rest & -> & Hmk & _).
  exfalso. destruct Hmk; cbn in H; rewrite ?andb_false_r in H;
    discriminate.
Qed.


Lemma quiet_cons c s :
  quiet (c :: s)
  = negb (N.eqb c 47)
    && negb (N.eqb c 118
             && match s with d :: _ => N.eqb d 61 | [] => false end)
    && quiet s.
Proof. reflexivity. Qed.

Lemma quiet_app : forall tok rest,
  Forall id_char tok -> quiet rest = true ->
  match rest with [] => True | d :: _ => delimiter d end ->
  quiet (tok ++ rest) = true.
Proof.
  induction tok as [|c tok IH]; intros rest Hid Hq Hd; [exact Hq|].
  inversion Hid as [|? ? Hc Htok]; subst.
  rewrite <- app_comm_cons, quiet_cons.
  rewrite (IH rest Htok Hq Hd), andb_true_r.
  assert (H47 : N.eqb c 47 = false).
  { apply N.eqb_neq. destruct Hc as [Hw | ->]; [|discriminate].
    unfold word_char in Hw. lia. }
  rewrite H47. cbn [negb andb].
  destruct (N.eqb_spec c 118) as [->|]; [|reflexivity]. cbn [andb].
  destruct tok as [|d tok].
  - change ([] ++ rest) with rest.
    destruct rest as [|d rest]; [reflexivity|].
    destruct Hd as [-> | [-> | ->]]; reflexivity.
  - inversion Htok as [|? ? Hd' _]; subst.
    rewrite <- app_comm_cons.
    destruct (N.eqb_spec d 61) as [->|]; [|reflexivity].
    destruct Hd' as [Hw | Hw]; [unfold word_char in Hw; lia | discriminate].
Qed.

Lemma id_char_token tok rest :
  Forall id_char tok ->
  match rest with [] => True | d :: _ => delimiter d end ->
  token_of tok rest.
Proof.
  intros Hid Hd. split; [|exact Hd].
  eapply Forall_impl; [|exact Hid].
  intros c [Hw | ->] Hdel; unfold delimiter, word_char in *; lia.
Qed.

Lemma skipn_past {A} (p l : list A) k :
  skipn (length p + k) (p ++ l) = skipn k l.
Proof. induction p; cbn; auto. Qed.

(** Inside or after a marker that is followed by quiet text, an
    alternative matches only if it ends where the marker ends. *)
Lemma marker_overlap mk tail j len :
  marker mk -> quiet tail = true ->
  marker_len (skipn (S j) (mk ++ tail)) = Some len ->
  S j + len = length mk.
Proof.
  intros Hmk Hq H.
  assert (Hfar : forall s, marker_len (skipn s tail) = None)
    by (intros s; apply quiet_no_marker, quiet_tail, Hq).
  destruct Hmk as [ | |x Hx| | | ].
  - do 8 (destruct j as [|j]; [cbn in H; discriminate|]).
    cbn [skipn app lit map list_ascii_of_string] in H.
    now rewrite Hfar in H.
  - do 1 (destruct j as [|j]; [cbn in H; discriminate|]).
    cbn [skipn app lit map list_ascii_of_string] in H.
    now rewrite Hfar in H.
  - destruct j as [|j]; [cbn in H; discriminate|].
    destruct j as [|j].
    + cbn in H.
      apply marker_len_inv in H as (mk' & rest' & E & Hmk' & <-).
      destruct Hmk' as [y Hy| |y Hy| | | ]; cbn in E; try discriminate E.
      * reflexivity.
      * injection E as _ E. subst tail. cbn in Hq.
        rewrite ?andb_false_r in Hq. discriminate.
    + destruct j as [|j]; [cbn in H; discriminate|].
      cbn [skipn app lit map list_ascii_of_string] in H.
      now rewrite Hfar in H.
  - do 5 (destruct j as [|j]; [cbn in H; discriminate|]).
    cbn [skipn app lit map list_ascii_of_string] in H.
    now rewrite Hfar in H.
  - do 7 (destruct j as [|j]; [cbn in H; discriminate|]).
    cbn [skipn app lit map list_ascii_of_string] in H.
    now rewrite Hfar in H.
  - do 2 (destruct j as [|j]; [cbn in H; discriminate|]).
    cbn [skipn app lit map list_ascii_of_string] in H.
    now rewrite Hfar in H.
Qed.


(** Property X9.
    A link of one of the standard shapes gives its identifier: when a
    marker is followed by eleven characters of the identifier alphabet,
    and what follows them is empty or starts with [#], [&] or [?] and
    holds neither a slash nor [v=], the extraction returns those eleven
    characters, whatever stands before the marker on the first line. *)
Theorem standard_links_give_their_identifier (pre mk tok rest : jsstring) :
  one_line pre -> marker mk ->
  Forall id_char tok -> length tok = 11 ->
  match rest with [] => True | d :: _ => delimiter d end ->
  quiet rest = true ->
  getYoutubeVideoId (pre ++ mk ++ tok ++ rest) = Some tok.
Proof.
  intros Hpre Hmk Htok Hlen Hd Hq.
  pose proof (quiet_app tok rest Htok Hq Hd) as Hquiet.
  rewrite (getYoutubeVideoId_from _ (length pre) (length mk)).
  - rewrite skipn_past, skipn_prefix.
    rewrite (token_app tok rest (id_char_token tok rest Htok Hd)).
    unfold pick. now rewrite Hlen.
  - now apply span_one_line.
  - rewrite skipn_prefix.
    apply marker_len_alternative, marker_alternative, Hmk.
  - intros m len Hm1 _ Hm.
    replace m with (length pre + S (m - S (length pre))) in Hm by lia.
    rewrite skipn_past in Hm.
    pose proof (marker_overlap mk (tok ++ rest) _ len Hmk Hquiet Hm). lia.
Qed.

Lemma standard_link_witness :
  one_line (lit "https://www.youtube.com/")
  /\ marker (lit "watch?v=")
  /\ Forall id_char (lit "dQw4w9WgXcQ")
  /\ quiet (lit "&list=PLx&index=2") = true
  /\ getYoutubeVideoId playlist_link = Some (lit "dQw4w9WgXcQ").
Proof.
  assert (H1 : one_line (lit "https://www.youtube.com/"))
    by (apply one_line_check; reflexivity).
  assert (H2 : marker (lit "watch?v=")) by constructor.
  assert (H3 : Forall id_char (lit "dQw4w9WgXcQ")).
  { repeat (constructor; [left; unfold word_char; cbn; lia|]). constructor. }
  assert (H4 : quiet (lit "&list=PLx&index=2") = true) by reflexivity.
  refine (conj H1 (conj H2 (conj H3 (conj H4 _)))).
  apply (standard_links_give_their_identifier
           (lit "https://www.youtube.com/") (lit "watch?v=")
           (lit "dQw4w9WgXcQ") (lit "&list=PLx&index=2") H1 H2 H3);
    [reflexivity | | exact H4].
  cbn. right. left. reflexivity.
Defined.


Lemma token_split : forall s,
  s = token s ++ skipn (span token_class s) s
  /\ token_of (token s) (skipn (span token_class s) s).
Proof.
  unfold token. induction s as [|c s [IH1 IH2]].
  - split; [reflexivity|]. split; [constructor | exact I].
  - cbn [span]. destruct (cmatch token_class c) eqn:E.
    + cbn [firstn skipn]. split; [cbn [List.app]; now rewrite <- IH1|].
      destruct IH2 as [Ht Hr]. split; [|exact Hr].
      constructor; [|exact Ht].
      intros Hd. apply token_class_spec in Hd. congruence.
    + cbn [firstn skipn]. split; [reflexivity|].
      split; [constructor | now apply token_class_spec].
Qed.

(** Property X10.
    What the extraction returns was read from the link: the result is the
    token of eleven code units that follows the last text on the first
    line that group 1 accepts. *)
Theorem extraction_is_sound (url v : jsstring) :
  getYoutubeVideoId url = Some v ->
  exists pre mk rest,
    last_occurrence url pre mk (v ++ rest)
    /\ token_of v rest /\ length v = 11.
Proof.
  intros H. pose proof (getYoutubeVideoId_length url v H) as Hlen.
  unfold getYoutubeVideoId in H.
  rewrite string_match_regExp, regExp_at_0 in H.
  match type of H with context [star CAny 0 url [] ?k] =>
    destruct (star CAny 0 url [] k) as [m|] eqn:E; [|discriminate]
  end.
  apply star_some in E as (n & Hn & Hk & Hmax). cbn [Nat.add] in Hk, Hmax.
  destruct (marker_len (skipn n url)) as [len|] eqn:Em; [|discriminate].
  injection Hk as <-. cbn [capture Nat.eqb] in H.
  destruct (Nat.eqb (length (token (skipn len (skipn n url)))) 11);
    [|discriminate].
  injection H as H.
  destruct (marker_len_inv _ _ Em) as (mk & rest0 & Es & Hmk & Hl).
  subst len. rewrite Es, skipn_prefix in H.
  destruct (token_split rest0) as [Er Ht]. rewrite H in Er, Ht.
  destruct (firstn_span url n Hn) as [Hone Hfl].
  exists (firstn n url), mk, (skipn (span token_class rest0) rest0).
  repeat split; auto.
  - now rewrite <- Er, <- Es, firstn_skipn.
  - intros pre' mk' rest' Ho. rewrite Hfl.
    destruct (Nat.le_gt_cases (length pre') n) as [Hle|Hgt]; [exact Hle|].
    destruct (occurrence_offset _ _ _ _ Ho) as [_ Hm'].
    destruct Ho as (Hu & _ & Hone').
    assert (Hsp : length pre' <= span CAny url)
      by (rewrite Hu; now apply span_one_line).
    specialize (Hmax (length pre') Hgt Hsp). rewrite Hm' in Hmax.
    discriminate.
  - apply Ht.
  - apply Ht.
Qed.

Lemma extraction_sound_witness :
  getYoutubeVideoId short_link = Some video
  /\ exists pre mk rest,
       last_occurrence short_link pre mk (video ++ rest)
       /\ token_of video rest /\ length video = 11.
Proof.
  assert (H : getYoutubeVideoId short_link = Some video)
    by (vm_compute; reflexivity).
  exact (conj H (extraction_is_sound short_link video H)).
Defined.

End LinkFacts.

Import LinkFacts.

(* ------------------------------------------------------------------ *)
(** ** The search over the endpoints *)

Module SearchFacts.

(** Property X11.
    The endpoints are asked in the order of the list and none is skipped:
    the direct requests go to the first [k] endpoints, each endpoint gets
    at most one direct and one relayed request, and a search that found
    nothing has asked every endpoint. *)
Theorem endpoints_in_order
        (net : network) (videoId : jsstring) (insts : list jsstring) :
  let s := tryInstances net videoId insts 0 0 None in
  exists k,
    k <= length insts
    /\ directs (issued s)
       = map (fun instance => targetUrl instance videoId) (firstn k insts)
    /\ k <= length (issued s) <= 2 * k
    /\ match found s with
       | None => k = length insts
       | Some _ => 1 <= k
       end.
Proof.
  intros s.
  destruct (visited_prefix net videoId insts 0 0 None)
    as (k & H1 & H2 & H3 & H4 & H5).
  exists k. fold s in H2, H3, H4, H5. repeat split; auto; try lia.
  destruct (found s); [apply H5; discriminate | now apply H4].
Qed.


(** Property X12.
    An answer with a success status and an empty body counts as found:
    the loop is left at once, no relay and no other endpoint is asked,
    whatever they would have answered, and the user is told that the
    audio could not be fetched. *)
Theorem empty_answer_ends_the_search
        (net : network) (w : world) (videoId instance : jsstring)
        (rest : list jsstring) (blob : Blob) :
  getYoutubeVideoId (youtubeUrl w) = Some videoId ->
  net 0 (targetUrl instance videoId) = Responds true (Some blob) ->
  blob_size blob = 0%N ->
  let w' := handleYoutubeFetchWith (instance :: rest) net w in
  trace w' = trace w ++ [Fetch 0 Direct (targetUrl instance videoId);
                         Alert could_not_fetch]
  /\ readers w' = readers w
  /\ isFetchingYT w' = false.
Proof.
  intros Hid Hnet Hsize w'. subst w'.
  pose proof (getYoutubeVideoId_length _ _ Hid) as Hlen.
  unfold handleYoutubeFetchWith. rewrite Hid.
  destruct videoId as [|c videoId]; [discriminate|].
  cbn [tryInstances]. rewrite Hnet. cbn [found issued]. rewrite Hsize.
  change (N.ltb 0 0) with false. cbv zeta. wsimpl.
  rewrite <- app_assoc. repeat split.
Qed.

(** The first endpoint of the component answers with nothing. *)
Lemma empty_answer_witness :
  getYoutubeVideoId (youtubeUrl watching) = Some video
  /\ always silent_answer 0 (targetUrl endpointA video)
     = Responds true (Some silent_answer)
  /\ blob_size silent_answer = 0%N
  /\ trace (handleYoutubeFetch (always silent_answer) watching)
     = trace watching ++ [Fetch 0 Direct (targetUrl endpointA video);
                          Alert could_not_fetch].
Proof.
  assert (Hid : getYoutubeVideoId (youtubeUrl watching) = Some video)
    by (vm_compute; reflexivity).
  assert (Hnet : always silent_answer 0 (targetUrl endpointA video)
                 = Responds true (Some silent_answer)) by reflexivity.
  assert (Hsize : blob_size silent_answer = 0%N) by reflexivity.
  destruct (empty_answer_ends_the_search
              (always silent_answer) watching video endpointA
              [endpointB; endpointC; lit "https://invidious.nerdvpn.de"]
              silent_answer Hid Hnet Hsize) as [R _].
  exact (conj Hid (conj Hnet (conj Hsize R))).
Defined.


Lemma nothing_delivered (net : network) (videoId : jsstring) :
  (forall calls url, delivers (net calls url) = None) ->
  forall insts iter calls err,
    found (tryInstances net videoId insts iter calls err) = None.
Proof.
  intros Hnet. induction insts as [|instance rest IH]; intros iter calls err;
    [reflexivity|].
  cbn [tryInstances].
  pose proof (Hnet calls (targetUrl instance videoId)) as H1.
  destruct (net calls (targetUrl instance videoId)) as [|[|] [b|]];
    try discriminate H1; cbn [after found]; auto.
  all: destruct (encodeURIComponent (targetUrl instance videoId)) as [enc|];
    cbn [after found]; auto.
  all: pose proof (Hnet (S calls) (proxyUrl enc)) as H2;
    destruct (net (S calls) (proxyUrl enc)) as [|[|] [b'|]];
    try discriminate H2; cbn [after found]; auto.
Qed.

(** Property X13.
    When no request delivers a body, every endpoint of the list is asked
    directly, in order, and then the user is told that the audio could
    not be fetched; nothing is read and the busy flag is lowered. *)
Theorem exhausted_search_alerts
        (net : network) (w : world) (videoId : jsstring) :
  getYoutubeVideoId (youtubeUrl w) = Some videoId ->
  (forall calls url, delivers (net calls url) = None) ->
  let fetches := issued (tryInstances net videoId instances 0 0 None) in
  let w' := run w [YoutubeFetch net] in
  trace w' = trace w ++ fetches ++ [Alert could_not_fetch]
  /\ directs fetches
     = map (fun instance => targetUrl instance videoId) instances
  /\ readers w' = readers w
  /\ isFetchingYT w' = false.
Proof.
  intros Hid Hnet fetches w'. subst fetches w'.
  pose proof (getYoutubeVideoId_length _ _ Hid) as Hlen.
  pose proof (nothing_delivered net videoId Hnet instances 0 0 None) as Hf.
  destruct (visited_prefix net videoId instances 0 0 None)
    as (k & _ & Hd & _ & Hall & _).
  rewrite (Hall Hf) in Hd. rewrite firstn_all in Hd.
  wsimpl. unfold handleYoutubeFetch, handleYoutubeFetchWith. rewrite Hid.
  destruct videoId as [|c videoId]; [discriminate|].
  rewrite Hf. cbv zeta. wsimpl. rewrite <- app_assoc.
  repeat split. exact Hd.
Qed.

Lemma exhausted_search_witness :
  getYoutubeVideoId (youtubeUrl watching) = Some video
  /\ (forall calls url, delivers (offline calls url) = None)
  /\ directs (issued (tryInstances offline video instances
                                   0 0 None))
     = map (fun instance => targetUrl instance video) instances
  /\ isFetchingYT (run watching [YoutubeFetch offline]) = false.
Proof.
  assert (Hid : getYoutubeVideoId (youtubeUrl watching) = Some video)
    by (vm_compute; reflexivity).
  assert (Hnet : forall calls url, delivers (offline calls url) = None)
    by reflexivity.
  destruct (exhausted_search_alerts offline watching video
              Hid Hnet) as (_ & D & _ & F).
  exact (conj Hid (conj Hnet (conj D F))).
Defined.


(** ** The relay URL *)

Lemma encode_app : forall n a ea,
  length a <= n -> encodeURIComponent a = Some ea ->
  forall b, encodeURIComponent (a ++ b)
            = option_map (List.app ea) (encodeURIComponent b).
Proof.
  induction n as [|n IH]; intros a ea Hn Ha b.
  - destruct a; [|cbn in Hn; lia]. injection Ha as <-.
    cbn [List.app]. now destruct (encodeURIComponent b).
  - destruct a as [|c a].
    { injection Ha as <-. cbn [List.app].
      now destruct (encodeURIComponent b). }
    cbn [length] in Hn. rewrite <- app_comm_cons.
    cbn [encodeURIComponent] in Ha |- *.
    destruct (uri_unreserved c).
    { destruct (encodeURIComponent a) as [ea'|] eqn:Ea; [|discriminate].
      injection Ha as <-. rewrite (IH a ea') by (lia || auto).
      now destruct (encodeURIComponent b). }
    destruct (is_low_surrogate c); [discriminate|].
    destruct (is_high_surrogate c).
    { destruct a as [|d a]; [discriminate|].
      rewrite <- app_comm_cons.
      destruct (is_low_surrogate d); [|discriminate].
      destruct (encodeURIComponent a) as [ea'|] eqn:Ea; [|discriminate].
      injection Ha as <-. cbn [length] in Hn.
      rewrite (IH a ea') by (lia || auto).
      destruct (encodeURIComponent b); cbn [option_map];
        now rewrite ?app_assoc. }
    destruct (encodeURIComponent a) as [ea'|] eqn:Ea; [|discriminate].
    injection Ha as <-. rewrite (IH a ea') by (lia || auto).
    destruct (encodeURIComponent b); cbn [option_map];
      now rewrite ?app_assoc.
Qed.

Lemma encode_plain : forall s,
  Forall id_char s -> encodeURIComponent s = Some s.
Proof.
  induction s as [|c s IH]; intros H; [reflexivity|].
  inversion H as [|? ? Hc Hs]; subst. cbn [encodeURIComponent].
  assert (Hu : uri_unreserved c = true).
  { unfold uri_unreserved. destruct Hc as [Hw | ->]; [|reflexivity].
    apply is_word_spec in Hw. now rewrite Hw. }
  now rewrite Hu, (IH Hs).
Qed.

(** Property X14.
    For an identifier written in the identifier alphabet the relay URL
    of every endpoint of the component exists: the target URL is
    percent-encoded with the identifier left as it is, so the relay can
    always be asked when the direct request throws. *)
Theorem relay_url_of_plain_id (instance videoId : jsstring) :
  In instance instances -> Forall id_char videoId ->
  exists host,
    encodeURIComponent instance = Some host
    /\ encodeURIComponent (targetUrl instance videoId)
       = Some (host ++ lit "%2Flatest_version%3Fid%3D" ++ videoId
                    ++ lit "%26itag%3D140%26local%3Dtrue").
Proof.
  intros Hin Hid.
  assert (Hhost : exists host, encodeURIComponent instance = Some host).
  { unfold instances in Hin. cbn [In] in Hin.
    destruct Hin as [<- | [<- | [<- | [<- | []]]]];
      eexists; vm_compute; reflexivity. }
  destruct Hhost as [host Hhost]. exists host. split; [exact Hhost|].
  unfold targetUrl.
  rewrite (encode_app _ instance host (Nat.le_refl _) Hhost).
  rewrite (encode_app _ (lit "/latest_version?id=")
                      (lit "%2Flatest_version%3Fid%3D") (Nat.le_refl _))
    by (vm_compute; reflexivity).
  rewrite (encode_app _ videoId videoId (Nat.le_refl _) (encode_plain _ Hid)).
  replace (encodeURIComponent (lit "&itag=140&local=true"))
    with (Some (lit "%26itag%3D140%26local%3Dtrue"))
    by (vm_compute; reflexivity).
  reflexivity.
Qed.

Lemma relay_url_witness :
  In endpointA instances /\ Forall id_char video
  /\ encodeURIComponent (targetUrl endpointA video) = Some encodedA.
Proof.
  assert (H1 : In endpointA instances) by (left; reflexivity).
  assert (H2 : Forall id_char video).
  { repeat (constructor; [left; unfold word_char; cbn; lia|]). constructor. }
  refine (conj H1 (conj H2 _)).
  destruct (relay_url_of_plain_id endpointA video H1 H2) as (host & Hh & Ht).
  rewrite Ht. f_equal.
  assert (E : host = lit "https%3A%2F%2Finv.nadeko.net").
  { assert (Hc : encodeURIComponent endpointA
                 = Some (lit "https%3A%2F%2Finv.nadeko.net"))
      by (vm_compute; reflexivity).
    congruence. }
  rewrite E. vm_compute. reflexivity.
Defined.

End SearchFacts.

Import SearchFacts.

(* ------------------------------------------------------------------ *)
(** ** The application shell *)

Module ShellFacts.

Import App.

(** Property X15.
    Whatever the service does, a transcription attempt ends in one of
    four ways: nothing was sent and nothing changed; or one request was
    sent and the state is COMPLETED with a transcript that is shown and no
    error banner; or one request was sent and the state is ERROR with an
    error banner that is shown and no transcript view; or one request was
    sent, the service rejected it with [null] or [undefined], and the
    state is ERROR with no message, so that neither the banner nor the
    transcript view is shown. The payload is kept in every case. *)
Theorem transcribe_outcomes (gen : service) (st : state) :
  let st' := fst (handleTranscribe gen st) in
  let sent := snd (handleTranscribe gen st) in
  (st' = st /\ sent = [])
  \/ (exists r,
        sent = [r] /\ audioData st' = audioData st
        /\ ((status st' = COMPLETED /\ shows_transcript st' = true
             /\ shows_error st' = false)
            \/ (status st' = ERROR /\ shows_transcript st' = false
                /\ transcript st' = transcript st
                /\ match gen (req_data r) (req_mimeType r) with
                   | GenThrows Nullish =>
                       errorMsg st' = None /\ shows_error st' = false
                   | _ => shows_error st' = true
                   end))).
Proof.
  unfold handleTranscribe.
  destruct (not_ready (audioData st)); [now left|].
  destruct (audioData st) as [a|] eqn:Ea; [|now left].
  destruct (base64 a) as [b|]; [|now left].
  right. exists {| req_data := b; req_mimeType := mimeType a |}.
  unfold transcribeAudio. cbn [req_data req_mimeType].
  destruct (gen b (mimeType a)) as [[|[[|c m]|]]|[[|c t]|]];
    cbn; rewrite ?Ea; (split; [reflexivity|]); (split; [reflexivity|]);
    first [ left; repeat split; reflexivity
          | right; repeat split; reflexivity ].
Qed.

(** ** From the input component to the service *)

Lemma split_nonempty sep : forall s, exists seg segs, split sep s = seg :: segs.
Proof.
  induction s as [|x s (seg & segs & IH)]; cbn [split]; [now eexists; eexists|].
  destruct (N.eqb x sep); [now eexists; eexists|].
  rewrite IH. now eexists; eexists.
Qed.

Lemma type_label_audio (a : AudioState) :
  audio_type (mimeType a) = true ->
  exists sub, mimeType a = lit "audio/" ++ sub
              /\ type_label a = Some (hd [] (split 47%N sub)).
Proof.
  intros H. apply startsWith_app in H.
  exists (skipn (length (lit "audio/")) (mimeType a)). split; [exact H|].
  unfold type_label. rewrite H at 1.
  change (lit "audio/" ++ ?r) with (lit "audio" ++ 47%N :: r).
  rewrite split_at_sep by (vm_compute; intuition discriminate).
  destruct (split_nonempty 47%N (skipn (length (lit "audio/")) (mimeType a)))
    as (seg & segs & ->).
  reflexivity.
Qed.

(** Property X16.
    The preview of the shell reads the second segment of the content
    type. For every payload that the input component hands over in a
    session that segment exists: the type is [audio/] followed by a
    subtype, and the label is the subtype up to its first slash. *)
Theorem preview_label_defined (acts : list action) :
  Forall (fun a => exists sub,
            mimeType a = lit "audio/" ++ sub
            /\ type_label a = Some (hd [] (split 47%N sub)))
         (payloads (trace (run initial acts))).
Proof.
  eapply Forall_impl;
    [|apply (reads_accounted_run acts initial reads_accounted_initial)].
  intros a [Ha _]. now apply type_label_audio.
Qed.

(** Property X17.
    The name that the preview shows. A payload that comes with a file
    carries the file's name and type, and the fallback text stands in
    only when that name is empty; a payload without a file (a recording
    or retrieved audio) always has a name of its own, so the fallback is
    never shown for it. *)
Theorem payload_names (acts : list action) :
  Forall (fun a =>
            match file a with
            | Some f =>
                name a = Some (file_name f) /\ mimeType a = file_type f
                /\ shown_name a = if truthy (file_name f) then file_name f
                                  else lit "Recorded Audio"
            | None =>
                exists n, name a = Some n /\ truthy n = true
                          /\ shown_name a = n
            end)
         (payloads (trace (run initial acts))).
Proof.
  rewrite run_payloads. cbn [trace initial payloads List.app].
  apply Forall_forall. intros a Ha.
  apply deliveries_read in Ha as (r & now & ->).
  unfold payload_of, shown_name.
  destruct (rd_kont r); cbn [file name mimeType].
  - repeat split.
  - eexists. repeat split.
  - eexists. repeat split.
Qed.

Lemma base64_encode_nil bs : base64_encode bs = [] -> bs = [].
Proof. destruct bs as [|a [|b [|c rest]]]; cbn; congruence. Qed.

Lemma audio_type_truthy s : audio_type s = true -> truthy s = true.
Proof. destruct s; [discriminate | reflexivity]. Qed.

(** Property X18.
    When a pending read ends well, the payload goes to the shell; a
    transcription attempt then sends the service exactly the base64 text
    of the blob's bytes with the payload's content type, unless the blob
    is empty: then the payload is accepted and previewed, but the attempt
    sends nothing and changes nothing. *)
Theorem empty_audio_is_not_sent
        (gen : service) (st : state) (w : world) (k : nat) (r : reader)
        (now : jsstring) :
  nth_error (readers w) k = Some r -> rd_done r = false ->
  audio_reader r -> ~ In 44%N (blob_type (rd_blob r)) ->
  exists a,
    payloads (trace (step w (LoadEnd k true now))) = payloads (trace w) ++ [a]
    /\ let st1 := handleAudioReady a st in
       match blob_bytes (rd_blob r) with
       | [] => handleTranscribe gen st1 = (st1, [])
       | _ :: _ =>
           snd (handleTranscribe gen st1)
           = [{| req_data := base64_encode (blob_bytes (rd_blob r));
                 req_mimeType := mimeType a |}]
       end.
Proof.
  intros Hk Hd Ha Hc. exists (payload_of r now). split.
  - destruct (step_effect w (LoadEnd k true now)) as [-> _].
    cbn [delivered]. now rewrite Hk, Hd.
  - assert (Hm : truthy (mimeType (payload_of r now)) = true).
    { apply audio_type_truthy.
      now apply (payload_of_well_formed r now Ha). }
    assert (Hb : base64 (payload_of r now)
                 = Some (base64_encode (blob_bytes (rd_blob r)))).
    { unfold payload_of.
      destruct (rd_kont r); cbn [base64]; now apply base64String_dataURL. }
    cbv zeta. unfold handleTranscribe, handleAudioReady, not_ready.
    cbn [audioData]. rewrite Hb, Hm.
    destruct (blob_bytes (rd_blob r)) as [|x bs] eqn:Eb; [reflexivity|].
    destruct (base64_encode (x :: bs)) as [|c t] eqn:Ee.
    + apply base64_encode_nil in Ee. discriminate.
    + cbn [truthy negb orb].
      destruct (transcribeAudio gen (c :: t) _) as [text|[|msg]];
        reflexivity.
Qed.

(** An audio file without content is selected and read. *)
Lemma hollow_witness :
  nth_error (readers (run initial [FileSelected (Some hollow)])) 0
  = Some {| rd_blob := blob_of_file hollow; rd_kont := KUpload hollow;
            rd_done := false |}
  /\ ~ In 44%N (file_type hollow)
  /\ exists a,
       payloads (trace (run initial [FileSelected (Some hollow);
                                     LoadEnd 0 true clock])) = [a]
       /\ handleTranscribe echo (handleAudioReady a idle)
          = (handleAudioReady a idle, []).
Proof.
  assert (H1 : nth_error (readers (run initial [FileSelected (Some hollow)])) 0
               = Some {| rd_blob := blob_of_file hollow;
                         rd_kont := KUpload hollow; rd_done := false |})
    by reflexivity.
  assert (H2 : ~ In 44%N (file_type hollow))
    by (vm_compute; intuition discriminate).
  refine (conj H1 (conj H2 _)).
  destruct (empty_audio_is_not_sent echo idle
              (run initial [FileSelected (Some hollow)]) 0 _ clock
              H1 eq_refl eq_refl H2) as (a & Ha & Hs).
  exists a. split; [exact Ha | exact Hs].
Defined.


(** ** Sessions of the shell *)

Lemma settled_step st a : settled st -> settled (shell_step st a).
Proof.
  intros H. destruct a as [audio|gen|]; cbn [shell_step].
  - now split.
  - unfold offers_transcribe.
    destruct (audioData st) as [a|] eqn:Ea; [|exact H].
    destruct (status st) eqn:Es; try exact H.
    pose proof H as Hs.
    unfold settled in H. rewrite Es in H. destruct H as [Ht He].
    unfold handleTranscribe. rewrite Ea.
    destruct (not_ready (Some a)); [exact Hs|].
    destruct (base64 a) as [b|]; [|exact Hs].
    unfold transcribeAudio, settled.
    destruct (gen b (mimeType a)) as [[|[[|c m]|]]|[[|c t]|]];
      cbn; rewrite ?Ht; repeat split; discriminate.
  - destruct (offers_reset st); [now split | exact H].
Qed.

Lemma announced_step st a :
  polite a -> settled st ->
  (status st = ERROR -> shows_error st = true) ->
  status (shell_step st a) = ERROR -> shows_error (shell_step st a) = true.
Proof.
  intros Hp Hs Ha. destruct a as [audio|gen|]; cbn [shell_step].
  - discriminate.
  - unfold offers_transcribe.
    destruct (audioData st) as [a|] eqn:Ea; [|exact Ha].
    destruct (status st) eqn:Es; try (rewrite Es; exact Ha).
    unfold handleTranscribe. rewrite Ea.
    destruct (not_ready (Some a)); [cbn [fst]; now rewrite Es|].
    destruct (base64 a) as [b|]; [|cbn [fst]; now rewrite Es].
    unfold transcribeAudio. pose proof (Hp b (mimeType a)) as Hn.
    destruct (gen b (mimeType a)) as [[|[[|c m]|]]|[[|c t]|]];
      cbn; try discriminate; try reflexivity.
    now contradiction Hn.
  - destruct (offers_reset st); [discriminate | exact Ha].
Qed.

(** Property X19.
    Between the events of a session the shell is never left in
    PROCESSING and never shows a transcript together with an error: the
    transcript view is rendered exactly in status COMPLETED and the
    error banner only in status ERROR, both only with a payload held. In
    ERROR the banner is rendered unless a service rejected with [null] or
    [undefined]: in a session whose services never do, the banner is
    rendered exactly in ERROR. *)
Theorem shell_shows_one_result (acts : list shell_action) :
  let st := shell_run initial_shell acts in
  match status st with
  | IDLE => shows_transcript st = false /\ shows_error st = false
  | PROCESSING => False
  | COMPLETED =>
      shows_transcript st = true /\ shows_error st = false
      /\ audioData st <> None
  | ERROR =>
      shows_transcript st = false /\ audioData st <> None
      /\ (Forall polite acts -> shows_error st = true)
  end.
Proof.
  intros st.
  assert (S : forall acts s,
             settled s -> settled (fold_left shell_step acts s)).
  { clear. induction acts as [|a acts IH]; intros s Hs; [exact Hs|].
    cbn [fold_left]. apply IH, settled_step, Hs. }
  assert (A : forall acts s,
             Forall polite acts -> settled s ->
             (status s = ERROR -> shows_error s = true) ->
             status (fold_left shell_step acts s) = ERROR ->
             shows_error (fold_left shell_step acts s) = true).
  { clear. induction acts as [|a acts IH]; intros s Hp Hs Ha; [exact Ha|].
    inversion Hp as [|? ? Hpa Hps]; subst. cbn [fold_left].
    apply IH; [exact Hps | now apply settled_step |].
    now apply announced_step. }
  assert (H0 : settled initial_shell) by now split.
  assert (H : settled st
              /\ (Forall polite acts ->
                  status st = ERROR -> shows_error st = true)).
  { split; [now apply S|]. intros Hp.
    apply A; [exact Hp | exact H0 | discriminate]. }
  clearbody st. destruct H as [H Hp].
  unfold settled, shows_transcript in *.
  destruct (status st); try contradiction.
  - destruct H as [_ He]. unfold shows_error. now rewrite He.
  - destruct H as (Ht & He & Ha). unfold shows_error. rewrite He.
    repeat split; auto.
    destruct (transcript st); [contradiction | reflexivity].
  - destruct H as (Ht & Ha & Hm). repeat split; auto.
Qed.

(** A service that rejects with [null]: status ERROR and nothing shown;
    and a session with a service that answers. *)
Lemma shell_witness :
  status (shell_run initial_shell
            [AudioReady (recording_payload (blob_bytes spoken) clock);
             PressTranscribe mute]) = ERROR
  /\ shows_error (shell_run initial_shell
                    [AudioReady (recording_payload (blob_bytes spoken) clock);
                     PressTranscribe mute]) = false
  /\ Forall polite [AudioReady (recording_payload (blob_bytes spoken) clock);
                    PressTranscribe echo]
  /\ shows_transcript
       (shell_run initial_shell
          [AudioReady (recording_payload (blob_bytes spoken) clock);
           PressTranscribe echo]) = true.
Proof.
  pose proof (shell_shows_one_result
                [AudioReady (recording_payload (blob_bytes spoken) clock);
                 PressTranscribe echo]) as H.
  assert (P : Forall polite
                [AudioReady (recording_payload (blob_bytes spoken) clock);
                 PressTranscribe echo]).
  { repeat constructor. intros d t. discriminate. }
  cbv zeta in H.
  assert (E : status (shell_run initial_shell
                 [AudioReady (recording_payload (blob_bytes spoken) clock);
                  PressTranscribe echo]) = COMPLETED) by reflexivity.
  rewrite E in H.
  exact (conj eq_refl (conj eq_refl (conj P (proj1 H)))).
Defined.

End ShellFacts.
